(** * TypeWiz Enhanced: instrumenter, collector and query engine

    A shallow embedding of
      - [typewiz-enhanced/lib/ast-instrumenter.js] (the AST instrumenter),
      - [lib/sqlite-collector.js] (the collector and its ingest pipeline,
        the function-calls query and the location query),
      - [lib/source-map-utils.js] (the annotation-candidates query, the
        enum suggestions, the statistics and [SourceMapMapper]),
    together with the properties the specification states about them, and
    further properties of the same code: the invariants of the store over
    any history of batches, the statistics, the location query, the enum
    suggestions, the source-position estimates of [SourceMapMapper] and
    the cases in which the instrumenter gives a file back unchanged.

    Conventions.  A JavaScript string is modelled by the [string] of its
    UTF-8 bytes, with the UTF-16 code units JavaScript counts and sorts by
    computed from them.  The numbers of a value list are doubles
    ([Js.number]); offsets, line numbers, columns, argument indices and
    counters are integers ([Z]).  The relational store is modelled as one
    list of rows per table, in rowid order. *)

From Stdlib Require Import ZArith List Ascii String Lia Bool Permutation Sorted.
From stdpp Require Import base decidable list strings gmap sorting.

Local Open Scope Z_scope.
Set Warnings "-register-all".

(** ** JavaScript strings and numbers

    A string is held as the bytes of its UTF-8 encoding, which is what
    node hands to MD5 and to SQLite; [units] gives the UTF-16 code units
    that JavaScript itself counts and compares. *)

Module Js.

Definition code (c : ascii) : Z := Z.of_N (N_of_ascii c).

Definition chr (z : Z) : ascii := ascii_of_N (Z.to_N z).

Definition dquote : ascii := chr 34.

Definition backslash : ascii := chr 92.

Definition chars (s : string) : list ascii := list_ascii_of_string s.

Definition str (l : list ascii) : string := string_of_list_ascii l.

(** A byte that continues a character of more than one byte. *)
Definition is_continuation (c : ascii) : bool := (128 <=? code c) && (code c <? 192).

(** The text after the bytes that continue the character before it. *)
Fixpoint skip_continuation (s : list ascii) : list ascii :=
  match s with
  | [] => []
  | c :: s' => if is_continuation c then skip_continuation s' else s
  end.

(** The code points of the text.  [cur] is the code point being read. *)
Fixpoint code_points_from (cur : option Z) (s : list ascii) : list Z :=
  match s with
  | [] => match cur with Some p => [p] | None => [] end
  | c :: s' =>
      if is_continuation c
      then code_points_from (Some (match cur with
                                   | Some p => p * 64 + (code c - 128)
                                   | None => code c
                                   end)) s'
      else
        let first := if code c <? 192 then code c
                     else if code c <? 224 then code c - 192
                     else if code c <? 240 then code c - 224
                     else code c - 240 in
        match cur with
        | Some p => p :: code_points_from (Some first) s'
        | None => code_points_from (Some first) s'
        end
  end.

Definition code_points (s : string) : list Z := code_points_from None (chars s).

(** The UTF-16 code units of a code point: itself, or a surrogate pair. *)
Definition units_of (p : Z) : list Z :=
  if p <? 65536 then [p]
  else [55296 + (p - 65536) / 1024; 56320 + (p - 65536) mod 1024].

(** The code units of the JavaScript string. *)
Definition units (s : string) : list Z := p ← code_points s; units_of p.

(** [s.length] *)
Definition slength (s : string) : Z := Z.of_nat (length (units s)).

(** U+FFFD, which node writes for a surrogate that stands alone. *)
Definition replacement : list ascii := [chr 239; chr 191; chr 189].

(** The bytes of the first [n] code units.  A surrogate pair cut in two
    leaves its first half alone. *)
Fixpoint take_units (n : nat) (s : list ascii) : list ascii :=
  match s with
  | [] => []
  | c :: s' =>
      if is_continuation c then c :: take_units n s'
      else
        match n with
        | O => []
        | S n' =>
            if code c <? 240 then c :: take_units n' s'
            else
              match n' with
              | O => replacement
              | S n'' => c :: take_units n'' s'
              end
        end
  end.

(** [s.slice(0, n)] for [0 <= n], as node encodes it. *)
Definition slice0 (n : nat) (s : string) : string := str (take_units n (chars s)).

Fixpoint starts_with (p s : list ascii) : bool :=
  match p, s with
  | [], _ => true
  | _ :: _, [] => false
  | a :: p', b :: s' => if Ascii.eqb a b then starts_with p' s' else false
  end.

Fixpoint includes_at (p s : list ascii) : bool :=
  starts_with p s ||
  match s with
  | [] => false
  | _ :: s' => includes_at p s'
  end.

(** [s.includes(p)] *)
Definition includes (s p : string) : bool := includes_at (chars p) (chars s).

(** [s.endsWith(suffix)] *)
Definition ends_with (s suffix : string) : bool :=
  starts_with (rev (chars suffix)) (rev (chars s)).

(** [s.replace(/needle/g, replacement)] for a literal needle: the matches
    are taken from left to right and do not overlap. *)
Fixpoint replace_chars (needle replacement : list ascii) (skip : nat) (s : list ascii)
    : list ascii :=
  match s with
  | [] => []
  | c :: s' =>
      match skip with
      | S k => replace_chars needle replacement k s'
      | O =>
          if starts_with needle s
          then replacement ++ replace_chars needle replacement (length needle - 1) s'
          else c :: replace_chars needle replacement 0 s'
      end
  end.

Definition replace_all (needle replacement s : string) : string :=
  match chars needle with
  | [] => s
  | n => str (replace_chars n (chars replacement) 0 (chars s))
  end.

Definition is_digit (c : ascii) : bool := (48 <=? code c) && (code c <=? 57).

(** [/^\d+$/.test(s)] *)
Definition all_digits (s : string) : bool :=
  match chars s with
  | [] => false
  | l => forallb is_digit l
  end.

(** [s.split(c).length] for a one-character separator. *)
Definition split_count (c : ascii) (s : string) : Z :=
  1 + Z.of_nat (length (filter (fun x => x = c) (chars s))).

(** [l.join(sep)] *)
Fixpoint join (sep : string) (l : list string) : string :=
  match l with
  | [] => EmptyString
  | [x] => x
  | x :: r => x +:+ sep +:+ join sep r
  end.

Definition hex_digit (z : Z) : ascii :=
  if z <? 10 then chr (48 + z) else chr (87 + z).

(** Decimal rendering of a number, [String(n)] on integers. *)
Fixpoint digits_fuel (fuel : nat) (n : Z) (acc : list ascii) : list ascii :=
  match fuel with
  | O => acc
  | S f =>
      let acc' := chr (48 + n mod 10) :: acc in
      if n / 10 =? 0 then acc' else digits_fuel f (n / 10) acc'
  end.

Definition string_of_Z (n : Z) : string :=
  if n <? 0
  then String "-" (str (digits_fuel (Z.to_nat (Z.log2 (- n)) + 1) (- n) []))
  else str (digits_fuel (Z.to_nat (Z.log2 n) + 1) n []).

(** The comparison of two texts by their bytes, a proper prefix first:
    the order of SQLite on [TEXT]. *)
Fixpoint str_leb (a b : list ascii) : bool :=
  match a, b with
  | [], _ => true
  | _ :: _, [] => false
  | x :: a', y :: b' =>
      if code x <? code y then true
      else if code y <? code x then false
      else str_leb a' b'
  end.

Definition str_le (a b : string) : Prop := str_leb (chars a) (chars b) = true.

(** Numbers in order, a proper prefix first. *)
Fixpoint list_leb (a b : list Z) : bool :=
  match a, b with
  | [], _ => true
  | _ :: _, [] => false
  | x :: a', y :: b' =>
      if x <? y then true
      else if y <? x then false
      else list_leb a' b'
  end.

(** The default comparison of [Array.prototype.sort]: code units in
    order.  Texts with the same code units are the same text when they are
    well-formed; otherwise their bytes decide. *)
Definition sort_leb (a b : string) : bool :=
  if decide (units a = units b)
  then list_leb (code <$> chars a) (code <$> chars b)
  else list_leb (units a) (units b).

Definition sort_le (a b : string) : Prop := sort_leb a b = true.

Definition Z_of_digits (l : list ascii) : Z :=
  fold_left (fun acc c => 10 * acc + (code c - 48)) l 0.

(** Canonical array indices ("0", "7", "42", ...): an object enumerates
    these keys first, in numeric order, and the others in insertion
    order. *)
Definition array_index (s : string) : option Z :=
  match chars s with
  | [] => None
  | c :: r =>
      if forallb is_digit (c :: r) && (negb (code c =? 48) || (length r =? 0)%nat)
         && (Z_of_digits (c :: r) <? 4294967295)
      then Some (Z_of_digits (c :: r))
      else None
  end.

(** *** Numbers

    A JavaScript number is a double.  [Num m e] stands for the double
    nearest to [m * 2^e] (ties to the even mantissa, an infinity beyond the
    largest double), so every number [JSON.parse] produces is some
    [Num m e], and an integer [n] is [Num n 0]. *)
Inductive number : Type := Num (m e : Z).

Definition int (n : Z) : number := Num n 0.

(** The double nearest to [m * 2^e], for [0 < m]: the pair [(q, e')] of
    its mantissa, below [2^53], and its exponent, from [-1074] up, with
    value [q * 2^e']; [None] is the infinity. *)
Definition round_double (m e : Z) : option (Z * Z) :=
  let e' := Z.max (e + Z.log2 m - 52) (-1074) in
  let q := if e' <=? e then m * 2 ^ (e - e')
           else
             let q := m / 2 ^ (e' - e) in
             let r := m mod 2 ^ (e' - e) in
             let half := 2 ^ (e' - e - 1) in
             if (half <? r) || ((r =? half) && Z.odd q) then q + 1 else q in
  let '(q, e') := if q =? 2 ^ 53 then (2 ^ 52, e' + 1) else (q, e') in
  if 971 <? e' then None else Some (q, e').

(** The [n] with [10^(n-1) <= v * 2^E < 10^n], for [0 < v]. *)
Definition below_power (v E n : Z) : bool :=
  v * 2 ^ Z.max E 0 * 10 ^ Z.max (- n) 0 <? 2 ^ Z.max (- E) 0 * 10 ^ Z.max n 0.

Definition decimal_exponent (v E : Z) : Z :=
  let est := (Z.log2 v + E) * 30103 / 100000 in
  match List.find (below_power v E) [est - 1; est; est + 1; est + 2; est + 3] with
  | Some n => n
  | None => est + 4
  end.

(** The decimal [s * 10^(n0 - k)] of [k] digits that the double [q * 2^e]
    is the nearest double of, if there is one: the one nearest to the
    double, the even one of two.  All values are scaled by
    [2^(2 - e) * 10^(k - n0)], so that they are integers over [D]. *)
Definition digits_of_length (q e n0 k : Z) : option Z :=
  let E := e - 2 in
  let p := n0 - k in
  let D := 2 ^ Z.max (- E) 0 * 10 ^ Z.max p 0 in
  let F := 2 ^ Z.max E 0 * 10 ^ Z.max (- p) 0 in
  let value := 4 * q * F in
  let above := (4 * q + 2) * F in
  let below := (if (q =? 2 ^ 52) && (-1074 <? e) then 4 * q - 1 else 4 * q - 2) * F in
  let rounds_to t :=
    if Z.even q then (below <=? t * D) && (t * D <=? above)
    else (below <? t * D) && (t * D <? above) in
  let s := value / D in
  match rounds_to s, rounds_to (s + 1) with
  | true, true =>
      let down := value - s * D in
      let up := (s + 1) * D - value in
      if down <? up then Some s
      else if up <? down then Some (s + 1)
      else Some (if Z.even s then s else s + 1)
  | true, false => Some s
  | false, true => Some (s + 1)
  | false, false => None
  end.

Fixpoint shortest_from (fuel : nat) (q e n0 k : Z) : Z * Z :=
  match digits_of_length q e n0 k with
  | Some s => if s =? 10 ^ k then (10 ^ (k - 1), n0 + 1) else (s, n0)
  | None =>
      match fuel with
      | O => (0, n0)
      | S f => shortest_from f q e n0 (k + 1)
      end
  end.

(** The digits [s] and the exponent [n] of [Number::toString]: the
    shortest decimal [s * 10^(n - k)], [k] the number of digits of [s],
    that denotes the double [q * 2^e]. *)
Definition shortest (q e : Z) : Z * Z :=
  shortest_from 17 q e (decimal_exponent (4 * q) (e - 2)) 1.

Definition zeros (n : Z) : list ascii := repeat "0"%char (Z.to_nat n).

(** The text of [Number::toString] for the digits [ds] and the exponent [n]. *)
Definition decimal_text (ds : list ascii) (n : Z) : string :=
  let k := Z.of_nat (length ds) in
  if (k <=? n) && (n <=? 21) then str (ds ++ zeros (n - k))
  else if (0 <? n) && (n <=? 21)
  then str (take (Z.to_nat n) ds ++ "."%char :: drop (Z.to_nat n) ds)
  else if (-6 <? n) && (n <=? 0) then str ("0"%char :: "."%char :: zeros (- n) ++ ds)
  else
    let exponent :=
      (if n - 1 <? 0 then "-"%char else "+"%char) :: chars (string_of_Z (Z.abs (n - 1))) in
    match ds with
    | [] => EmptyString
    | [d] => str (d :: "e"%char :: exponent)
    | d :: rest => str (d :: "."%char :: rest ++ "e"%char :: exponent)
    end.

(** [String(x)], that is [Number::toString(x)]. *)
Definition number_to_string (x : number) : string :=
  let '(Num m e) := x in
  if m =? 0 then "0"
  else
    let sign := if m <? 0 then "-" else EmptyString in
    match round_double (Z.abs m) e with
    | None => sign ++ "Infinity"
    | Some (q, e') =>
        if q =? 0 then "0"
        else let '(s, n) := shortest q e' in sign ++ decimal_text (chars (string_of_Z s)) n
    end.

(** Whether the number is finite, and whether it is zero. *)
Definition is_finite (x : number) : bool :=
  let '(Num m e) := x in
  (m =? 0) || match round_double (Z.abs m) e with Some _ => true | None => false end.

Definition is_zero (x : number) : bool :=
  let '(Num m e) := x in
  (m =? 0) || match round_double (Z.abs m) e with Some (q, _) => q =? 0 | None => false end.

End Js.

(** An integer, where a number is expected. *)
Coercion Js.int : Z >-> Js.number.

(** ** JSON values, the surrogates the runtime ships *)

Inductive json : Type :=
| JNull
| JBool (b : bool)
| JNum (x : Js.number)
| JStr (s : string)
| JArr (items : list json)
| JObj (fields : list (string * json)).

Module Json.

Definition escape_char (c : ascii) : list ascii :=
  let n := Js.code c in
  if n =? 34 then [Js.backslash; Js.dquote]
  else if n =? 92 then [Js.backslash; Js.backslash]
  else if n =? 8 then [Js.backslash; "b"%char]
  else if n =? 12 then [Js.backslash; "f"%char]
  else if n =? 10 then [Js.backslash; "n"%char]
  else if n =? 13 then [Js.backslash; "r"%char]
  else if n =? 9 then [Js.backslash; "t"%char]
  else if n <? 32
       then [Js.backslash; "u"; "0"; "0"; Js.hex_digit (n / 16); Js.hex_digit (n mod 16)]%char
  else [c].

(** [JSON.stringify] of a string: quoted and escaped. *)
Definition quote (s : string) : string :=
  Js.str ([Js.dquote] ++ concat (map escape_char (Js.chars s)) ++ [Js.dquote]).

(** [JSON.stringify(v)] with no indentation; a number that is not finite
    is written [null]. *)
Fixpoint stringify (v : json) : string :=
  match v with
  | JNull => "null"
  | JBool true => "true"
  | JBool false => "false"
  | JNum x => if Js.is_finite x then Js.number_to_string x else "null"
  | JStr s => quote s
  | JArr items => "[" +:+ Js.join "," (map stringify items) +:+ "]"
  | JObj fields =>
      "{" +:+ Js.join "," (map (fun kv => quote (fst kv) +:+ ":" +:+ stringify (snd kv)) fields)
          +:+ "}"
  end.

(** [obj[key]] on a parsed object; [None] is [undefined]. *)
Fixpoint lookup (key : string) (fields : list (string * json)) : option json :=
  match fields with
  | [] => None
  | (k, v) :: r => if String.eqb k key then Some v else lookup key r
  end.

(** JavaScript truthiness of a parsed value. *)
Definition truthy (v : json) : bool :=
  match v with
  | JNull => false
  | JBool b => b
  | JNum x => negb (Js.is_zero x)
  | JStr s => negb (String.eqb s EmptyString)
  | JArr _ | JObj _ => true
  end.

(** [String(v)] *)
Fixpoint to_string (v : json) : string :=
  match v with
  | JNull => "null"
  | JBool true => "true"
  | JBool false => "false"
  | JNum x => Js.number_to_string x
  | JStr s => s
  | JArr items =>
      Js.join "," (map (fun x => match x with JNull => EmptyString | _ => to_string x end) items)
  | JObj _ => "[object Object]"
  end.

Definition index_le (a b : Z * (string * json)) : Prop := (fst a <= fst b)%Z.

Global Instance index_le_dec a b : Decision (index_le a b).
Proof. unfold index_le. apply _. Defined.

(** The enumeration order of an object whose properties were created in
    the order [fields]. *)
Definition property_order (fields : list (string * json)) : list (string * json) :=
  let indexed :=
    omap (fun kv => match Js.array_index (fst kv) with
                    | Some i => Some (i, kv)
                    | None => None
                    end) fields in
  map snd (merge_sort index_le indexed)
  ++ List.filter (fun kv => match Js.array_index (fst kv) with
                            | Some _ => false
                            | None => true
                            end) fields.

End Json.

(** ** MD5 (RFC 1321), as computed by [crypto.createHash('md5')] *)

Module Md5.

Definition mask32 : Z := 0xffffffff.

Definition add32 (a b : Z) : Z := Z.land (a + b) mask32.

Definition not32 (a : Z) : Z := Z.lxor a mask32.

Definition rotl32 (x : Z) (c : Z) : Z :=
  Z.lor (Z.land (Z.shiftl x c) mask32) (Z.shiftr x (32 - c)).

Definition K : list Z :=
  [ 0xd76aa478; 0xe8c7b756; 0x242070db; 0xc1bdceee; 0xf57c0faf; 0x4787c62a;
    0xa8304613; 0xfd469501; 0x698098d8; 0x8b44f7af; 0xffff5bb1; 0x895cd7be;
    0x6b901122; 0xfd987193; 0xa679438e; 0x49b40821; 0xf61e2562; 0xc040b340;
    0x265e5a51; 0xe9b6c7aa; 0xd62f105d; 0x02441453; 0xd8a1e681; 0xe7d3fbc8;
    0x21e1cde6; 0xc33707d6; 0xf4d50d87; 0x455a14ed; 0xa9e3e905; 0xfcefa3f8;
    0x676f02d9; 0x8d2a4c8a; 0xfffa3942; 0x8771f681; 0x6d9d6122; 0xfde5380c;
    0xa4beea44; 0x4bdecfa9; 0xf6bb4b60; 0xbebfbc70; 0x289b7ec6; 0xeaa127fa;
    0xd4ef3085; 0x04881d05; 0xd9d4d039; 0xe6db99e5; 0x1fa27cf8; 0xc4ac5665;
    0xf4292244; 0x432aff97; 0xab9423a7; 0xfc93a039; 0x655b59c3; 0x8f0ccc92;
    0xffeff47d; 0x85845dd1; 0x6fa87e4f; 0xfe2ce6e0; 0xa3014314; 0x4e0811a1;
    0xf7537e82; 0xbd3af235; 0x2ad7d2bb; 0xeb86d391 ].

Definition shifts : list Z :=
  [ 7; 12; 17; 22; 7; 12; 17; 22; 7; 12; 17; 22; 7; 12; 17; 22;
    5; 9; 14; 20; 5; 9; 14; 20; 5; 9; 14; 20; 5; 9; 14; 20;
    4; 11; 16; 23; 4; 11; 16; 23; 4; 11; 16; 23; 4; 11; 16; 23;
    6; 10; 15; 21; 6; 10; 15; 21; 6; 10; 15; 21; 6; 10; 15; 21 ].

Definition nthZ (l : list Z) (i : Z) : Z := nth (Z.to_nat i) l 0.

(** Message bytes followed by the padding and the 64-bit length. *)
Definition pad (bytes : list Z) : list Z :=
  let len := Z.of_nat (length bytes) in
  let zeros := Z.to_nat ((55 - len) mod 64) in
  let bits := 8 * len in
  bytes ++ [0x80] ++ repeat 0 zeros
        ++ map (fun i => Z.land (Z.shiftr bits (8 * i)) 0xff) [0; 1; 2; 3; 4; 5; 6; 7].

Fixpoint words (bytes : list Z) : list Z :=
  match bytes with
  | b0 :: b1 :: b2 :: b3 :: r =>
      (b0 + Z.shiftl b1 8 + Z.shiftl b2 16 + Z.shiftl b3 24) :: words r
  | _ => []
  end.

Definition state : Type := (Z * Z * Z * Z)%type.

Definition round (M : list Z) (i : Z) (st : state) : state :=
  let '(A, B, C, D) := st in
  let '(F, g) :=
    if i <? 16 then (Z.lor (Z.land B C) (Z.land (not32 B) D), i)
    else if i <? 32 then (Z.lor (Z.land D B) (Z.land (not32 D) C), (5 * i + 1) mod 16)
    else if i <? 48 then (Z.lxor (Z.lxor B C) D, (3 * i + 5) mod 16)
    else (Z.lxor C (Z.lor B (not32 D)), (7 * i) mod 16) in
  let F' := add32 (add32 (add32 F A) (nthZ K i)) (nthZ M g) in
  (D, add32 B (rotl32 F' (nthZ shifts i)), B, C).

Definition block (st : state) (M : list Z) : state :=
  let '(a0, b0, c0, d0) := st in
  let '(A, B, C, D) := fold_left (fun s i => round M (Z.of_nat i) s) (seq 0 64) st in
  (add32 a0 A, add32 b0 B, add32 c0 C, add32 d0 D).

Fixpoint blocks (fuel : nat) (st : state) (ws : list Z) : state :=
  match fuel, ws with
  | S f, _ :: _ => blocks f (block st (take 16 ws)) (drop 16 ws)
  | _, _ => st
  end.

Definition le_bytes (w : Z) : list Z :=
  map (fun i => Z.land (Z.shiftr w (8 * i)) 0xff) [0; 1; 2; 3].

Definition hex_byte (b : Z) : list ascii :=
  [Js.hex_digit (b / 16); Js.hex_digit (b mod 16)].

(** [crypto.createHash('md5').update(s).digest('hex')] *)
Definition md5_hex (s : string) : string :=
  let ws := words (pad (map Js.code (Js.chars s))) in
  let '(A, B, C, D) :=
    blocks (length ws) (0x67452301, 0xefcdab89, 0x98badcfe, 0x10325476) ws in
  Js.str (concat (map hex_byte (le_bytes A ++ le_bytes B ++ le_bytes C ++ le_bytes D))).

End Md5.


(** ** The collector: [class SQLiteTypeCollector] *)

Module Collector.

(** [getValueType].  The values of a batch come out of [JSON.parse], so
    the [undefined], [Date], [RegExp] and [function] answers of the source
    do not arise on them. *)
Definition getValueType (value : json) : string :=
  match value with
  | JNull => "null"
  | JArr _ => "array"
  | JBool _ => "boolean"
  | JNum _ => "number"
  | JStr _ => "string"
  | JObj _ => "object"
  end.

Definition serialization_failed (valueType : string) : string :=
  Json.stringify (JObj [("_error", JStr "serialization_failed"); ("type", JStr valueType)]).

(** [serializeLiteralValue].  The branches for the tags ["Date"],
    ["RegExp"] and ["function"] are written for the parsed values the
    collector receives: a method that such a value lacks throws, and the
    handler of the source answers [serialization_failed]. *)
Definition serializeLiteralValue (value : json) (valueType : string) : string :=
  if String.eqb valueType "string" || String.eqb valueType "number"
     || String.eqb valueType "boolean" || String.eqb valueType "null"
     || String.eqb valueType "undefined"
  then Json.stringify value
  else if String.eqb valueType "object"
  then Js.slice0 1000 (Json.stringify value)
  else if String.eqb valueType "array"
  then match value with
       | JArr items => Json.stringify (JArr (take 10 items))
       | JStr s => Json.stringify (JStr (Js.slice0 10 s))
       | _ => serialization_failed valueType
       end
  else if String.eqb valueType "Date"
  then serialization_failed valueType
  else if String.eqb valueType "RegExp"
  then match value with
       | JNull => serialization_failed valueType
       | _ => Json.stringify (JObj [("_type", JStr "RegExp"); ("value", JStr (Json.to_string value))])
       end
  else if String.eqb valueType "function"
  then match value with
       | JNull => serialization_failed valueType
       | JObj fields =>
           let name := match Json.lookup "name" fields with
                       | Some n => if Json.truthy n then n else JStr "anonymous"
                       | None => JStr "anonymous"
                       end in
           Json.stringify (JObj [("_type", JStr "Function"); ("name", name)])
       | _ => Json.stringify (JObj [("_type", JStr "Function"); ("name", JStr "anonymous")])
       end
  else Json.stringify (JObj [("_type", JStr valueType); ("value", JStr (Json.to_string value))]).

(** [hashValue]: the first 8 hex characters of the MD5 digest. *)
Definition hashValue (literalValue : string) : string :=
  Js.slice0 8 (Md5.md5_hex literalValue).

(** [isEnumCandidateString] *)
Definition isEnumCandidateString (value : string) : bool :=
  if (Js.slength value =? 0) || (50 <? Js.slength value) then false
  else if Js.includes value "/" || Js.includes value (Js.str [Js.backslash]) then false
  else if Js.includes value "http" then false
  else if Js.all_digits value then false
  else if Js.includes value " " && (3 <? Js.split_count " " value) then false
  else true.

Record shape : Type := mkShape {
  signature : string;
  propertyNames : string;
  propertyTypes : string
}.

Global Instance str_le_dec (a b : string) : Decision (Js.str_le a b).
Proof. unfold Js.str_le. apply _. Defined.

Global Instance sort_le_dec (a b : string) : Decision (Js.sort_le a b).
Proof. unfold Js.sort_le. apply _. Defined.

(** [keys.sort()] *)
Definition sort_keys (keys : list string) : list string := merge_sort Js.sort_le keys.

(** The key that an object created by [{}] does not hold as a property of
    its own: it names the accessor of [Object.prototype]. *)
Definition is_proto (key : string) : bool := String.eqb key "__proto__".

(** [propertyTypes[key] = valueType] for every key of [sortedKeys], on
    [propertyTypes = {}].  The value is a string, which the setter behind
    [__proto__] ignores, so that key creates no property. *)
Definition assign_types (typeOf : string -> string) (sortedKeys : list string)
    : list (string * json) :=
  map (fun key => (key, JStr (typeOf key))) (List.filter (fun key => negb (is_proto key)) sortedKeys).

(** [`${propertyTypes[key]}`] after the loop, for a key of [sortedKeys]:
    the type that was assigned, and for [__proto__] the prototype of
    [propertyTypes], which prints as [[object Object]]. *)
Definition read_type (typeOf : string -> string) (key : string) : string :=
  if is_proto key then "[object Object]" else typeOf key.

(** [analyzeObjectShape].  [fields] lists the own enumerable properties
    of the object in enumeration order, so [Object.keys(obj)] is
    [map fst fields]. *)
Definition analyzeObjectShape (obj : json) : option shape :=
  match obj with
  | JObj fields =>
      let keys := map fst fields in
      if (length keys =? 0)%nat || (20 <? length keys)%nat then None
      else
        let sortedKeys := sort_keys keys in
        let typeOf key := match Json.lookup key fields with
                          | Some v => getValueType v
                          | None => "undefined"
                          end in
        let types := assign_types typeOf sortedKeys in
        Some {| signature :=
                  Js.join "," (map (fun key => key +:+ ":" +:+ read_type typeOf key) sortedKeys);
                propertyNames := Js.join "," sortedKeys;
                propertyTypes := Json.stringify (JObj (Json.property_order types)) |}
  | _ => None
  end.

(** *** The store: one list of rows per table of [initializeSchema] *)

Definition timestamp : Type := Z.

Record entity_row : Type := mkEntity {
  e_id : Z;
  e_filename : string;
  e_entity_name : option string;
  e_entity_type : string;
  e_offset_position : Z;
  e_line_number : option Z;
  e_column_number : option Z;
  e_first_seen : timestamp;
  e_last_seen : timestamp;
  e_observation_count : Z
}.

Record value_observation_row : Type := mkValueObservation {
  vo_id : Z;
  vo_entity_id : Z;
  vo_value_type : string;
  vo_literal_value : string;
  vo_value_hash : string;
  vo_context : string;
  vo_observation_count : Z;
  vo_first_seen : timestamp;
  vo_last_seen : timestamp;
  vo_source_location : option string
}.

Record string_literal_row : Type := mkStringLiteral {
  sl_id : Z;
  sl_entity_id : Z;
  sl_string_value : string;
  sl_observation_count : Z;
  sl_context : string;
  sl_first_seen : timestamp;
  sl_last_seen : timestamp
}.

Record object_shape_row : Type := mkObjectShape {
  os_id : Z;
  os_entity_id : Z;
  os_shape_signature : string;
  os_property_names : string;
  os_property_types : string;
  os_observation_count : Z;
  os_first_seen : timestamp;
  os_last_seen : timestamp
}.

Record hof_relationship_row : Type := mkHofRelationship {
  hof_id : Z;
  hof_callback_entity_id : Z;
  hof_callee_name : string;
  hof_callee_arg_index : Z;
  hof_source_filename : string;
  hof_first_seen : timestamp;
  hof_last_seen : timestamp;
  hof_observation_count : Z
}.

Record store : Type := mkStore {
  entities : list entity_row;
  value_observations : list value_observation_row;
  string_literals : list string_literal_row;
  object_shapes : list object_shape_row;
  hof_relationships : list hof_relationship_row
}.

Definition empty_store : store := mkStore [] [] [] [] [].

(** *** Generic table operations *)

Section Table.
Context {R : Type}.

(** [INTEGER PRIMARY KEY AUTOINCREMENT]: the id of a new row is one more
    than the largest id the table has handed out, and at least one more
    than the largest id in it.  Every run of an upsert takes an id, the
    runs that end in the update as well; and the runs of a table are what
    its counts add up to, each run inserting a row that counts 1 or adding 1
    to a count. *)
Definition next_id (rid count : R -> Z) (tbl : list R) : Z :=
  1 + Z.max (fold_right (fun r m => Z.max (rid r) m) 0 tbl)
            (fold_right (fun r n => count r + n) 0 tbl).

(** [INSERT ... ON CONFLICT(key) DO UPDATE]: the row that holds the key
    is updated in place, otherwise the new row is appended. *)
Fixpoint upsert (hit : R -> bool) (bump : R -> R) (fresh : R) (tbl : list R) : list R :=
  match tbl with
  | [] => [fresh]
  | r :: t => if hit r then bump r :: t else r :: upsert hit bump fresh t
  end.
End Table.

Definition entity_hit (filename : string) (offset : Z) (r : entity_row) : bool :=
  String.eqb (e_filename r) filename && (e_offset_position r =? offset).

Definition entity_bump (now : timestamp) (r : entity_row) : entity_row :=
  mkEntity (e_id r) (e_filename r) (e_entity_name r) (e_entity_type r) (e_offset_position r)
           (e_line_number r) (e_column_number r) (e_first_seen r) now
           (e_observation_count r + 1).

(** The statement [upsertEntity], with its [RETURNING id]. *)
Definition upsertEntity (filename : string) (offset : Z) (now : timestamp)
    (tbl : list entity_row) : Z * list entity_row :=
  let fresh := mkEntity (next_id e_id e_observation_count tbl) filename None "unknown" offset
                        None None now now 1 in
  let id := match List.find (entity_hit filename offset) tbl with
            | Some r => e_id r
            | None => e_id fresh
            end in
  (id, upsert (entity_hit filename offset) (entity_bump now) fresh tbl).

Definition coalesce {A : Type} (x y : option A) : option A :=
  match x with
  | Some _ => x
  | None => y
  end.

(** The statement [updateEntity]:
    [entity_name = COALESCE(?, entity_name)], the same for the line and
    the column, and [entity_type = ?]. *)
Definition updateEntity (functionName : option string) (lineNumber columnNumber : option Z)
    (context : string) (entityId : Z) (tbl : list entity_row) : list entity_row :=
  map (fun r =>
         if e_id r =? entityId
         then mkEntity (e_id r) (e_filename r) (coalesce functionName (e_entity_name r)) context
                       (e_offset_position r) (coalesce lineNumber (e_line_number r))
                       (coalesce columnNumber (e_column_number r))
                       (e_first_seen r) (e_last_seen r) (e_observation_count r)
         else r) tbl.

Definition vo_hit (entityId : Z) (valueHash context : string) (r : value_observation_row) : bool :=
  (vo_entity_id r =? entityId) && String.eqb (vo_value_hash r) valueHash
  && String.eqb (vo_context r) context.

Definition vo_bump (now : timestamp) (r : value_observation_row) : value_observation_row :=
  mkValueObservation (vo_id r) (vo_entity_id r) (vo_value_type r) (vo_literal_value r)
                     (vo_value_hash r) (vo_context r) (vo_observation_count r + 1)
                     (vo_first_seen r) now (vo_source_location r).

(** The statement [upsertValueObservation]. *)
Definition upsertValueObservation (entityId : Z) (valueType literalValue valueHash context : string)
    (sourceLocation : option string) (now : timestamp)
    (tbl : list value_observation_row) : list value_observation_row :=
  upsert (vo_hit entityId valueHash context) (vo_bump now)
         (mkValueObservation (next_id vo_id vo_observation_count tbl) entityId valueType
                             literalValue valueHash context
                             1 now now sourceLocation) tbl.

Definition sl_hit (entityId : Z) (value context : string) (r : string_literal_row) : bool :=
  (sl_entity_id r =? entityId) && String.eqb (sl_string_value r) value
  && String.eqb (sl_context r) context.

Definition sl_bump (now : timestamp) (r : string_literal_row) : string_literal_row :=
  mkStringLiteral (sl_id r) (sl_entity_id r) (sl_string_value r) (sl_observation_count r + 1)
                  (sl_context r) (sl_first_seen r) now.

(** The statement [upsertStringLiteral]. *)
Definition upsertStringLiteral (entityId : Z) (value context : string) (now : timestamp)
    (tbl : list string_literal_row) : list string_literal_row :=
  upsert (sl_hit entityId value context) (sl_bump now)
         (mkStringLiteral (next_id sl_id sl_observation_count tbl) entityId value 1 context
                          now now) tbl.

Definition os_hit (entityId : Z) (sig : string) (r : object_shape_row) : bool :=
  (os_entity_id r =? entityId) && String.eqb (os_shape_signature r) sig.

Definition os_bump (now : timestamp) (r : object_shape_row) : object_shape_row :=
  mkObjectShape (os_id r) (os_entity_id r) (os_shape_signature r) (os_property_names r)
                (os_property_types r) (os_observation_count r + 1) (os_first_seen r) now.

(** The statement [upsertObjectShape]. *)
Definition upsertObjectShape (entityId : Z) (sh : shape) (now : timestamp)
    (tbl : list object_shape_row) : list object_shape_row :=
  upsert (os_hit entityId (signature sh)) (os_bump now)
         (mkObjectShape (next_id os_id os_observation_count tbl) entityId (signature sh)
                        (propertyNames sh)
                        (propertyTypes sh) 1 now now) tbl.

Definition hof_hit (entityId : Z) (callee : string) (argIndex : Z)
    (r : hof_relationship_row) : bool :=
  (hof_callback_entity_id r =? entityId) && String.eqb (hof_callee_name r) callee
  && (hof_callee_arg_index r =? argIndex).

Definition hof_bump (now : timestamp) (r : hof_relationship_row) : hof_relationship_row :=
  mkHofRelationship (hof_id r) (hof_callback_entity_id r) (hof_callee_name r)
                    (hof_callee_arg_index r) (hof_source_filename r) (hof_first_seen r) now
                    (hof_observation_count r + 1).

(** The statement [upsertHofRelationship]. *)
Definition upsertHofRelationship (entityId : Z) (callee : string) (argIndex : Z)
    (filename : string) (now : timestamp)
    (tbl : list hof_relationship_row) : list hof_relationship_row :=
  upsert (hof_hit entityId callee argIndex) (hof_bump now)
         (mkHofRelationship (next_id hof_id hof_observation_count tbl) entityId callee argIndex
                            filename now now 1) tbl.

(** *** Batches as they arrive on the wire

    A record is the positional tuple [[filename, offset, types, metadata]]
    or the keyed form with the same four fields; [processTypeData] reads
    [entry[i]] or [entry.<name>] accordingly, so both decode to [entry].
    A field the record does not carry is [None] ([undefined] or [null]).
    The loop compares [calleeArgIndex] with [undefined]: there [None] is
    [undefined], [Some None] is [null] and [Some (Some i)] is the index
    [i].  The offset is the number the instrumenter wrote into the call of
    [$_$twiz]. *)

Record metadata : Type := mkMetadata {
  functionName : option string;
  lineNumber : option Z;
  columnNumber : option Z;
  context : option string;
  calleeName : option string;
  calleeArgIndex : option (option Z)
}.

Definition no_metadata : metadata := mkMetadata None None None None None None.

(** One element of the value list: the surrogate ([None] is [undefined],
    [Some JNull] is [null]) and the provenance pair or [null]. *)
Definition observed : Type := (option json * option (string * Z))%type.

Record entry : Type := mkEntry {
  filename : option string;
  offset : Z;
  types : option (list observed);
  entry_metadata : option metadata
}.

(** [x || null] on a string and on a number. *)
Definition str_or_null (x : option string) : option string :=
  match x with
  | Some s => if String.eqb s EmptyString then None else Some s
  | None => None
  end.

Definition num_or_null (x : option Z) : option Z :=
  match x with
  | Some n => if n =? 0 then None else Some n
  | None => None
  end.

(** *** Statements run against the store, and exceptions

    A computation threads the store and either returns or throws; the
    writes made before a throw stay in the store (the transaction is still
    open when the handler of the loop runs). *)

Definition M (A : Type) : Type := store -> option A * store.

Global Instance M_ret : MRet M := fun A (a : A) s => (Some a, s).

Global Instance M_bind : MBind M := fun A B (f : A -> M B) (m : M A) s =>
  match m s with
  | (Some a, s') => f a s'
  | (None, s') => (None, s')
  end.

Definition throw {A : Type} : M A := fun s => (None, s).

Definition modify (f : store -> store) : M unit := fun s => (Some tt, f s).

Definition when (b : bool) (m : M unit) : M unit := if b then m else mret tt.

Fixpoint for_each {A : Type} (f : A -> M unit) (l : list A) : M unit :=
  match l with
  | [] => mret tt
  | x :: r => f x ≫= fun _ => for_each f r
  end.

(** [for (... of types)]: a value that is not iterable throws. *)
Definition iterate {A : Type} (l : option (list A)) : M (list A) :=
  match l with
  | Some l => mret l
  | None => throw
  end.

Definition on_entities (f : list entity_row -> list entity_row) (s : store) : store :=
  mkStore (f (entities s)) (value_observations s) (string_literals s) (object_shapes s)
          (hof_relationships s).

Definition on_value_observations
    (f : list value_observation_row -> list value_observation_row) (s : store) : store :=
  mkStore (entities s) (f (value_observations s)) (string_literals s) (object_shapes s)
          (hof_relationships s).

Definition on_string_literals
    (f : list string_literal_row -> list string_literal_row) (s : store) : store :=
  mkStore (entities s) (value_observations s) (f (string_literals s)) (object_shapes s)
          (hof_relationships s).

Definition on_object_shapes
    (f : list object_shape_row -> list object_shape_row) (s : store) : store :=
  mkStore (entities s) (value_observations s) (string_literals s) (f (object_shapes s))
          (hof_relationships s).

Definition on_hof_relationships
    (f : list hof_relationship_row -> list hof_relationship_row) (s : store) : store :=
  mkStore (entities s) (value_observations s) (string_literals s) (object_shapes s)
          (f (hof_relationships s)).

(** [upsertEntity.get(filename, offset).id] *)
Definition upsertEntity_get (filename : string) (offset : Z) (now : timestamp) : M Z :=
  fun s =>
    let '(id, tbl) := upsertEntity filename offset now (entities s) in
    (Some id, on_entities (fun _ => tbl) s).

(** The enriched context of a value observation. *)
Definition enhancedContext (functionName : option string) (context : string) : string :=
  match functionName with
  | Some f => context +:+ "_in_" +:+ f
  | None => context
  end.

(** [processLiteralValue]; the prepared statements it is handed are the
    statements above. *)
Definition processLiteralValue (entityId : Z) (value : json) (sourceLocation : option string)
    (functionName : option string) (context : string) (now : timestamp) : M unit :=
  let valueType := getValueType value in
  let literalValue := serializeLiteralValue value valueType in
  let valueHash := hashValue literalValue in
  modify (on_value_observations
            (upsertValueObservation entityId valueType literalValue valueHash
                                    (enhancedContext functionName context) sourceLocation now)) ≫= fun _ =>
  when (String.eqb valueType "string")
       (match value with
        | JStr str =>
            when (isEnumCandidateString str)
                 (modify (on_string_literals (upsertStringLiteral entityId str "parameter" now)))
        | _ => mret tt
        end) ≫= fun _ =>
  when (String.eqb valueType "object")
       (match analyzeObjectShape value with
        | Some sh => modify (on_object_shapes (upsertObjectShape entityId sh now))
        | None => mret tt
        end).

Definition sourceLocationStr (sourceLocation : option (string * Z))
    (lineNumber columnNumber : option Z) : option string :=
  match sourceLocation with
  | Some (file, pos) => Some (file +:+ ":" +:+ Js.string_of_Z pos)
  | None =>
      match lineNumber with
      | Some line =>
          Some (Js.string_of_Z line +:+ ":" +:+
                Js.string_of_Z (match columnNumber with Some c => c | None => 0 end))
      | None => None
      end
  end.

Inductive outcome : Type := Processed | Skipped.

(** The body of the loop of [processTypeData], inside its [try].  The
    statement [upsertHofRelationship] runs when the callee name is truthy
    and the argument index is not [undefined]; on the index [null] it
    throws, the column being [callee_arg_index INTEGER NOT NULL]. *)
Definition processEntry (now : timestamp) (e : entry) : M outcome :=
  match str_or_null (filename e) with
  | None => mret Skipped
  | Some file =>
      let md := match entry_metadata e with Some md => md | None => no_metadata end in
      let functionName := str_or_null (functionName md) in
      let lineNumber := num_or_null (lineNumber md) in
      let columnNumber := num_or_null (columnNumber md) in
      let context := match str_or_null (context md) with Some c => c | None => "unknown" end in
      upsertEntity_get file (offset e) now ≫= fun entityId =>
      when (bool_decide (is_Some functionName) || bool_decide (is_Some lineNumber))
           (modify (on_entities
                      (updateEntity functionName lineNumber columnNumber context entityId))) ≫= fun _ =>
      match str_or_null (calleeName md), calleeArgIndex md with
      | Some callee, Some (Some argIndex) =>
          modify (on_hof_relationships (upsertHofRelationship entityId callee argIndex file now))
      | Some callee, Some None => throw
      | _, _ => mret tt
      end ≫= fun _ =>
      iterate (types e) ≫= fun values =>
      for_each (fun '(rawValue, sourceLocation) =>
                  match rawValue with
                  | None | Some JNull => mret tt
                  | Some value =>
                      processLiteralValue entityId value
                        (sourceLocationStr sourceLocation lineNumber columnNumber)
                        functionName context now
                  end) values ≫= fun _ =>
      mret Processed
  end.

(** [try { ... } catch (error) { ... }]: the handler runs on the store as
    the failing body left it. *)
Definition try_catch {A : Type} (body handler : M A) : M A := fun s =>
  match body s with
  | (Some a, s') => (Some a, s')
  | (None, s') => handler s'
  end.

(** The function handed to [this.db.transaction]: every record runs inside
    its own [try]; the handler only logs a warning, and the loop goes on. *)
Definition processBatch (now : timestamp) (entries : list entry) : M unit :=
  for_each (fun e => try_catch (processEntry now e ≫= fun _ => mret tt) (mret tt)) entries.

(** [db.transaction(fn)()]: commit when [fn] returns, roll back to the
    store at [BEGIN] when it throws. *)
Inductive transaction_result : Type :=
| Committed (s : store)
| RolledBack (s : store).

Definition transaction (fn : M unit) (s : store) : transaction_result :=
  match fn s with
  | (Some _, s') => Committed s'
  | (None, _) => RolledBack s
  end.

(** [processTypeData].  [now] is [CURRENT_TIMESTAMP], read once for the
    batch. *)
Definition processTypeData (now : timestamp) (entries : list entry) (s : store)
    : transaction_result :=
  transaction (processBatch now entries) s.

Definition store_of (r : transaction_result) : store :=
  match r with
  | Committed s => s
  | RolledBack s => s
  end.

(** The store after [n] ingests of the same batch, one per timestamp. *)
Definition replay (nows : list timestamp) (entries : list entry) (s : store) : store :=
  fold_left (fun s now => store_of (processTypeData now entries s)) nows s.

End Collector.

(** ** Reading the store *)

Module Rows.
Import Collector.

Definition entity_key : Type := (string * Z)%type.
Definition vo_key_t : Type := (Z * string * string)%type.

Definition e_key (r : entity_row) : entity_key := (e_filename r, e_offset_position r).

(** The identity of an entity row: its natural key and its id. *)
Definition e_ident (r : entity_row) : entity_key * Z := (e_key r, e_id r).

Definition vo_key (r : value_observation_row) : vo_key_t :=
  (vo_entity_id r, vo_value_hash r, vo_context r).

Definition sl_key (r : string_literal_row) : Z * string * string :=
  (sl_entity_id r, sl_string_value r, sl_context r).

Definition os_key (r : object_shape_row) : Z * string :=
  (os_entity_id r, os_shape_signature r).

Definition hof_key (r : hof_relationship_row) : Z * string * Z :=
  (hof_callback_entity_id r, hof_callee_name r, hof_callee_arg_index r).

(** The observation count stored under a key: the sum over the rows that
    hold it (one row at most when the key is unique). *)
Fixpoint total {R K : Type} `{EqDecision K} (key : R -> K) (cnt : R -> Z) (k : K)
    (tbl : list R) : Z :=
  match tbl with
  | [] => 0
  | r :: t => (if decide (key r = k) then cnt r else 0) + total key cnt k t
  end.

Definition vo_count (k : vo_key_t) (s : store) : Z :=
  total vo_key vo_observation_count k (value_observations s).

Definition entity_count (k : entity_key) (s : store) : Z :=
  total e_key e_observation_count k (entities s).

Definition sl_count (k : Z * string * string) (s : store) : Z :=
  total sl_key sl_observation_count k (string_literals s).

Definition os_count (k : Z * string) (s : store) : Z :=
  total os_key os_observation_count k (object_shapes s).

Definition hof_count (k : Z * string * Z) (s : store) : Z :=
  total hof_key hof_observation_count k (hof_relationships s).

(** The entity row a [(filename, offset)] pair designates. *)
Definition entity_at (file : string) (pos : Z) (s : store) : option entity_row :=
  List.find (entity_hit file pos) (entities s).

End Rows.

(** ** The AST instrumenter: [typewiz-enhanced/lib/ast-instrumenter.js] *)

(** A node of the Babel AST.  Like the AST of the parser, the type is
    untyped in the kind of node: the instrumenter inspects [node.type] at
    run time ([t.isIdentifier], [t.isBlockStatement], ...), which the model
    does by pattern matching.  [pos] holds [node.start] and
    [node.loc.start]; the nodes the instrumenter builds have none. *)
Record position : Type := mkPos {
  start : Z;
  line : Z;
  column : Z
}.

Inductive node : Type :=
| Identifier (pos : option position) (name : string) (typeAnnotation : bool)
| StringLiteral (value : string)
| NumericLiteral (value : Z)
| BooleanLiteral (value : bool)
| NullLiteral
| ObjectExpression (properties : list node)
| ObjectProperty (key value : node)
| ObjectMethod (pos : option position) (key : node) (params : list node) (body : node)
| ArrowFunctionExpression (pos : option position) (params : list node) (body : node)
| FunctionExpression (pos : option position) (id : option node) (params : list node) (body : node)
| CallExpression (callee : node) (arguments : list node)
| MemberExpression (object : node) (property : node)
| AssignmentPattern (pos : option position) (left right : node)
| ObjectPattern (pos : option position) (properties : list node) (typeAnnotation : bool)
| ArrayPattern (pos : option position) (elements : list node) (typeAnnotation : bool)
| RestElement (pos : option position) (argument : node)
| TSParameterProperty (pos : option position) (accessibility : option string) (parameter : node)
| FunctionDeclaration (pos : option position) (id : option node) (params : list node) (body : node)
| ClassDeclaration (id : option node) (body : list node)
| ClassMethod (pos : option position) (kind : string) (key : node) (params : list node)
              (body : node)
| VariableDeclaration (kind : string) (declarations : list node)
| VariableDeclarator (pos : option position) (id : node) (init : option node)
| BlockStatement (body : list node)
| ExpressionStatement (expression : node)
| ReturnStatement (argument : option node)
| TryStatement (block handler : node)
| CatchClause (param body : node)
| OtherNode (type : string) (children : list node).

Module Instrumenter.

(** [node.start] and [node.loc], where the node has them. *)
Definition node_pos (n : node) : option position :=
  match n with
  | Identifier pos _ _ | ObjectMethod pos _ _ _ | ArrowFunctionExpression pos _ _
  | FunctionExpression pos _ _ _ | AssignmentPattern pos _ _ | ObjectPattern pos _ _
  | ArrayPattern pos _ _ | RestElement pos _ | TSParameterProperty pos _ _
  | FunctionDeclaration pos _ _ _ | ClassMethod pos _ _ _ _ | VariableDeclarator pos _ _ => pos
  | _ => None
  end.

(** [node.start || 0] *)
Definition start_or_0 (n : node) : Z :=
  match node_pos n with
  | Some p => if start p =? 0 then 0 else start p
  | None => 0
  end.

(** [getLocationInfo] *)
Definition getLocationInfo (n : node) : Z * Z :=
  let n1 := match n with
            | TSParameterProperty _ _ parameter =>
                match parameter with
                | AssignmentPattern _ target _ => target
                | _ => parameter
                end
            | _ => n
            end in
  match node_pos n1 with
  | Some p => (line p, column p)
  | None => (1, 0)
  end.

(** The values a metadata object holds. *)
Inductive meta_value : Type :=
| MString (s : string)
| MNumber (n : Z)
| MBoolean (b : bool)
| MNull.

(** The literal [createTypeWizCall] builds for a metadata value: by
    [typeof], and [String(val)] for anything else. *)
Definition literal_of (val : meta_value) : node :=
  match val with
  | MString s => StringLiteral s
  | MNumber n => NumericLiteral n
  | MBoolean b => BooleanLiteral b
  | MNull => StringLiteral "null"
  end.

Definition twiz : string := "$_$twiz".

(** [createTypeWizCall]:
    [try { $_$twiz(name, value, offset, filename, { ...metadata }) } catch (e) {}] *)
Definition createTypeWizCall (name : string) (value : node) (offset : Z) (filename : string)
    (metadata : list (string * meta_value)) : node :=
  TryStatement
    (BlockStatement
       [ExpressionStatement
          (CallExpression (Identifier None twiz false)
             [StringLiteral name; value; NumericLiteral offset; StringLiteral filename;
              ObjectExpression
                ((fun kv => ObjectProperty (Identifier None (fst kv) false) (literal_of (snd kv)))
                   <$> metadata)])])
    (CatchClause (Identifier None "e" false) (BlockStatement [])).

(** The object [extractParameterInfo] returns; an absent property is
    [None]. *)
Record param_info : Type := mkParamInfo {
  pi_name : option string;
  pi_typeAnnotation : option string;
  pi_hasDefault : option bool;
  pi_isDestructured : option bool;
  pi_isRest : option bool;
  pi_accessibility : option string
}.

Definition annotated (b : bool) : option string := if b then Some "annotated" else None.

(** [extractParameterInfo] *)
Definition extractParameterInfo (param : node) : option param_info :=
  match param with
  | TSParameterProperty _ accessibility innerParam =>
      match innerParam with
      | AssignmentPattern _ (Identifier _ name ann) _ =>
          Some (mkParamInfo (Some name) (annotated ann) (Some true) None None accessibility)
      | Identifier _ name ann =>
          Some (mkParamInfo (Some name) (annotated ann) None None None accessibility)
      | _ => None
      end
  | Identifier _ name ann =>
      Some (mkParamInfo (Some name) (annotated ann) None None None None)
  | AssignmentPattern _ (Identifier _ name ann) _ =>
      Some (mkParamInfo (Some name) (annotated ann) (Some true) None None None)
  | AssignmentPattern _ (TSParameterProperty _ accessibility innerParam) _ =>
      match innerParam with
      | Identifier _ name ann =>
          Some (mkParamInfo (Some name) (annotated ann) (Some true) None None accessibility)
      | _ => Some (mkParamInfo None None (Some true) None None accessibility)
      end
  | ObjectPattern _ _ ann =>
      Some (mkParamInfo (Some "destructured_object") (annotated ann) None (Some true) None None)
  | ArrayPattern _ _ ann =>
      Some (mkParamInfo (Some "destructured_array") (annotated ann) None (Some true) None None)
  | RestElement _ (Identifier _ name ann) =>
      Some (mkParamInfo (Some name) (annotated ann) None None (Some true) None)
  | _ => None
  end.

Definition or_false (b : option bool) : bool := default false b.

(** The statement for one parameter, when [paramInfo && paramInfo.name]. *)
Definition parameter_call (funcName filename context : string) (index : nat) (param : node)
    : option node :=
  match extractParameterInfo param with
  | Some info =>
      match Collector.str_or_null (pi_name info) with
      | Some name =>
          let '(l, c) := getLocationInfo param in
          Some (createTypeWizCall (funcName +:+ "_param_" +:+ name) (Identifier None name false)
                  (start_or_0 param) filename
                  [ ("functionName", MString funcName);
                    ("parameterName", MString name);
                    ("parameterIndex", MNumber (Z.of_nat index));
                    ("parameterType", MString (default "untyped" (pi_typeAnnotation info)));
                    ("hasDefault", MBoolean (or_false (pi_hasDefault info)));
                    ("isDestructured", MBoolean (or_false (pi_isDestructured info)));
                    ("isRest", MBoolean (or_false (pi_isRest info)));
                    ("accessibility", match Collector.str_or_null (pi_accessibility info) with
                                      | Some a => MString a
                                      | None => MNull
                                      end);
                    ("context", MString context);
                    ("lineNumber", MNumber l);
                    ("columnNumber", MNumber c) ])
      | None => None
      end
  | None => None
  end.

(** [params.forEach((param, index) => ...)]: the statements pushed, in
    order. *)
Definition parameter_calls (funcName filename context : string) (params : list node)
    : list node :=
  omap (fun ip => parameter_call funcName filename context (fst ip) (snd ip))
       (imap (fun i p => (i, p)) params).

Definition node_params (n : node) : list node :=
  match n with
  | ObjectMethod _ _ params _ | ArrowFunctionExpression _ params _
  | FunctionExpression _ _ params _ | FunctionDeclaration _ _ params _
  | ClassMethod _ _ _ params _ => params
  | _ => []
  end.

Definition node_body (n : node) : option node :=
  match n with
  | ObjectMethod _ _ _ body | ArrowFunctionExpression _ _ body | FunctionExpression _ _ _ body
  | FunctionDeclaration _ _ _ body | ClassMethod _ _ _ _ body => Some body
  | _ => None
  end.

Definition with_body (n : node) (body : node) : node :=
  match n with
  | ObjectMethod pos key params _ => ObjectMethod pos key params body
  | ArrowFunctionExpression pos params _ => ArrowFunctionExpression pos params body
  | FunctionExpression pos id params _ => FunctionExpression pos id params body
  | FunctionDeclaration pos id params _ => FunctionDeclaration pos id params body
  | ClassMethod pos kind key params _ => ClassMethod pos kind key params body
  | _ => n
  end.

(** [if (t.isBlockStatement(body)) body.body.unshift(...statements)] *)
Definition unshift_block (statements : list node) (body : node) : node :=
  match body with
  | BlockStatement b => BlockStatement (statements ++ b)
  | _ => body
  end.

(** The statements [instrumentFunction] inserts: the entry call, then one
    call per parameter; the entry call alone, without a parameter count,
    for a function without parameters. *)
Definition function_statements (n : node) (funcName filename context : string) : list node :=
  let params := node_params n in
  let '(l, c) := getLocationInfo n in
  if (length params =? 0)%nat
  then [ createTypeWizCall (funcName +:+ "_entry") (StringLiteral funcName) (start_or_0 n) filename
           [ ("functionName", MString funcName);
             ("context", MString (context +:+ "_entry"));
             ("hasParameters", MBoolean false);
             ("lineNumber", MNumber l);
             ("columnNumber", MNumber c) ] ]
  else
    createTypeWizCall (funcName +:+ "_entry") (StringLiteral funcName) (start_or_0 n) filename
      [ ("functionName", MString funcName);
        ("context", MString (context +:+ "_entry"));
        ("hasParameters", MBoolean true);
        ("parameterCount", MNumber (Z.of_nat (length params)));
        ("lineNumber", MNumber l);
        ("columnNumber", MNumber c) ]
    :: parameter_calls funcName filename (context +:+ "_parameter") params.

(** [instrumentFunction] *)
Definition instrumentFunction (n : node) (funcName filename context : string) : node :=
  match node_body n with
  | Some body => with_body n (unshift_block (function_statements n funcName filename context) body)
  | None => n
  end.

(** The body [instrumentArrowFunction] gives the arrow function: the
    parameter calls in front of the block, or a block of the calls and
    [return <expression>]; nothing for an arrow without parameters. *)
Definition arrow_body (arrowFunc : node) (funcName filename : string) (body : node) : node :=
  let params := node_params arrowFunc in
  if (length params =? 0)%nat then body
  else
    let statements := parameter_calls funcName filename "arrow_function_parameter" params in
    match body with
    | BlockStatement b => BlockStatement (statements ++ b)
    | _ => BlockStatement (statements ++ [ReturnStatement (Some body)])
    end.

(** [instrumentArrowFunction], on the node of the declarator. *)
Definition instrumentArrowFunction (declarator : node) (funcName filename : string) : node :=
  match declarator with
  | VariableDeclarator pos id (Some (ArrowFunctionExpression apos params body)) =>
      VariableDeclarator pos id
        (Some (ArrowFunctionExpression apos params
                 (arrow_body (ArrowFunctionExpression apos params body) funcName filename body)))
  | _ => declarator
  end.

(** *** The traversal

    [instrumentedFunctions] is the set the visitors consult; a visitor that
    throws makes the whole of [instrumentCodeWithAST] take its [catch]
    branch, so a traversal either returns the new tree and the set, or
    fails. *)
Definition T (A : Type) : Type := gset string -> option (A * gset string).

Global Instance T_ret : MRet T := fun A (a : A) st => Some (a, st).

Global Instance T_bind : MBind T := fun A B (f : A -> T B) (m : T A) st =>
  match m st with
  | Some (a, st') => f a st'
  | None => None
  end.

Definition throw {A : Type} : T A := fun _ => None.

(** The name a visitor computes for its function: a string, or another
    value when the key of a method is not an identifier. *)
Inductive js_name : Type :=
| NameString (s : string)
| NameNumber (n : Z)
| NameTrue
| NameUndefined.

(** [`${funcName}`] *)
Definition name_text (name : js_name) : string :=
  match name with
  | NameString s => s
  | NameNumber n => Js.string_of_Z n
  | NameTrue => "true"
  | NameUndefined => "undefined"
  end.

Definition anonymous : js_name := NameString "anonymous".

(** [node.id ? node.id.name : 'anonymous'] *)
Definition declaration_name (id : option node) : js_name :=
  match id with
  | Some (Identifier _ name _) => NameString name
  | Some _ => NameUndefined
  | None => anonymous
  end.

(** [node.key.name || 'anonymous'] *)
Definition class_method_name (key : node) : js_name :=
  match key with
  | Identifier _ name _ => if String.eqb name EmptyString then anonymous else NameString name
  | _ => anonymous
  end.

(** [node.key.name || node.key.value || 'anonymous'] *)
Definition object_method_name (key : node) : js_name :=
  match key with
  | Identifier _ name _ => if String.eqb name EmptyString then anonymous else NameString name
  | StringLiteral v => if String.eqb v EmptyString then anonymous else NameString v
  | NumericLiteral n => if n =? 0 then anonymous else NameNumber n
  | BooleanLiteral true => NameTrue
  | _ => anonymous
  end.

(** [node.id.name] of a declarator. *)
Definition declarator_name (id : node) : js_name :=
  match id with
  | Identifier _ name _ => NameString name
  | _ => NameUndefined
  end.

(** [`${funcName}_${path.node.start}`]; a node without [start] prints
    [undefined]. *)
Definition function_key (name : js_name) (n : node) : string :=
  name_text name +:+ "_" +:+
  match node_pos n with
  | Some p => Js.string_of_Z (start p)
  | None => "undefined"
  end.

(** [if (instrumentedFunctions.has(key)) return; instrumentedFunctions.add(key)]:
    whether the visitor goes on. *)
Definition first_visit (key : string) : T bool := fun st =>
  if decide (key ∈ st) then Some (false, st) else Some (true, {[key]} ∪ st).

(** [t.stringLiteral(funcName)] inside [instrumentFunction] throws unless
    the name is a string. *)
Definition string_name (name : js_name) : T string :=
  match name with
  | NameString s => mret s
  | _ => throw
  end.

Fixpoint traverse_list (f : node -> T node) (l : list node) : T (list node) :=
  match l with
  | [] => mret []
  | x :: r => f x ≫= fun x' => traverse_list f r ≫= fun r' => mret (x' :: r')
  end.

Definition traverse_option (f : node -> T node) (o : option node) : T (option node) :=
  match o with
  | Some x => f x ≫= fun x' => mret (Some x')
  | None => mret None
  end.

(** The visitor of a function node: the statements it inserts, or none
    when the node was seen before. *)
Definition visit_function (n : node) (name : js_name) (filename context : string)
    : T (list node) :=
  first_visit (function_key name n) ≫= fun fresh : bool =>
  if fresh
  then string_name name ≫= fun funcName =>
       mret (function_statements n funcName filename context)
  else mret [].

(** [traverse(ast, visitors)].  A visitor runs when the traversal enters
    its node, before the children; the statements it inserts hold no node a
    visitor handles, so the model traverses the children as the parser
    gave them and inserts afterwards. *)
Fixpoint traverse (filename : string) (n : node) : T node :=
  match n with
  | Identifier _ _ _ | StringLiteral _ | NumericLiteral _ | BooleanLiteral _ | NullLiteral =>
      mret n
  | ObjectExpression properties =>
      traverse_list (traverse filename) properties ≫= fun properties' =>
      mret (ObjectExpression properties')
  | ObjectProperty key value =>
      traverse filename key ≫= fun key' =>
      traverse filename value ≫= fun value' =>
      mret (ObjectProperty key' value')
  | ObjectMethod pos key params body =>
      visit_function n (object_method_name key) filename "object_method" ≫= fun statements =>
      traverse filename key ≫= fun key' =>
      traverse_list (traverse filename) params ≫= fun params' =>
      traverse filename body ≫= fun body' =>
      mret (ObjectMethod pos key' params' (unshift_block statements body'))
  | ArrowFunctionExpression pos params body =>
      traverse_list (traverse filename) params ≫= fun params' =>
      traverse filename body ≫= fun body' =>
      mret (ArrowFunctionExpression pos params' body')
  | FunctionExpression pos id params body =>
      traverse_option (traverse filename) id ≫= fun id' =>
      traverse_list (traverse filename) params ≫= fun params' =>
      traverse filename body ≫= fun body' =>
      mret (FunctionExpression pos id' params' body')
  | CallExpression callee arguments =>
      traverse filename callee ≫= fun callee' =>
      traverse_list (traverse filename) arguments ≫= fun arguments' =>
      mret (CallExpression callee' arguments')
  | MemberExpression object property =>
      traverse filename object ≫= fun object' =>
      traverse filename property ≫= fun property' =>
      mret (MemberExpression object' property')
  | AssignmentPattern pos target value =>
      traverse filename target ≫= fun target' =>
      traverse filename value ≫= fun value' =>
      mret (AssignmentPattern pos target' value')
  | ObjectPattern pos properties ann =>
      traverse_list (traverse filename) properties ≫= fun properties' =>
      mret (ObjectPattern pos properties' ann)
  | ArrayPattern pos elements ann =>
      traverse_list (traverse filename) elements ≫= fun elements' =>
      mret (ArrayPattern pos elements' ann)
  | RestElement pos argument =>
      traverse filename argument ≫= fun argument' => mret (RestElement pos argument')
  | TSParameterProperty pos accessibility parameter =>
      traverse filename parameter ≫= fun parameter' =>
      mret (TSParameterProperty pos accessibility parameter')
  | FunctionDeclaration pos id params body =>
      visit_function n (declaration_name id) filename "function_declaration" ≫= fun statements =>
      traverse_option (traverse filename) id ≫= fun id' =>
      traverse_list (traverse filename) params ≫= fun params' =>
      traverse filename body ≫= fun body' =>
      mret (FunctionDeclaration pos id' params' (unshift_block statements body'))
  | ClassDeclaration id body =>
      traverse_option (traverse filename) id ≫= fun id' =>
      traverse_list (traverse filename) body ≫= fun body' =>
      mret (ClassDeclaration id' body')
  | ClassMethod pos kind key params body =>
      visit_function n (class_method_name key) filename
        (if String.eqb kind "constructor" then "constructor" else "class_method")
        ≫= fun statements =>
      traverse filename key ≫= fun key' =>
      traverse_list (traverse filename) params ≫= fun params' =>
      traverse filename body ≫= fun body' =>
      mret (ClassMethod pos kind key' params' (unshift_block statements body'))
  | VariableDeclaration kind declarations =>
      traverse_list (traverse filename) declarations ≫= fun declarations' =>
      mret (VariableDeclaration kind declarations')
  | VariableDeclarator pos id init =>
      match init with
      | Some (ArrowFunctionExpression apos params body) =>
          first_visit (function_key (declarator_name id) n) ≫= fun fresh : bool =>
          traverse filename id ≫= fun id' =>
          traverse_list (traverse filename) params ≫= fun params' =>
          traverse filename body ≫= fun body' =>
          mret (VariableDeclarator pos id'
                  (Some (ArrowFunctionExpression apos params'
                           (if fresh
                            then arrow_body (ArrowFunctionExpression apos params body)
                                            (name_text (declarator_name id)) filename body'
                            else body'))))
      | _ =>
          traverse filename id ≫= fun id' =>
          traverse_option (traverse filename) init ≫= fun init' =>
          mret (VariableDeclarator pos id' init')
      end
  | BlockStatement body =>
      traverse_list (traverse filename) body ≫= fun body' => mret (BlockStatement body')
  | ExpressionStatement expression =>
      traverse filename expression ≫= fun expression' => mret (ExpressionStatement expression')
  | ReturnStatement argument =>
      traverse_option (traverse filename) argument ≫= fun argument' =>
      mret (ReturnStatement argument')
  | TryStatement block handler =>
      traverse filename block ≫= fun block' =>
      traverse filename handler ≫= fun handler' =>
      mret (TryStatement block' handler')
  | CatchClause param body =>
      traverse filename param ≫= fun param' =>
      traverse filename body ≫= fun body' =>
      mret (CatchClause param' body')
  | OtherNode type children =>
      traverse_list (traverse filename) children ≫= fun children' =>
      mret (OtherNode type children')
  end.

(** *** The runtime prelude and the whole of [instrumentCodeWithAST] *)

Definition newline : string := String (Js.chr 10) EmptyString.

Definition ts_comment : string := "// @ts-expect-error TypeWiz runtime injection" +:+ newline.

(** [createTypeWizRuntime] *)
Definition createTypeWizRuntime (isTypeScript : bool) : string :=
  (if isTypeScript then ts_comment else EmptyString) +:+
"
// TypeWiz Enhanced Runtime with AST-based instrumentation
if (typeof window !== 'undefined' && typeof $_$twiz === 'undefined') {
    window.__typewiz_logs = {};
    window.__typewiz_batch = [];
    window.__typewiz_batch_timer = null;
    
    // Safe JSON stringify that handles circular references
    window.__typewiz_safe_stringify = function(obj) {
        try {
            if (obj === null || obj === undefined) return obj;
            if (typeof obj !== 'object') return obj;
            
            const seen = new WeakSet();
            return JSON.parse(JSON.stringify(obj, function(key, val) {
                if (val != null && typeof val === 'object') {
                    if (seen.has(val)) return '[Circular Reference]';
                    seen.add(val);
                    
                    if (val.nodeType) return '[DOM Element: ' + (val.tagName || 'unknown') + ']';
                    if (val instanceof Event) return '[Event: ' + val.type + ']';
                    if (val instanceof HTMLCollection) return '[HTMLCollection]';
                    if (val instanceof NodeList) return '[NodeList]';
                }
                return val;
            }));
        } catch (e) {
            return '[Serialization Error: ' + e.message + ']';
        }
    };
    
    window.$_$twiz = function(name, value, offset, filename, metadata) {
        try {
            // Store data locally for .get() method
            const key = filename + ':' + offset;
            if (!window.__typewiz_logs[key]) {
                window.__typewiz_logs[key] = [];
            }
            
            const safeValue = window.__typewiz_safe_stringify(value);
            window.__typewiz_logs[key].push([safeValue, null]);
            
            // Add to batch instead of sending immediately
            const typeData = [filename, offset, [[safeValue, null]], metadata];
            window.__typewiz_batch.push(typeData);
            
            // Start batch timer if not already running
            if (!window.__typewiz_batch_timer) {
                window.__typewiz_batch_timer = setTimeout(() => {
                    if (window.__typewiz_batch.length > 0 && typeof fetch !== 'undefined') {
                        console.log('[TypeWiz] Sending batch of', window.__typewiz_batch.length, 'entries');
                        try {
                            fetch('/__typewiz_sqlite_report', {
                                method: 'POST',
                                headers: { 'Content-Type': 'application/json' },
                                body: JSON.stringify(window.__typewiz_batch)
                            }).catch(e => console.warn('[TypeWiz] Batch collection failed:', e));
                        } catch (e) {
                            console.warn('[TypeWiz] Failed to stringify batch:', e);
                        }
                        
                        // Clear batch
                        window.__typewiz_batch = [];
                    }
                    window.__typewiz_batch_timer = null;
                }, 2000);
            }
        } catch (e) {
            console.warn('[TypeWiz] $_$twiz error:', e);
        }
    };
    
    // Add get method for compatibility with tests
    window.$_$twiz.get = function() {
        return Object.keys(window.__typewiz_logs).map(key => {
            const [filename, offset] = key.split(':');
            return [filename, parseInt(offset), window.__typewiz_logs[key], {}];
        });
    };
    
    // Add clear method for compatibility with tests
    window.$_$twiz.clear = function() {
        window.__typewiz_logs = {};
        window.__typewiz_batch = [];
        if (window.__typewiz_batch_timer) {
            clearTimeout(window.__typewiz_batch_timer);
            window.__typewiz_batch_timer = null;
        }
    };
    
    console.log('[TypeWiz Enhanced] " +:+ Js.str (Js.chr <$> [195; 176; 197; 184; 197; 161; 226; 130; 172]) +:+ " AST-based function argument instrumentation active');
}
".

Record parser_options : Type := mkParserOptions {
  sourceType : string;
  plugins : list string
}.

Definition base_plugins : list string :=
  [ "jsx"; "decorators-legacy"; "classProperties"; "objectRestSpread"; "functionBind";
    "exportDefaultFrom"; "exportNamespaceFrom"; "dynamicImport"; "nullishCoalescingOperator";
    "optionalChaining" ].

Section Pipeline.

(** The parser and the generator of Babel: [parser.parse] answers the
    body of the program or throws, [generate(ast, ...).code] prints it. *)
Variable parse : parser_options -> string -> option (list node).
Variable generate : list node -> string.

(** The console, to which the [catch] branch writes its warning. *)
Definition console : Type := list string.

(** [instrumentCodeWithAST].  The set [instrumentedFunctions] is created
    by the call and starts empty. *)
Definition instrumentCodeWithAST (source filename : string) (log : console) : string * console :=
  let isTypeScript := Js.ends_with filename ".ts" || Js.ends_with filename ".tsx" in
  let parserOptions :=
    mkParserOptions "module"
      (if isTypeScript then base_plugins ++ ["typescript"; "decorators-legacy"]
       else base_plugins) in
  let attempt : option string :=
    parse parserOptions source ≫= fun ast =>
    traverse_list (traverse filename) ast ∅ ≫= fun '(ast', _) =>
    parse (mkParserOptions "script" []) (createTypeWizRuntime isTypeScript) ≫= fun runtimeAST =>
    let code := generate (runtimeAST ++ ast') in
    Some (if isTypeScript
          then Js.replace_all "try {$_$twiz("
                 (ts_comment +:+ "      try {$_$twiz(") code
          else code) in
  match attempt with
  | Some code => (code, log)
  | None => (source, log ++ ["[TypeWiz AST] Failed to instrument " +:+ filename +:+ ":"])
  end.

End Pipeline.

End Instrumenter.

(** ** Reading the instrumented tree *)

Module Records.
Import Instrumenter.

(** An instrumentation record, as a reader of the output sees it. *)
Record twiz_record : Type := mkRecord {
  r_label : string;
  r_value : node;
  r_offset : Z;
  r_filename : string;
  r_metadata : list (string * node)
}.

(** The statement [try { $_$twiz(label, value, offset, filename, {...}) } catch (e) {}]. *)
Definition as_record (statement : node) : option twiz_record :=
  match statement with
  | TryStatement
      (BlockStatement
         [ExpressionStatement
            (CallExpression (Identifier _ callee _)
               [StringLiteral label; value; NumericLiteral offset; StringLiteral filename;
                ObjectExpression properties])])
      (CatchClause _ (BlockStatement [])) =>
      if String.eqb callee twiz
      then Some (mkRecord label value offset filename
                   (omap (fun p => match p with
                                   | ObjectProperty (Identifier _ key _) v => Some (key, v)
                                   | _ => None
                                   end) properties))
      else None
  | _ => None
  end.

(** The metadata entry of a record. *)
Fixpoint meta (key : string) (metadata : list (string * node)) : option node :=
  match metadata with
  | [] => None
  | (k, v) :: r => if String.eqb k key then Some v else meta key r
  end.

Definition option_records (f : node -> list twiz_record) (o : option node) : list twiz_record :=
  match o with
  | Some n => f n
  | None => []
  end.

(** All the records of a tree, in source order. *)
Fixpoint records (n : node) : list twiz_record :=
  match as_record n with
  | Some r => [r]
  | None =>
      match n with
      | Identifier _ _ _ | StringLiteral _ | NumericLiteral _ | BooleanLiteral _ | NullLiteral => []
      | ObjectExpression l | ObjectPattern _ l _ | ArrayPattern _ l _ | VariableDeclaration _ l
      | BlockStatement l | OtherNode _ l => flat_map records l
      | ObjectProperty a b | MemberExpression a b | AssignmentPattern _ a b | TryStatement a b
      | CatchClause a b => records a ++ records b
      | ObjectMethod _ key params body | ClassMethod _ _ key params body =>
          records key ++ flat_map records params ++ records body
      | ArrowFunctionExpression _ params body => flat_map records params ++ records body
      | FunctionExpression _ id params body | FunctionDeclaration _ id params body =>
          option_records records id ++ flat_map records params ++ records body
      | CallExpression callee arguments => records callee ++ flat_map records arguments
      | RestElement _ a | TSParameterProperty _ _ a | ExpressionStatement a => records a
      | ClassDeclaration id body => option_records records id ++ flat_map records body
      | VariableDeclarator _ id init => records id ++ option_records records init
      | ReturnStatement a => option_records records a
      end
  end.

(** A tree without any of the four kinds of node the visitors handle. *)
Fixpoint unhandled (n : node) : bool :=
  match n with
  | Identifier _ _ _ | StringLiteral _ | NumericLiteral _ | BooleanLiteral _ | NullLiteral => true
  | ObjectExpression l | ObjectPattern _ l _ | ArrayPattern _ l _ | VariableDeclaration _ l
  | BlockStatement l | OtherNode _ l => forallb unhandled l
  | ObjectProperty a b | MemberExpression a b | AssignmentPattern _ a b | TryStatement a b
  | CatchClause a b => unhandled a && unhandled b
  | ObjectMethod _ _ _ _ | ClassMethod _ _ _ _ _ | FunctionDeclaration _ _ _ _
  | VariableDeclarator _ _ _ => false
  | ArrowFunctionExpression _ params body => forallb unhandled params && unhandled body
  | FunctionExpression _ id params body =>
      match id with Some i => unhandled i | None => true end
      && forallb unhandled params && unhandled body
  | CallExpression callee arguments => unhandled callee && forallb unhandled arguments
  | RestElement _ a | TSParameterProperty _ _ a | ExpressionStatement a => unhandled a
  | ClassDeclaration id body =>
      match id with Some i => unhandled i | None => true end && forallb unhandled body
  | ReturnStatement a => match a with Some i => unhandled i | None => true end
  end.

Definition option_size (f : node -> nat) (o : option node) : nat :=
  match o with
  | Some n => f n
  | None => O
  end.

(** The number of nodes of a tree. *)
Fixpoint size (n : node) : nat :=
  S match n with
    | Identifier _ _ _ | StringLiteral _ | NumericLiteral _ | BooleanLiteral _ | NullLiteral => O
    | ObjectExpression l | ObjectPattern _ l _ | ArrayPattern _ l _ | VariableDeclaration _ l
    | BlockStatement l | OtherNode _ l => list_sum (map size l)
    | ObjectProperty a b | MemberExpression a b | AssignmentPattern _ a b | TryStatement a b
    | CatchClause a b => size a + size b
    | ObjectMethod _ key params body | ClassMethod _ _ key params body =>
        size key + list_sum (map size params) + size body
    | ArrowFunctionExpression _ params body => list_sum (map size params) + size body
    | FunctionExpression _ id params body | FunctionDeclaration _ id params body =>
        option_size size id + list_sum (map size params) + size body
    | CallExpression callee arguments => size callee + list_sum (map size arguments)
    | RestElement _ a | TSParameterProperty _ _ a | ExpressionStatement a => size a
    | ClassDeclaration id body => option_size size id + list_sum (map size body)
    | VariableDeclarator _ id init => size id + option_size size init
    | ReturnStatement a => option_size size a
    end.

(** The name under which a formal parameter is recorded, if it is. *)
Definition parameter_name (param : node) : option string :=
  extractParameterInfo param ≫= fun info => Collector.str_or_null (pi_name info).

End Records.

(** ** The query engine *)

Module Queries.
Import Collector.

(** [x LIKE pattern] in SQLite: [%] matches any run of characters, [_] any
    one character (a byte and the bytes that continue it), and ASCII
    letters match without regard to case. *)
Definition lower (c : ascii) : ascii :=
  if (65 <=? Js.code c) && (Js.code c <=? 90) then Js.chr (Js.code c + 32) else c.

Fixpoint like_chars (pattern : list ascii) : list ascii -> bool :=
  match pattern with
  | [] => fun s => match s with [] => true | _ => false end
  | c :: pattern' =>
      if Ascii.eqb c "%" then
        fix star (s : list ascii) : bool :=
          like_chars pattern' s || match s with [] => false | _ :: s' => star s' end
      else if Ascii.eqb c "_" then
        fun s => match s with
                 | [] => false
                 | _ :: s' => like_chars pattern' (Js.skip_continuation s')
                 end
      else
        fun s => match s with
                 | [] => false
                 | d :: s' => Ascii.eqb (lower c) (lower d) && like_chars pattern' s'
                 end
  end.

(** A [NULL] operand makes [LIKE] answer [NULL], which a [WHERE] rejects. *)
Definition like (x : option string) (pattern : string) : bool :=
  match x with
  | Some s => like_chars (Js.chars pattern) (Js.chars s)
  | None => false
  end.

(** [`%${text}%`] *)
Definition containing (text : string) : string := "%" +:+ text +:+ "%".

(** [FROM entities e JOIN value_observations vo ON e.id = vo.entity_id] *)
Definition joined (s : store) : list (entity_row * value_observation_row) :=
  e ← entities s;
  v ← List.filter (fun v => vo_entity_id v =? e_id e) (value_observations s);
  [(e, v)].

(** [GROUP BY]: the groups in order of first appearance, each with its
    rows in order. *)
Fixpoint add_to_group {A K : Type} `{EqDecision K} (k : K) (x : A)
    (groups : list (K * list A)) : list (K * list A) :=
  match groups with
  | [] => [(k, [x])]
  | (k', g) :: t =>
      if decide (k' = k) then (k', g ++ [x]) :: t else (k', g) :: add_to_group k x t
  end.

Definition group_by {A K : Type} `{EqDecision K} (key : A -> K) (l : list A)
    : list (K * list A) :=
  fold_left (fun groups x => add_to_group (key x) x groups) l [].

(** [ORDER BY]: the rows in the order [before] asks for, each row in
    front of the first row it may precede; rows that tie keep the order in
    which they reach the sorter. *)
Section OrderBy.
Context {A : Type} (before : A -> A -> Prop) `{forall a b, Decision (before a b)}.

Fixpoint insert_row (x : A) (l : list A) : list A :=
  match l with
  | [] => [x]
  | y :: l' => if decide (before x y) then x :: l else y :: insert_row x l'
  end.

Definition order_by (l : list A) : list A := foldr insert_row [] l.

End OrderBy.

(** SQLite forms the groups by sorting the rows on the grouping columns:
    the groups come out in the order of their keys, numbers by value and
    texts by their bytes, and that is the order in which they reach an
    [ORDER BY] that follows. *)
Definition in_key_order {A K : Type} (le : K -> K -> Prop) `{forall a b, Decision (le a b)}
    (groups : list (K * list A)) : list (K * list A) :=
  merge_sort (fun a b => le (fst a) (fst b)) groups.

(** [LIMIT ? OFFSET ?]: a negative limit is no limit, a negative offset is
    no offset. *)
Definition limit_offset {A : Type} (limit offset : Z) (l : list A) : list A :=
  let rest := drop (Z.to_nat offset) l in
  if limit <? 0 then rest else take (Z.to_nat limit) rest.

(** [COUNT(DISTINCT x)] *)
Definition count_distinct {A : Type} `{EqDecision A} (l : list A) : Z :=
  Z.of_nat (length (remove_dups l)).

Definition sum (l : list Z) : Z := fold_right Z.add 0 l.

(** *** [getFunctionCalls] *)

Record call_row : Type := mkCall {
  c_filename : string;
  c_entity_name : option string;
  c_offset_position : Z;
  c_line_number : option Z;
  c_column_number : option Z;
  c_observation_count : Z;
  c_first_seen : timestamp;
  c_last_seen : timestamp;
  c_value_type : string;
  c_literal_value : string;
  c_call_count : Z
}.

Record pagination : Type := mkPagination {
  p_offset : Z;
  p_pageSize : Z;
  p_total : Z;
  p_hasMore : bool
}.

Record function_calls : Type := mkFunctionCalls {
  calls : list call_row;
  calls_pagination : pagination;
  filter_filepath : option string;
  filter_functionName : option string
}.

(** The [WHERE] clause both statements are built with; an empty filter
    string is falsy and adds no condition. *)
Definition matches (filepath functionName : option string)
    (row : entity_row * value_observation_row) : bool :=
  let '(e, vo) := row in
  match str_or_null filepath with
  | Some f => like (Some (e_filename e)) (containing f)
  | None => true
  end
  && match str_or_null functionName with
     | Some f =>
         like (e_entity_name e) (containing f) || like (Some (vo_literal_value vo)) (containing f)
     | None => true
     end.

Definition call_group_key (row : entity_row * value_observation_row) : Z * string * string :=
  (e_id (fst row), vo_value_type (snd row), vo_literal_value (snd row)).

Definition call_of_group (g : list (entity_row * value_observation_row)) : option call_row :=
  match g with
  | [] => None
  | (e, vo) :: _ =>
      Some (mkCall (e_filename e) (e_entity_name e) (e_offset_position e) (e_line_number e)
                   (e_column_number e) (e_observation_count e) (e_first_seen e) (e_last_seen e)
                   (vo_value_type vo) (vo_literal_value vo) (Z.of_nat (length g)))
  end.

(** [ORDER BY e.last_seen DESC, call_count DESC] *)
Definition call_before (a b : call_row) : Prop :=
  c_last_seen b < c_last_seen a
  \/ (c_last_seen a = c_last_seen b /\ c_call_count b <= c_call_count a).

Global Instance call_before_dec a b : Decision (call_before a b).
Proof. unfold call_before. apply _. Defined.

(** The order of the keys of [GROUP BY e.id, vo.value_type, vo.literal_value]. *)
Definition call_key_le (a b : Z * string * string) : Prop :=
  fst (fst a) < fst (fst b)
  \/ (fst (fst a) = fst (fst b)
      /\ ((snd (fst a) <> snd (fst b) /\ Js.str_le (snd (fst a)) (snd (fst b)))
          \/ (snd (fst a) = snd (fst b) /\ Js.str_le (snd a) (snd b)))).

Global Instance call_key_le_dec a b : Decision (call_key_le a b).
Proof. unfold call_key_le. apply _. Defined.

(** The rows of the first statement before [LIMIT] and [OFFSET]: rows that
    tie on [last_seen] and [call_count] are in the order of their groups. *)
Definition call_groups (s : store) (filepath functionName : option string) : list call_row :=
  order_by call_before
    (omap (fun g => call_of_group (snd g))
          (in_key_order call_key_le
             (group_by call_group_key
                (List.filter (matches filepath functionName) (joined s))))).

(** The second statement: [COUNT(DISTINCT e.id)]. *)
Definition distinct_entities (s : store) (filepath functionName : option string) : Z :=
  count_distinct ((fun row => e_id (fst row))
                    <$> List.filter (matches filepath functionName) (joined s)).

Definition getFunctionCalls (s : store) (filepath functionName : option string)
    (offset pageSize : Z) : function_calls :=
  let total := distinct_entities s filepath functionName in
  mkFunctionCalls (limit_offset pageSize offset (call_groups s filepath functionName))
                  (mkPagination offset pageSize total (offset + pageSize <? total))
                  (str_or_null filepath) (str_or_null functionName).

(** *** [getAnnotationCandidates] *)

Record candidate : Type := mkCandidate {
  a_filename : string;
  a_offset_position : Z;
  a_entity_name : option string;
  a_value_type : string;
  a_unique_values : Z;
  a_total_observations : Z;
  a_example_values : string;
  a_annotation_type : string
}.

(** The [CASE] that names the annotation type of a group. *)
Definition annotation_type (value_type : string) (unique_values distinct_types : Z) : string :=
  if String.eqb value_type "string" && (2 <=? unique_values) && (unique_values <=? 10)
  then "ENUM_CANDIDATE"
  else if String.eqb value_type "object" then "INTERFACE_CANDIDATE"
  else if String.eqb value_type "number" && (unique_values <? 10) then "LITERAL_TYPE_CANDIDATE"
  else if 1 <? distinct_types then "UNION_CANDIDATE"
  else "SIMPLE_TYPE".

(** The [CASE] of the [ORDER BY]. *)
Definition rank (annotation : string) : Z :=
  if String.eqb annotation "ENUM_CANDIDATE" then 1
  else if String.eqb annotation "INTERFACE_CANDIDATE" then 2
  else if String.eqb annotation "UNION_CANDIDATE" then 3
  else if String.eqb annotation "LITERAL_TYPE_CANDIDATE" then 4
  else 5.

(** [LENGTH(x)] of SQLite on TEXT: the number of characters. *)
Definition sql_length (x : string) : Z := Z.of_nat (length (Js.code_points x)).

(** [SUBSTR(x, 1, n)]: the first [n] characters, each with the bytes that
    continue it. *)
Fixpoint first_characters (n : nat) (x : list ascii) : list ascii :=
  match x with
  | [] => []
  | c :: x' =>
      if Js.is_continuation c then c :: first_characters n x'
      else match n with
           | O => []
           | S n' => c :: first_characters n' x'
           end
  end.

Definition sql_substr (n : nat) (x : string) : string := Js.str (first_characters n (Js.chars x)).

Definition example_value (literal : string) : string :=
  if 40 <? sql_length literal then sql_substr 40 literal +:+ "..." else literal.

Definition candidate_group_key (row : entity_row * value_observation_row) : Z * string :=
  (e_id (fst row), vo_value_type (snd row)).

Definition candidate_of_group (g : list (entity_row * value_observation_row))
    : option candidate :=
  match g with
  | [] => None
  | (e, v) :: _ =>
      let unique_values := count_distinct ((fun row => vo_literal_value (snd row)) <$> g) in
      let distinct_types := count_distinct ((fun row => vo_value_type (snd row)) <$> g) in
      Some (mkCandidate (e_filename e) (e_offset_position e) (e_entity_name e) (vo_value_type v)
              unique_values
              (sum ((fun row => vo_observation_count (snd row)) <$> g))
              (Js.join " | "
                 (remove_dups ((fun row => example_value (vo_literal_value (snd row))) <$> g)))
              (annotation_type (vo_value_type v) unique_values distinct_types))
  end.

(** [ORDER BY] rank, then [total_observations DESC]. *)
Definition candidate_before (a b : candidate) : Prop :=
  rank (a_annotation_type a) < rank (a_annotation_type b)
  \/ (rank (a_annotation_type a) = rank (a_annotation_type b)
      /\ a_total_observations b <= a_total_observations a).

Global Instance candidate_before_dec a b : Decision (candidate_before a b).
Proof. unfold candidate_before. apply _. Defined.

(** The rows the statement describes: [.all(minObservations)] on the
    prepared statement. *)
Definition annotation_rows (s : store) (minObservations : Z) : list candidate :=
  order_by candidate_before
    (List.filter (fun c => minObservations <=? a_total_observations c)
       (omap (fun g => candidate_of_group (snd g))
             (group_by candidate_group_key
                (List.filter (fun row => negb (String.eqb (vo_value_type (snd row)) "undefined"))
                             (joined s))))).

(** An aggregate call in the text of a statement: its function, whether it
    is written with [DISTINCT], and the number of its arguments. *)
Record aggregate : Type := mkAggregate {
  ag_function : string;
  ag_distinct : bool;
  ag_arguments : nat
}.

(** [db.prepare(query)] compiles the statement, and SQLite compiles no
    [DISTINCT] aggregate that has not exactly one argument: [prepare]
    throws the error with this message. *)
Definition prepare_error (aggregates : list aggregate) : option string :=
  if forallb (fun a => negb (ag_distinct a) || (ag_arguments a =? 1)%nat) aggregates then None
  else Some "DISTINCT aggregates must have exactly one argument".

(** The aggregate calls of the statement of [getAnnotationCandidates], in
    the order of its text: [unique_values], [total_observations],
    [example_values] (the [CASE] and the separator [' | ']), and the three
    of the [CASE] that names the annotation type. *)
Definition annotation_aggregates : list aggregate :=
  [ mkAggregate "COUNT" true 1;
    mkAggregate "SUM" false 1;
    mkAggregate "GROUP_CONCAT" true 2;
    mkAggregate "COUNT" true 1;
    mkAggregate "COUNT" true 1;
    mkAggregate "COUNT" true 1 ].

(** [getAnnotationCandidates]: [this.db.prepare(query).all(minObservations)],
    with no handler around it; [inl] is the error thrown. *)
Definition getAnnotationCandidates (s : store) (minObservations : Z) : string + list candidate :=
  match prepare_error annotation_aggregates with
  | Some message => inl message
  | None => inr (annotation_rows s minObservations)
  end.

End Queries.

(** ** Splitting text *)

Module Text.

(** [s.split(sep)] for a separator of one character or more: the
    occurrences of the separator are taken from left to right and do not
    overlap.  [cur] holds the characters of the current piece, last
    first. *)
Fixpoint split_chars (sep : list ascii) (skip : nat) (cur : list ascii) (s : list ascii)
    : list (list ascii) :=
  match s with
  | [] => [rev cur]
  | c :: s' =>
      match skip with
      | S k => split_chars sep k cur s'
      | O =>
          if Js.starts_with sep s
          then rev cur :: split_chars sep (length sep - 1) [] s'
          else split_chars sep 0 (c :: cur) s'
      end
  end.

Definition split (sep s : string) : list string :=
  Js.str <$> split_chars (Js.chars sep) 0 [] (Js.chars s).

(** [s.replace(/\.(ts|js)$/, '')] *)
Definition strip_script_extension (s : string) : string :=
  if Js.ends_with s ".ts" || Js.ends_with s ".js"
  then Js.str (take (length (Js.chars s) - 3) (Js.chars s))
  else s.

End Text.

(** ** Statistics: [getStats] *)

Module Stats.
Import Collector Queries.

(** [SUM(x)]: [NULL] over no rows. *)
Definition sum_or_null (l : list Z) : option Z :=
  match l with
  | [] => None
  | _ => Some (sum l)
  end.

Record overview_row : Type := mkOverview {
  total_entities : Z;
  unique_files : Z;
  total_observations : option Z
}.

Record value_type_row : Type := mkValueType {
  vt_value_type : string;
  vt_unique_values : Z;
  vt_total_observations : Z
}.

Record stats : Type := mkStats {
  overview : overview_row;
  valueTypes : list value_type_row
}.

(** [SELECT COUNT( * ), COUNT(DISTINCT filename), SUM(observation_count)
    FROM entities] *)
Definition entity_overview (s : store) : overview_row :=
  mkOverview (Z.of_nat (length (entities s)))
             (count_distinct (e_filename <$> entities s))
             (sum_or_null (e_observation_count <$> entities s)).

Definition value_type_of_group (g : list value_observation_row) : option value_type_row :=
  match g with
  | [] => None
  | v :: _ =>
      Some (mkValueType (vo_value_type v) (Z.of_nat (length g))
                        (sum (vo_observation_count <$> g)))
  end.

(** [ORDER BY total_observations DESC] *)
Definition value_type_before (a b : value_type_row) : Prop :=
  vt_total_observations b <= vt_total_observations a.

Global Instance value_type_before_dec a b : Decision (value_type_before a b).
Proof. unfold value_type_before. apply _. Defined.

(** [SELECT value_type, COUNT( * ), SUM(observation_count)
    FROM value_observations GROUP BY value_type ORDER BY ...]: types that
    tie on the total are in the order of their groups. *)
Definition valueTypeStats (s : store) : list value_type_row :=
  order_by value_type_before
    (omap (fun g => value_type_of_group (snd g))
          (in_key_order Js.str_le (group_by vo_value_type (value_observations s)))).

(** [LLMApiServer.getStats] *)
Definition getStats (s : store) : stats :=
  mkStats (entity_overview s) (valueTypeStats s).

(** The two further statements of [SQLiteTypeCollector.getStats]. *)
Record enum_analysis : Type := mkEnumAnalysis {
  entities_with_strings : Z;
  total_string_literals : Z;
  total_string_observations : option Z
}.

Record object_analysis : Type := mkObjectAnalysis {
  entities_with_objects : Z;
  unique_object_shapes : Z;
  total_object_observations : option Z
}.

Definition enumCandidates (s : store) : enum_analysis :=
  mkEnumAnalysis (count_distinct (sl_entity_id <$> string_literals s))
                 (Z.of_nat (length (string_literals s)))
                 (sum_or_null (sl_observation_count <$> string_literals s)).

Definition objectShapes (s : store) : object_analysis :=
  mkObjectAnalysis (count_distinct (os_entity_id <$> object_shapes s))
                   (Z.of_nat (length (object_shapes s)))
                   (sum_or_null (os_observation_count <$> object_shapes s)).

End Stats.

(** ** Enum suggestions: [class LLMQueryInterface] *)

Module Llm.
Import Collector Queries.

(** [generateEnumName] *)
Definition base_name (filename : string) : string :=
  let stripped := Text.strip_script_extension (List.last (Text.split "/" filename) EmptyString) in
  if String.eqb stripped EmptyString then "Unknown" else stripped.

Definition generateEnumName (filename stringValues : string) : string :=
  let baseName := base_name filename in
  let values := take 3 (Text.split " | " stringValues) in
  if existsb (fun v => Js.includes v "success" || Js.includes v "error") values
  then baseName +:+ "Status"
  else if existsb (fun v => Js.includes v "read" || Js.includes v "write") values
  then baseName +:+ "Mode"
  else if forallb (fun v => Js.slength v <=? 3) values
  then baseName +:+ "Code"
  else baseName +:+ "Type".

Record enum_candidate : Type := mkEnumCandidate {
  ec_filename : string;
  ec_offset_position : Z;
  ec_entity_name : option string;
  ec_string_values : string;
  ec_total_observations : Z;
  ec_unique_strings : Z;
  ec_suggested_enum_name : string
}.

(** [FROM entities e JOIN string_literals s ON e.id = s.entity_id] *)
Definition joined_strings (s : store) : list (entity_row * string_literal_row) :=
  e ← entities s;
  l ← List.filter (fun l => sl_entity_id l =? e_id e) (string_literals s);
  [(e, l)].

(** One row of the statement, before [HAVING]; the suggested name is
    what the [map] over the rows adds. *)
Definition enum_of_group (g : list (entity_row * string_literal_row)) : option enum_candidate :=
  match g with
  | [] => None
  | (e, _) :: _ =>
      let string_values := Js.join " | " ((fun row => sl_string_value (snd row)) <$> g) in
      Some (mkEnumCandidate (e_filename e) (e_offset_position e) (e_entity_name e)
              string_values
              (sum ((fun row => sl_observation_count (snd row)) <$> g))
              (count_distinct ((fun row => sl_string_value (snd row)) <$> g))
              (generateEnumName (e_filename e) string_values))
  end.

(** [ORDER BY total_observations DESC, unique_strings DESC] *)
Definition enum_before (a b : enum_candidate) : Prop :=
  ec_total_observations b < ec_total_observations a
  \/ (ec_total_observations a = ec_total_observations b
      /\ ec_unique_strings b <= ec_unique_strings a).

Global Instance enum_before_dec a b : Decision (enum_before a b).
Proof. unfold enum_before. apply _. Defined.

(** [findEnumCandidates] *)
Definition findEnumCandidates (s : store) (minObservations minUniqueStrings : Z)
    : list enum_candidate :=
  order_by enum_before
    (List.filter (fun c => (minObservations <=? ec_total_observations c)
                           && (minUniqueStrings <=? ec_unique_strings c)
                           && (ec_unique_strings c <=? 20))
       (omap (fun g => enum_of_group (snd g))
             (group_by (fun row => e_id (fst row)) (joined_strings s)))).

End Llm.

(** ** Location data: [getLocationData] *)

Module Location.
Import Collector Queries.

(** [FROM entities e LEFT JOIN value_observations vo ON e.id = vo.entity_id]:
    an entity without observations gives one row, with [NULL]s. *)
Definition left_joined (s : store) : list (entity_row * option value_observation_row) :=
  e ← entities s;
  match List.filter (fun v => vo_entity_id v =? e_id e) (value_observations s) with
  | [] => [(e, None)]
  | vs => (fun v => (e, Some v)) <$> vs
  end.

(** [WHERE e.filename LIKE ? AND e.line_number = ?], and
    [AND e.column_number = ?] when a column is asked for. *)
Definition at_location (filename : string) (lineNumber : Z) (columnNumber : option Z)
    (row : entity_row * option value_observation_row) : bool :=
  let e := fst row in
  like (Some (e_filename e)) (containing filename)
  && match e_line_number e with
     | Some l => l =? lineNumber
     | None => false
     end
  && match columnNumber with
     | Some c => match e_column_number e with
                 | Some c' => c' =? c
                 | None => false
                 end
     | None => true
     end.

Definition row_value_type (row : entity_row * option value_observation_row) : option string :=
  vo_value_type <$> snd row.

(** [ORDER BY e.offset_position ASC, vo.value_type ASC]; [NULL] sorts
    first. *)
Definition type_le (a b : option string) : Prop :=
  match a, b with
  | None, _ => True
  | Some _, None => False
  | Some x, Some y => Js.str_le x y
  end.

Definition location_before (a b : entity_row * option value_observation_row) : Prop :=
  e_offset_position (fst a) < e_offset_position (fst b)
  \/ (e_offset_position (fst a) = e_offset_position (fst b)
      /\ type_le (row_value_type a) (row_value_type b)).

Global Instance type_le_dec a b : Decision (type_le a b).
Proof. destruct a, b; simpl; apply _. Defined.

Global Instance location_before_dec a b : Decision (location_before a b).
Proof. unfold location_before. apply _. Defined.

(** The rows of the first statement before [LIMIT] and [OFFSET]. *)
Definition location_rows (s : store) (filename : string) (lineNumber : Z)
    (columnNumber : option Z) : list (entity_row * option value_observation_row) :=
  order_by location_before
    (List.filter (at_location filename lineNumber columnNumber) (left_joined s)).

Record observation : Type := mkObservation {
  o_value_type : string;
  o_literal_value : string;
  o_context : string;
  o_observation_count : Z;
  o_first_seen : timestamp;
  o_last_seen : timestamp
}.

(** [`${row.filename}_${row.offset_position}`] *)
Definition entityKey (e : entity_row) : string :=
  e_filename e +:+ "_" +:+ Js.string_of_Z (e_offset_position e).

(** [if (row.value_type)]: the row carries a value observation. *)
Definition has_value_type (row : entity_row * option value_observation_row) : bool :=
  match snd row with
  | Some v => negb (String.eqb (vo_value_type v) EmptyString)
  | None => false
  end.

(** The observation a row adds to its entity. *)
Definition row_observation (row : entity_row * option value_observation_row)
    : list observation :=
  match snd row with
  | Some v =>
      if has_value_type row
      then [mkObservation (vo_value_type v) (vo_literal_value v) (vo_context v)
                          (vo_observation_count v) (vo_first_seen v) (vo_last_seen v)]
      else []
  | None => []
  end.

(** The object [entitiesByLocation], its keys in insertion order. *)
Definition by_location : Type := list (string * (entity_row * list observation)).

Fixpoint add_row (key : string) (e : entity_row) (obs : list observation)
    (groups : by_location) : by_location :=
  match groups with
  | [] => [(key, (e, obs))]
  | (k, (e0, os)) :: t =>
      if String.eqb k key then (k, (e0, os ++ obs)) :: t
      else (k, (e0, os)) :: add_row key e obs t
  end.

Definition entitiesByLocation (page : list (entity_row * option value_observation_row))
    : by_location :=
  fold_left (fun groups row => add_row (entityKey (fst row)) (fst row) (row_observation row) groups)
            page [].

Record location : Type := mkLocation {
  loc_filename : string;
  loc_line_number : Z;
  loc_column_number : option Z
}.

Record summary : Type := mkSummary {
  sum_total_entities : Z;
  sum_total_observations : Z
}.

Record location_data : Type := mkLocationData {
  ld_location : location;
  ld_entities : list (entity_row * list observation);
  ld_pagination : pagination;
  ld_summary : summary
}.

(** [getLocationData] *)
Definition getLocationData (s : store) (filename : string) (lineNumber : Z)
    (columnNumber : option Z) (offset pageSize : Z) : location_data :=
  let rows := location_rows s filename lineNumber columnNumber in
  let locationData := limit_offset pageSize offset rows in
  let total := Z.of_nat (length rows) in
  let groups := entitiesByLocation locationData in
  mkLocationData
    (mkLocation filename lineNumber columnNumber)
    (snd <$> groups)
    (mkPagination offset pageSize total (offset + pageSize <? total))
    (mkSummary (Z.of_nat (length groups))
               (Z.of_nat (length (List.filter has_value_type locationData)))).

End Location.

(** ** Source positions: [class SourceMapMapper] *)

Module Mapper.

(** What [consumer.originalPositionFor] answers; a field the map does not
    give is [None]. *)
Record original_position : Type := mkOriginal {
  op_source : option string;
  op_line : option Z;
  op_column : option Z;
  op_name : option string
}.

(** A loaded source map, by its lookup: [None] when the lookup throws. *)
Definition consumer : Type := Z -> Z -> option original_position.

Record mapped_position : Type := mkMapped {
  mp_source : string;
  mp_line : option Z;
  mp_column : option Z;
  mp_name : option string
}.

(** [calculateLineFromOffset]: [Math.floor(offset / 50) + 1] *)
Definition calculateLineFromOffset (offset : Z) : Z := offset / 50 + 1.

(** [calculateColumnFromOffset]: [offset % 50], whose sign is that of the
    offset. *)
Definition calculateColumnFromOffset (offset : Z) : Z := Z.rem offset 50.

(** [mapToOriginalPosition]; the console receives the warning of the
    [catch] branch. *)
Definition mapToOriginalPosition (sourceMaps : gmap string consumer) (jsFilePath : string)
    (jsLine jsColumn : Z) (log : list string) : mapped_position * list string :=
  let fallback := mkMapped jsFilePath (Some jsLine) (Some jsColumn) None in
  match sourceMaps !! jsFilePath with
  | None => (fallback, log)
  | Some lookup =>
      match lookup jsLine jsColumn with
      | Some originalPosition =>
          match Collector.str_or_null (op_source originalPosition) with
          | Some source =>
              (mkMapped source (op_line originalPosition) (op_column originalPosition)
                        (op_name originalPosition), log)
          | None => (fallback, log)
          end
      | None => (fallback, log ++ ["[TypeWiz] Source map lookup failed:"])
      end
  end.

Definition json_of_option_Z (x : option Z) : json :=
  match x with
  | Some n => JNum n
  | None => JNull
  end.

Definition json_of_option_string (x : option string) : json :=
  match x with
  | Some s => JStr s
  | None => JNull
  end.

(** [{ ...value }]: the own enumerable properties of the value. *)
Definition spread (value : option json) : list (string * json) :=
  match value with
  | Some (JObj fields) => fields
  | Some (JArr items) => imap (fun i x => (Js.string_of_Z (Z.of_nat i), x)) items
  | Some (JStr s) =>
      imap (fun i c => (Js.string_of_Z (Z.of_nat i), JStr (String c EmptyString))) (Js.chars s)
  | _ => []
  end.

(** A property written in an object literal: it replaces the one of the
    same name where that stands, and is added at the end otherwise. *)
Fixpoint set_property (key : string) (value : json) (fields : list (string * json))
    : list (string * json) :=
  match fields with
  | [] => [(key, value)]
  | (k, v) :: t =>
      if String.eqb k key then (k, value) :: t else (k, v) :: set_property key value t
  end.

(** [enhanceTypeWizData]: the tuple it returns. *)
Definition enhanceTypeWizData (sourceMaps : gmap string consumer) (filename : string)
    (offset : Z) (types : json) (metadata : option json) (log : list string)
    : (string * option Z * json * json) * list string :=
  let jsLine := calculateLineFromOffset offset in
  let jsColumn := calculateColumnFromOffset offset in
  let '(originalPos, log') := mapToOriginalPosition sourceMaps filename jsLine jsColumn log in
  let enhancedMetadata :=
    set_property "typescript"
      (JObj [ ("filename", JStr (mp_source originalPos));
              ("line", json_of_option_Z (mp_line originalPos));
              ("column", json_of_option_Z (mp_column originalPos));
              ("name", json_of_option_string (mp_name originalPos)) ])
      (set_property "javascript"
         (JObj [ ("filename", JStr filename); ("line", JNum jsLine); ("column", JNum jsColumn) ])
         (spread metadata)) in
  ((mp_source originalPos, mp_line originalPos, types, JObj enhancedMetadata), log').

End Mapper.

(** * Properties *)

(** ** Upserts on a table *)

Section Upsert.
Context {R K P : Type} `{EqDecision K}.
Context (key : R -> K) (cnt : R -> Z) (proj : R -> P).
Context (hit : R -> bool) (bump : R -> R) (fresh : R) (k : K).
Hypothesis hit_key : forall r, hit r = bool_decide (key r = k).
Hypothesis bump_key : forall r, key (bump r) = key r.
Hypothesis bump_proj : forall r, proj (bump r) = proj r.
Hypothesis fresh_key : key fresh = k.
Hypothesis bump_cnt : forall r, cnt (bump r) = cnt r + 1.
Hypothesis fresh_cnt : cnt fresh = 1.

Lemma upsert_proj_present (tbl : list R) :
  k ∈ key <$> tbl -> proj <$> Collector.upsert hit bump fresh tbl = proj <$> tbl.
Proof.
  induction tbl as [|r t IH]; intros Hin; [by inv Hin|].
  simpl. rewrite hit_key. case_bool_decide as Hr; csimpl.
  - by rewrite bump_proj.
  - f_equal. apply IH. apply elem_of_cons in Hin as [Heq|Hin]; [by subst|done].
Qed.

Lemma upsert_proj_absent (tbl : list R) :
  k ∉ key <$> tbl -> proj <$> Collector.upsert hit bump fresh tbl = (proj <$> tbl) ++ [proj fresh].
Proof.
  induction tbl as [|r t IH]; intros Hin; [done|].
  simpl. rewrite hit_key. csimpl in Hin. apply not_elem_of_cons in Hin as [Hne Hin].
  case_bool_decide as Hr; [by subst|]. csimpl. f_equal. by apply IH.
Qed.

Lemma upsert_proj_prefix (tbl : list R) :
  (proj <$> tbl) `prefix_of` (proj <$> Collector.upsert hit bump fresh tbl).
Proof.
  destruct (decide (k ∈ key <$> tbl)) as [Hin|Hin].
  - by rewrite upsert_proj_present.
  - rewrite upsert_proj_absent by done. by apply prefix_app_r.
Qed.

Lemma upsert_total (k' : K) (tbl : list R) :
  Rows.total key cnt k' (Collector.upsert hit bump fresh tbl)
  = Rows.total key cnt k' tbl + (if decide (k = k') then 1 else 0).
Proof.
  induction tbl as [|r t IH]; simpl.
  - rewrite fresh_key, fresh_cnt. lia.
  - rewrite hit_key. case_bool_decide as Hr; simpl.
    + rewrite bump_key, bump_cnt, Hr. repeat case_decide; lia.
    + rewrite IH. repeat case_decide; congruence || lia.
Qed.

End Upsert.

Section UpsertKeys.
Context {R K : Type} `{EqDecision K}.
Context (key : R -> K) (hit : R -> bool) (bump : R -> R) (fresh : R) (k : K).
Hypothesis hit_key : forall r, hit r = bool_decide (key r = k).
Hypothesis bump_key : forall r, key (bump r) = key r.
Hypothesis fresh_key : key fresh = k.

Lemma upsert_key_elem (tbl : list R) : k ∈ key <$> Collector.upsert hit bump fresh tbl.
Proof.
  destruct (decide (k ∈ key <$> tbl)) as [Hin|Hin].
  - by rewrite (upsert_proj_present key key hit bump fresh k).
  - rewrite (upsert_proj_absent key key hit bump fresh k) by done.
    rewrite fresh_key. set_solver.
Qed.

Lemma upsert_keys_NoDup (tbl : list R) :
  NoDup (key <$> tbl) -> NoDup (key <$> Collector.upsert hit bump fresh tbl).
Proof.
  intros Hnd. destruct (decide (k ∈ key <$> tbl)) as [Hin|Hin].
  - by rewrite (upsert_proj_present key key hit bump fresh k).
  - rewrite (upsert_proj_absent key key hit bump fresh k) by done.
    rewrite fresh_key. apply NoDup_app. split; [done|]. split; [|apply NoDup_singleton].
    intros x Hx Hk. apply list_elem_of_singleton in Hk. by subst.
Qed.

End UpsertKeys.

(** ** Folding upserts over a list of operations *)

Section UpsertFold.
Context {R K T : Type} `{EqDecision K}.
Context (key : R -> K) (cnt : R -> Z).

(** [f x] upserts the key [fk x], or leaves the table alone when [fk x] is
    [None]. *)
Definition upserts (fk : T -> option K) (f : list R -> T -> list R) : Prop :=
  forall x tbl,
    match fk x with
    | None => f tbl x = tbl
    | Some k =>
        exists hit bump fresh,
          f tbl x = Collector.upsert hit bump fresh tbl
          /\ (forall r, hit r = bool_decide (key r = k))
          /\ (forall r, key (bump r) = key r)
          /\ key fresh = k
          /\ (forall r, cnt (bump r) = cnt r + 1)
          /\ cnt fresh = 1
    end.

Context (fk : T -> option K) (f : list R -> T -> list R).
Hypothesis Hf : upserts fk f.

Lemma upserts_prefix tbl x : (key <$> tbl) `prefix_of` (key <$> f tbl x).
Proof.
  specialize (Hf x tbl). destruct (fk x) as [k|]; [|by rewrite Hf].
  destruct Hf as (hit & bump & fresh & -> & Hhit & Hbump & Hfresh & _).
  by apply (upsert_proj_prefix key key hit bump fresh k).
Qed.

Lemma upserts_elem tbl x k : fk x = Some k -> k ∈ key <$> f tbl x.
Proof.
  intros Hk. specialize (Hf x tbl). rewrite Hk in Hf.
  destruct Hf as (hit & bump & fresh & -> & Hhit & Hbump & Hfresh & _).
  by apply (upsert_key_elem key hit bump fresh k).
Qed.

Lemma upserts_present tbl x :
  (forall k, fk x = Some k -> k ∈ key <$> tbl) -> key <$> f tbl x = key <$> tbl.
Proof.
  intros Hin. specialize (Hf x tbl). destruct (fk x) as [k|]; [|by rewrite Hf].
  destruct Hf as (hit & bump & fresh & -> & Hhit & Hbump & Hfresh & _).
  apply (upsert_proj_present key key hit bump fresh k); auto.
Qed.

Lemma upserts_NoDup tbl x : NoDup (key <$> tbl) -> NoDup (key <$> f tbl x).
Proof.
  intros Hnd. specialize (Hf x tbl). destruct (fk x) as [k|]; [|by rewrite Hf].
  destruct Hf as (hit & bump & fresh & -> & Hhit & Hbump & Hfresh & _).
  by apply (upsert_keys_NoDup key hit bump fresh k).
Qed.

Lemma upserts_total tbl x k :
  Rows.total key cnt k (f tbl x)
  = Rows.total key cnt k tbl + (if decide (fk x = Some k) then 1 else 0).
Proof.
  specialize (Hf x tbl). destruct (fk x) as [k'|].
  - destruct Hf as (hit & bump & fresh & -> & Hhit & Hbump & Hfresh & Hcnt & Hone).
    rewrite (upsert_total key cnt hit bump fresh k') by done.
    repeat case_decide; congruence || lia.
  - rewrite Hf. case_decide; [done|lia].
Qed.

Lemma fold_upserts_prefix l tbl : (key <$> tbl) `prefix_of` (key <$> fold_left f l tbl).
Proof.
  revert tbl. induction l as [|x l IH]; intros tbl; [done|].
  simpl. etrans; [apply (upserts_prefix tbl x)|apply IH].
Qed.

Lemma fold_upserts_elem l tbl x k :
  x ∈ l -> fk x = Some k -> k ∈ key <$> fold_left f l tbl.
Proof.
  revert tbl. induction l as [|y l IH]; intros tbl Hin Hk; [by inv Hin|].
  simpl. apply elem_of_cons in Hin as [->|Hin]; [|by apply IH].
  destruct (fold_upserts_prefix l (f tbl y)) as [rest ->].
  apply elem_of_app. left. by apply upserts_elem.
Qed.

Lemma fold_upserts_present l tbl :
  (forall x k, x ∈ l -> fk x = Some k -> k ∈ key <$> tbl) ->
  key <$> fold_left f l tbl = key <$> tbl.
Proof.
  revert tbl. induction l as [|x l IH]; intros tbl Hin; [done|].
  simpl. assert (Hx : key <$> f tbl x = key <$> tbl).
  { apply upserts_present. intros k. apply Hin. by left. }
  rewrite IH, Hx; [done|]. intros y k Hy Hk. rewrite Hx. apply (Hin y); [by right|done].
Qed.

Lemma fold_upserts_NoDup l tbl : NoDup (key <$> tbl) -> NoDup (key <$> fold_left f l tbl).
Proof.
  revert tbl. induction l as [|x l IH]; intros tbl Hnd; [done|].
  simpl. by apply IH, upserts_NoDup.
Qed.

(** How often a list of operations upserts a key. *)
Definition occurrences (k : K) (l : list T) : Z :=
  Z.of_nat (length (filter (fun x => fk x = Some k) l)).

Lemma fold_upserts_total l tbl k :
  Rows.total key cnt k (fold_left f l tbl) = Rows.total key cnt k tbl + occurrences k l.
Proof.
  unfold occurrences. revert tbl. induction l as [|x l IH]; intros tbl; simpl; [lia|].
  rewrite IH, upserts_total, filter_cons. case_decide; simpl; lia.
Qed.

End UpsertFold.

(** ** What one record and one batch do to the store *)

Section Ingest.
Import Collector Rows.

(** The store after the loop body ran on one record, whether the body
    returned or threw. *)
Definition step (now : timestamp) (e : entry) (s : store) : store :=
  snd (processEntry now e s).

Definition ingest (now : timestamp) (entries : list entry) (s : store) : store :=
  fold_left (fun s e => step now e s) entries s.

(** The value observation one value of a record leads to. *)
Definition observe (entityId : Z) (functionName : option string) (context : string)
    (lineNumber columnNumber : option Z) (now : timestamp)
    (tbl : list value_observation_row) (x : observed) : list value_observation_row :=
  match fst x with
  | None | Some JNull => tbl
  | Some value =>
      let literalValue := serializeLiteralValue value (getValueType value) in
      upsertValueObservation entityId (getValueType value) literalValue (hashValue literalValue)
        (enhancedContext functionName context)
        (sourceLocationStr (snd x) lineNumber columnNumber) now tbl
  end.

Definition literal_store (entityId : Z) (value : json) (sourceLocation functionName : option string)
    (context : string) (now : timestamp) (s : store) : store :=
  snd (processLiteralValue entityId value sourceLocation functionName context now s).

Lemma processLiteralValue_returns eid value loc fn ctx now s :
  processLiteralValue eid value loc fn ctx now s
  = (Some tt, literal_store eid value loc fn ctx now s).
Proof.
  unfold literal_store, processLiteralValue, mbind, M_bind, modify, when.
  destruct value as [| | |str|items|fields]; try reflexivity.
  - cbn [getValueType String.eqb Ascii.eqb Bool.eqb]. by destruct (isEnumCandidateString str).
  - cbn [getValueType String.eqb Ascii.eqb Bool.eqb].
    by destruct (analyzeObjectShape (JObj fields)).
Qed.

Lemma literal_store_entities eid value loc fn ctx now s :
  entities (literal_store eid value loc fn ctx now s) = entities s.
Proof.
  unfold literal_store, processLiteralValue, mbind, M_bind, modify, when.
  destruct value as [| | |str|items|fields]; try reflexivity.
  - cbn [getValueType String.eqb Ascii.eqb Bool.eqb]. by destruct (isEnumCandidateString str).
  - cbn [getValueType String.eqb Ascii.eqb Bool.eqb].
    by destruct (analyzeObjectShape (JObj fields)).
Qed.

Lemma literal_store_hof eid value loc fn ctx now s :
  hof_relationships (literal_store eid value loc fn ctx now s) = hof_relationships s.
Proof.
  unfold literal_store, processLiteralValue, mbind, M_bind, modify, when.
  destruct value as [| | |str|items|fields]; try reflexivity.
  - cbn [getValueType String.eqb Ascii.eqb Bool.eqb]. by destruct (isEnumCandidateString str).
  - cbn [getValueType String.eqb Ascii.eqb Bool.eqb].
    by destruct (analyzeObjectShape (JObj fields)).
Qed.

Lemma literal_store_value_observations eid value loc fn ctx now s :
  value_observations (literal_store eid value loc fn ctx now s)
  = upsertValueObservation eid (getValueType value)
      (serializeLiteralValue value (getValueType value))
      (hashValue (serializeLiteralValue value (getValueType value)))
      (enhancedContext fn ctx) loc now (value_observations s).
Proof.
  unfold literal_store, processLiteralValue, mbind, M_bind, modify, when.
  destruct value as [| | |str|items|fields]; try reflexivity.
  - cbn [getValueType String.eqb Ascii.eqb Bool.eqb]. by destruct (isEnumCandidateString str).
  - cbn [getValueType String.eqb Ascii.eqb Bool.eqb].
    by destruct (analyzeObjectShape (JObj fields)).
Qed.

Lemma for_each_returns {A : Type} (f : A -> M unit) (g : A -> store -> store)
    (l : list A) (s : store) :
  (forall x s, f x s = (Some tt, g x s)) ->
  for_each f l s = (Some tt, fold_left (fun s x => g x s) l s).
Proof.
  intros Hf. revert s. induction l as [|x l IH]; intros s; [done|].
  simpl. unfold mbind, M_bind. by rewrite Hf, IH.
Qed.

Lemma fold_left_proj {A T : Type} (pr : store -> T) (g : A -> store -> store)
    (h : T -> A -> T) (l : list A) (s : store) :
  (forall x s, pr (g x s) = h (pr s) x) ->
  pr (fold_left (fun s x => g x s) l s) = fold_left h l (pr s).
Proof.
  intros Hg. revert s. induction l as [|x l IH]; intros s; [done|].
  simpl. by rewrite IH, Hg.
Qed.

(** The loop over the value list, as a function on the store. *)
Definition value_store (entityId : Z) (functionName : option string) (context : string)
    (lineNumber columnNumber : option Z) (now : timestamp) (x : observed) (s : store) : store :=
  match fst x with
  | None | Some JNull => s
  | Some value =>
      literal_store entityId value (sourceLocationStr (snd x) lineNumber columnNumber)
                    functionName context now s
  end.

(** The fields of the metadata as the loop body reads them. *)
Definition md_of (e : entry) : metadata :=
  match entry_metadata e with Some md => md | None => no_metadata end.

Definition fn_of (e : entry) : option string := str_or_null (functionName (md_of e)).
Definition line_of (e : entry) : option Z := num_or_null (lineNumber (md_of e)).
Definition column_of (e : entry) : option Z := num_or_null (columnNumber (md_of e)).
Definition context_of (e : entry) : string :=
  match str_or_null (context (md_of e)) with Some c => c | None => "unknown" end.

Definition updates_entity (e : entry) : bool :=
  bool_decide (is_Some (fn_of e)) || bool_decide (is_Some (line_of e)).

(** The store when the loop over the value list starts, or when the
    record is abandoned before it. *)
Definition head_store (now : timestamp) (e : entry) (file : string) (s : store) : store :=
  let '(entityId, tbl) := upsertEntity file (offset e) now (entities s) in
  let s1 := on_entities (fun _ => tbl) s in
  let s2 := if updates_entity e
            then on_entities (updateEntity (fn_of e) (line_of e) (column_of e) (context_of e)
                                           entityId) s1
            else s1 in
  match str_or_null (calleeName (md_of e)), calleeArgIndex (md_of e) with
  | Some callee, Some (Some argIndex) =>
      on_hof_relationships (upsertHofRelationship entityId callee argIndex file now) s2
  | _, _ => s2
  end.

(** The record is abandoned before the loop over its value list: it names
    a callee and its argument index is [null]. *)
Definition hof_throws (e : entry) : bool :=
  match str_or_null (calleeName (md_of e)), calleeArgIndex (md_of e) with
  | Some _, Some None => true
  | _, _ => false
  end.

Definition entity_id_of (now : timestamp) (e : entry) (file : string) (s : store) : Z :=
  fst (upsertEntity file (offset e) now (entities s)).

Lemma processEntry_unfold now e s :
  processEntry now e s =
  match str_or_null (filename e) with
  | None => (Some Skipped, s)
  | Some file =>
      if hof_throws e then (None, head_store now e file s)
      else
        match types e with
        | None => (None, head_store now e file s)
        | Some values =>
            (Some Processed,
             fold_left (fun st x => value_store (entity_id_of now e file s) (fn_of e) (context_of e)
                                                (line_of e) (column_of e) now x st)
                       values (head_store now e file s))
        end
  end.
Proof.
  unfold processEntry. destruct (str_or_null (filename e)) as [file|]; [|done].
  fold (md_of e). fold (fn_of e) (line_of e) (column_of e) (context_of e) (updates_entity e).
  unfold mbind, M_bind, upsertEntity_get, head_store, entity_id_of.
  destruct (upsertEntity file (offset e) now (entities s)) as [entityId tbl] eqn:Hup.
  cbn [fst snd].
  set (s1 := on_entities (fun _ => tbl) s).
  assert (Hwhen : forall (b : bool) (f : store -> store),
             when b (modify f) s1 = (Some tt, if b then f s1 else s1)) by (by intros []).
  rewrite Hwhen. clear Hwhen.
  set (s2 := if updates_entity e then _ else s1).
  set (s3 := match str_or_null (calleeName (md_of e)) with Some _ => _ | None => s2 end).
  assert (Hhof : match str_or_null (calleeName (md_of e)), calleeArgIndex (md_of e) with
                 | Some callee, Some (Some argIndex) =>
                     modify (on_hof_relationships
                               (upsertHofRelationship entityId callee argIndex file now))
                 | Some callee, Some None => throw
                 | _, _ => mret tt
                 end s2 = (if hof_throws e then None else Some tt, s3)).
  { subst s3. unfold hof_throws.
    by destruct (str_or_null (calleeName (md_of e))), (calleeArgIndex (md_of e)) as [[]|]. }
  rewrite Hhof. clear Hhof.
  destruct (hof_throws e); [done|].
  destruct (types e) as [values|]; [|done].
  cbn [iterate mret M_ret].
  erewrite (for_each_returns _ (value_store entityId (fn_of e) (context_of e) (line_of e)
                                            (column_of e) now)); [done|].
  intros [raw loc] st. unfold value_store. cbn [fst snd].
  destruct raw as [[]|]; try done; apply processLiteralValue_returns.
Qed.

Lemma processBatch_returns now entries s :
  processBatch now entries s = (Some tt, ingest now entries s).
Proof.
  unfold processBatch, ingest.
  apply (for_each_returns _ (fun e s => step now e s)).
  intros e st. unfold try_catch, step, mbind, M_bind.
  by destruct (processEntry now e st) as [[[]|] st'].
Qed.

(** A batch always commits: no record can make the transaction fail. *)
Lemma processTypeData_commits now entries s :
  processTypeData now entries s = Committed (ingest now entries s).
Proof. unfold processTypeData, transaction. by rewrite processBatch_returns. Qed.

Lemma ingest_cons now e entries s :
  ingest now (e :: entries) s = ingest now entries (step now e s).
Proof. done. Qed.

Lemma ingest_app now es1 es2 s :
  ingest now (es1 ++ es2) s = ingest now es2 (ingest now es1 s).
Proof. unfold ingest. by rewrite fold_left_app. Qed.

Lemma head_store_value_observations now e file s :
  value_observations (head_store now e file s) = value_observations s.
Proof.
  unfold head_store. destruct (upsertEntity _ _ _ _) as [id tbl].
  by destruct (updates_entity e), (str_or_null (calleeName (md_of e))),
              (calleeArgIndex (md_of e)) as [[]|].
Qed.

Lemma head_store_entities now e file s :
  entities (head_store now e file s)
  = let tbl := snd (upsertEntity file (offset e) now (entities s)) in
    if updates_entity e
    then updateEntity (fn_of e) (line_of e) (column_of e) (context_of e)
                      (entity_id_of now e file s) tbl
    else tbl.
Proof.
  unfold head_store, entity_id_of. destruct (upsertEntity _ _ _ _) as [id tbl].
  by destruct (updates_entity e), (str_or_null (calleeName (md_of e))),
              (calleeArgIndex (md_of e)) as [[]|].
Qed.

Lemma value_store_entities eid fn ctx ln cn now x s :
  entities (value_store eid fn ctx ln cn now x s) = entities s.
Proof.
  unfold value_store. destruct (fst x) as [[]|]; try done; apply literal_store_entities.
Qed.

Lemma value_store_value_observations eid fn ctx ln cn now x s :
  value_observations (value_store eid fn ctx ln cn now x s)
  = observe eid fn ctx ln cn now (value_observations s) x.
Proof.
  unfold value_store, observe.
  destruct (fst x) as [[]|]; try done; apply literal_store_value_observations.
Qed.

Lemma step_entities now e s :
  entities (step now e s)
  = match str_or_null (filename e) with
    | None => entities s
    | Some file => entities (head_store now e file s)
    end.
Proof.
  unfold step. rewrite processEntry_unfold.
  destruct (str_or_null (filename e)) as [file|]; [|done].
  destruct (hof_throws e); [done|].
  destruct (types e) as [values|]; [|done]. cbn [snd].
  rewrite (fold_left_proj entities _ (fun t _ => t)).
  - by induction values.
  - intros. apply value_store_entities.
Qed.

Lemma step_value_observations now e s :
  value_observations (step now e s)
  = match str_or_null (filename e), types e with
    | Some file, Some values =>
        if hof_throws e then value_observations s
        else fold_left (observe (entity_id_of now e file s) (fn_of e) (context_of e)
                                (line_of e) (column_of e) now)
                       values (value_observations s)
    | _, _ => value_observations s
    end.
Proof.
  unfold step. rewrite processEntry_unfold.
  destruct (str_or_null (filename e)) as [file|]; [|done].
  destruct (hof_throws e);
    [destruct (types e); apply head_store_value_observations|].
  destruct (types e) as [values|]; cbn [snd].
  - rewrite (fold_left_proj value_observations _
               (observe (entity_id_of now e file s) (fn_of e) (context_of e)
                        (line_of e) (column_of e) now)).
    + by rewrite head_store_value_observations.
    + intros. apply value_store_value_observations.
  - apply head_store_value_observations.
Qed.

(** *** The four dependent tables, as folds of upserts *)

Definition eid_of (now : timestamp) (e : entry) (s : store) : Z :=
  match str_or_null (filename e) with
  | Some file => entity_id_of now e file s
  | None => 0
  end.

(** The values the loop of a record runs over: none when the record is
    skipped or abandoned before the loop. *)
Definition values_of (e : entry) : list observed :=
  match str_or_null (filename e), types e with
  | Some _, Some values => if hof_throws e then [] else values
  | _, _ => []
  end.

Definition hof_ops (e : entry) : list (string * Z * string) :=
  match str_or_null (filename e), str_or_null (calleeName (md_of e)), calleeArgIndex (md_of e) with
  | Some file, Some callee, Some (Some argIndex) => [(callee, argIndex, file)]
  | _, _, _ => []
  end.

Definition sl_observe (entityId : Z) (now : timestamp)
    (tbl : list string_literal_row) (x : observed) : list string_literal_row :=
  match fst x with
  | Some (JStr str) =>
      if isEnumCandidateString str then upsertStringLiteral entityId str "parameter" now tbl
      else tbl
  | _ => tbl
  end.

Definition os_observe (entityId : Z) (now : timestamp)
    (tbl : list object_shape_row) (x : observed) : list object_shape_row :=
  match fst x with
  | Some (JObj fields) =>
      match analyzeObjectShape (JObj fields) with
      | Some sh => upsertObjectShape entityId sh now tbl
      | None => tbl
      end
  | _ => tbl
  end.

Definition hof_observe (entityId : Z) (now : timestamp)
    (tbl : list hof_relationship_row) (x : string * Z * string) : list hof_relationship_row :=
  upsertHofRelationship entityId (fst (fst x)) (snd (fst x)) (snd x) now tbl.

(** The keys these operations upsert. *)
Definition vo_op_key (entityId : Z) (fn : option string) (ctx : string) (x : observed)
    : option vo_key_t :=
  match fst x with
  | None | Some JNull => None
  | Some value =>
      Some (entityId, hashValue (serializeLiteralValue value (getValueType value)),
            enhancedContext fn ctx)
  end.

Definition sl_op_key (entityId : Z) (x : observed) : option (Z * string * string) :=
  match fst x with
  | Some (JStr str) => if isEnumCandidateString str then Some (entityId, str, "parameter") else None
  | _ => None
  end.

Definition os_op_key (entityId : Z) (x : observed) : option (Z * string) :=
  match fst x with
  | Some (JObj fields) =>
      match analyzeObjectShape (JObj fields) with
      | Some sh => Some (entityId, signature sh)
      | None => None
      end
  | _ => None
  end.

Definition hof_op_key (entityId : Z) (x : string * Z * string) : option (Z * string * Z) :=
  Some (entityId, fst (fst x), snd (fst x)).

Lemma vo_hit_key eid h c r : vo_hit eid h c r = bool_decide (vo_key r = (eid, h, c)).
Proof.
  unfold vo_hit, vo_key.
  destruct (Z.eqb_spec (vo_entity_id r) eid), (String.eqb_spec (vo_value_hash r) h),
           (String.eqb_spec (vo_context r) c); simpl; case_bool_decide; congruence.
Qed.

Lemma sl_hit_key eid v c r : sl_hit eid v c r = bool_decide (sl_key r = (eid, v, c)).
Proof.
  unfold sl_hit, sl_key.
  destruct (Z.eqb_spec (sl_entity_id r) eid), (String.eqb_spec (sl_string_value r) v),
           (String.eqb_spec (sl_context r) c); simpl; case_bool_decide; congruence.
Qed.

Lemma os_hit_key eid sg r : os_hit eid sg r = bool_decide (os_key r = (eid, sg)).
Proof.
  unfold os_hit, os_key.
  destruct (Z.eqb_spec (os_entity_id r) eid), (String.eqb_spec (os_shape_signature r) sg);
    simpl; case_bool_decide; congruence.
Qed.

Lemma hof_hit_key eid c a r : hof_hit eid c a r = bool_decide (hof_key r = (eid, c, a)).
Proof.
  unfold hof_hit, hof_key.
  destruct (Z.eqb_spec (hof_callback_entity_id r) eid), (String.eqb_spec (hof_callee_name r) c),
           (Z.eqb_spec (hof_callee_arg_index r) a); simpl; case_bool_decide; congruence.
Qed.

Lemma entity_hit_key f o r : entity_hit f o r = bool_decide (e_key r = (f, o)).
Proof.
  unfold entity_hit, e_key.
  destruct (String.eqb_spec (e_filename r) f), (Z.eqb_spec (e_offset_position r) o);
    simpl; case_bool_decide; congruence.
Qed.

Lemma observe_upserts eid fn ctx ln cn now :
  upserts vo_key vo_observation_count (vo_op_key eid fn ctx) (observe eid fn ctx ln cn now).
Proof.
  intros x tbl. unfold vo_op_key, observe.
  destruct (fst x) as [v|]; [|done].
  destruct v; try done;
    (eexists _, _, _; split; [reflexivity|]; split; [apply vo_hit_key|]; done).
Qed.

Lemma sl_observe_upserts eid now :
  upserts sl_key sl_observation_count (sl_op_key eid) (sl_observe eid now).
Proof.
  intros x tbl. unfold sl_op_key, sl_observe.
  destruct (fst x) as [[| | |str| |]|]; try done.
  destruct (isEnumCandidateString str); [|done].
  eexists _, _, _; split; [reflexivity|]; split; [apply sl_hit_key|]; done.
Qed.

Lemma os_observe_upserts eid now :
  upserts os_key os_observation_count (os_op_key eid) (os_observe eid now).
Proof.
  intros x tbl. unfold os_op_key, os_observe.
  destruct (fst x) as [[| | | | |fields]|]; try done.
  destruct (analyzeObjectShape (JObj fields)); [|done].
  eexists _, _, _; split; [reflexivity|]; split; [apply os_hit_key|]; done.
Qed.

Lemma hof_observe_upserts eid now :
  upserts hof_key hof_observation_count (hof_op_key eid) (hof_observe eid now).
Proof.
  intros x tbl. unfold hof_op_key, hof_observe.
  eexists _, _, _; split; [reflexivity|]; split; [apply hof_hit_key|]; done.
Qed.

Ltac literal_cases value :=
  unfold literal_store, processLiteralValue, mbind, M_bind, modify, when;
  destruct value as [| | |?str|?items|?fields]; try reflexivity;
  cbn [getValueType String.eqb Ascii.eqb Bool.eqb fst snd];
  [ by destruct (isEnumCandidateString str)
  | by destruct (analyzeObjectShape (JObj fields)) ].

Lemma literal_store_string_literals eid value loc fn ctx now s :
  string_literals (literal_store eid value loc fn ctx now s)
  = sl_observe eid now (string_literals s) (Some value, None).
Proof. unfold sl_observe. literal_cases value. Qed.

Lemma literal_store_object_shapes eid value loc fn ctx now s :
  object_shapes (literal_store eid value loc fn ctx now s)
  = os_observe eid now (object_shapes s) (Some value, None).
Proof. unfold os_observe. literal_cases value. Qed.

Lemma head_store_string_literals now e file s :
  string_literals (head_store now e file s) = string_literals s.
Proof.
  unfold head_store. destruct (upsertEntity _ _ _ _) as [id tbl].
  by destruct (updates_entity e), (str_or_null (calleeName (md_of e))),
              (calleeArgIndex (md_of e)) as [[]|].
Qed.

Lemma head_store_object_shapes now e file s :
  object_shapes (head_store now e file s) = object_shapes s.
Proof.
  unfold head_store. destruct (upsertEntity _ _ _ _) as [id tbl].
  by destruct (updates_entity e), (str_or_null (calleeName (md_of e))),
              (calleeArgIndex (md_of e)) as [[]|].
Qed.

Lemma head_store_hof now e file s :
  str_or_null (filename e) = Some file ->
  hof_relationships (head_store now e file s)
  = fold_left (hof_observe (entity_id_of now e file s) now) (hof_ops e) (hof_relationships s).
Proof.
  intros Hfile. unfold head_store, hof_ops, entity_id_of. rewrite Hfile.
  destruct (upsertEntity _ _ _ _) as [id tbl].
  by destruct (updates_entity e), (str_or_null (calleeName (md_of e))),
              (calleeArgIndex (md_of e)) as [[]|].
Qed.

Lemma value_store_string_literals eid fn ctx ln cn now x s :
  string_literals (value_store eid fn ctx ln cn now x s) = sl_observe eid now (string_literals s) x.
Proof.
  unfold value_store. destruct x as [[v|] loc]; [|done]. cbn [fst snd].
  destruct v; try done; apply literal_store_string_literals.
Qed.

Lemma value_store_object_shapes eid fn ctx ln cn now x s :
  object_shapes (value_store eid fn ctx ln cn now x s) = os_observe eid now (object_shapes s) x.
Proof.
  unfold value_store. destruct x as [[v|] loc]; [|done]. cbn [fst snd].
  destruct v; try done; apply literal_store_object_shapes.
Qed.

Lemma value_store_hof eid fn ctx ln cn now x s :
  hof_relationships (value_store eid fn ctx ln cn now x s) = hof_relationships s.
Proof.
  unfold value_store. destruct (fst x) as [[]|]; try done; apply literal_store_hof.
Qed.

(** One record, table by table. *)
Lemma step_vo now e s :
  value_observations (step now e s)
  = fold_left (observe (eid_of now e s) (fn_of e) (context_of e) (line_of e) (column_of e) now)
              (values_of e) (value_observations s).
Proof.
  rewrite step_value_observations. unfold values_of, eid_of.
  by destruct (str_or_null (filename e)), (types e), (hof_throws e).
Qed.

Lemma step_sl now e s :
  string_literals (step now e s)
  = fold_left (sl_observe (eid_of now e s) now) (values_of e) (string_literals s).
Proof.
  unfold step, values_of, eid_of. rewrite processEntry_unfold.
  destruct (str_or_null (filename e)) as [file|]; [|done].
  destruct (hof_throws e); [destruct (types e); apply head_store_string_literals|].
  destruct (types e) as [values|]; cbn [snd]; [|apply head_store_string_literals].
  rewrite (fold_left_proj string_literals _ (sl_observe (entity_id_of now e file s) now)).
  - by rewrite head_store_string_literals.
  - intros. apply value_store_string_literals.
Qed.

Lemma step_os now e s :
  object_shapes (step now e s)
  = fold_left (os_observe (eid_of now e s) now) (values_of e) (object_shapes s).
Proof.
  unfold step, values_of, eid_of. rewrite processEntry_unfold.
  destruct (str_or_null (filename e)) as [file|]; [|done].
  destruct (hof_throws e); [destruct (types e); apply head_store_object_shapes|].
  destruct (types e) as [values|]; cbn [snd]; [|apply head_store_object_shapes].
  rewrite (fold_left_proj object_shapes _ (os_observe (entity_id_of now e file s) now)).
  - by rewrite head_store_object_shapes.
  - intros. apply value_store_object_shapes.
Qed.

Lemma step_hof now e s :
  hof_relationships (step now e s)
  = fold_left (hof_observe (eid_of now e s) now) (hof_ops e) (hof_relationships s).
Proof.
  unfold step, eid_of. rewrite processEntry_unfold.
  destruct (str_or_null (filename e)) as [file|] eqn:Hfile;
    [|by unfold hof_ops; rewrite Hfile].
  destruct (hof_throws e); [by apply head_store_hof|].
  destruct (types e) as [values|]; cbn [snd]; [|by apply head_store_hof].
  rewrite (fold_left_proj hof_relationships _ (fun t _ => t)).
  - rewrite <- (head_store_hof now e file s Hfile). by induction values.
  - intros. apply value_store_hof.
Qed.

(** *** The entity table *)

Definition entity_op_key (e : entry) : option entity_key :=
  match str_or_null (filename e) with
  | Some file => Some (file, offset e)
  | None => None
  end.

(** The id stored with the first row that holds a key. *)
Fixpoint first_id (k : entity_key) (l : list (entity_key * Z)) : option Z :=
  match l with
  | [] => None
  | (k', i) :: t => if decide (k' = k) then Some i else first_id k t
  end.

Lemma first_id_app k l l' i : first_id k l = Some i -> first_id k (l ++ l') = Some i.
Proof.
  induction l as [|[k' j] l IH]; [done|]. simpl. by case_decide.
Qed.

Lemma first_id_elem k l i : first_id k l = Some i -> k ∈ l.*1.
Proof.
  induction l as [|[k' j] l IH]; [done|]. simpl. case_decide; intros Hi.
  - subst. by left.
  - right. by apply IH.
Qed.

Lemma find_first_id file pos tbl :
  e_id <$> List.find (entity_hit file pos) tbl = first_id (file, pos) (e_ident <$> tbl).
Proof.
  induction tbl as [|r t IH]; [done|]. simpl.
  rewrite entity_hit_key. unfold e_ident at 1.
  case_bool_decide; case_decide; try done.
Qed.

Lemma upsert_first_id file pos now fresh tbl :
  e_key fresh = (file, pos) ->
  first_id (file, pos)
           (e_ident <$> upsert (entity_hit file pos) (entity_bump now) fresh tbl)
  = Some (match List.find (entity_hit file pos) tbl with
          | Some r => e_id r
          | None => e_id fresh
          end).
Proof.
  intros Hfresh. induction tbl as [|r t IH]; simpl.
  - unfold e_ident. rewrite Hfresh. by case_decide.
  - rewrite entity_hit_key. case_bool_decide as Hr; simpl.
    + unfold e_ident, e_key in *. simpl. by case_decide.
    + unfold e_ident at 1. by case_decide.
Qed.

Lemma upsertEntity_first_id file pos now tbl :
  first_id (file, pos) (e_ident <$> snd (upsertEntity file pos now tbl))
  = Some (fst (upsertEntity file pos now tbl)).
Proof. unfold upsertEntity. cbn [fst snd]. by apply upsert_first_id. Qed.

Lemma upsertEntity_by_first_id file pos now tbl i :
  first_id (file, pos) (e_ident <$> tbl) = Some i -> fst (upsertEntity file pos now tbl) = i.
Proof.
  unfold upsertEntity. cbn [fst]. rewrite <- find_first_id.
  destruct (List.find _ tbl); simpl; congruence.
Qed.

Lemma updateEntity_ident fn ln cn ctx id tbl :
  e_ident <$> updateEntity fn ln cn ctx id tbl = e_ident <$> tbl.
Proof.
  unfold updateEntity. change (map ?f ?l) with (f <$> l).
  rewrite <- list_fmap_compose. apply list_fmap_ext. intros i r _. simpl.
  by destruct (e_id r =? id).
Qed.

Lemma updateEntity_total fn ln cn ctx id k tbl :
  total e_key e_observation_count k (updateEntity fn ln cn ctx id tbl)
  = total e_key e_observation_count k tbl.
Proof.
  induction tbl as [|r t IH]; [done|]. simpl. rewrite IH.
  by destruct (e_id r =? id).
Qed.

Lemma ident_keys (tbl : list entity_row) : (e_ident <$> tbl).*1 = e_key <$> tbl.
Proof. by rewrite <- list_fmap_compose. Qed.

(** The entity rows after one record: the upsert, then the update that
    touches neither key nor id nor counter. *)
Lemma step_idents now e s :
  e_ident <$> entities (step now e s)
  = match entity_op_key e with
    | Some (file, pos) =>
        e_ident <$> snd (upsertEntity file pos now (entities s))
    | None => e_ident <$> entities s
    end.
Proof.
  rewrite step_entities. unfold entity_op_key.
  destruct (str_or_null (filename e)) as [file|]; [|done].
  rewrite head_store_entities. cbv zeta.
  destruct (updates_entity e); [apply updateEntity_ident|done].
Qed.

Lemma step_entity_total now e s k :
  entity_count k (step now e s)
  = entity_count k s + (if decide (entity_op_key e = Some k) then 1 else 0).
Proof.
  unfold entity_count. rewrite step_entities. unfold entity_op_key.
  destruct (str_or_null (filename e)) as [file|]; [|case_decide; [done|lia]].
  rewrite head_store_entities. cbv zeta.
  assert (Hup : total e_key e_observation_count k
                      (snd (upsertEntity file (offset e) now (entities s)))
                = total e_key e_observation_count k (entities s)
                  + (if decide ((file, offset e) = k) then 1 else 0)).
  { unfold upsertEntity. cbn [snd].
    apply (upsert_total e_key e_observation_count); try done. apply entity_hit_key. }
  destruct (updates_entity e); rewrite ?updateEntity_total, Hup;
    repeat case_decide; simplify_eq; lia.
Qed.

Lemma step_idents_prefix now e s :
  (e_ident <$> entities s) `prefix_of` (e_ident <$> entities (step now e s)).
Proof.
  rewrite step_idents. destruct (entity_op_key e) as [[file pos]|]; [|done].
  unfold upsertEntity. cbn [snd].
  apply (upsert_proj_prefix e_key e_ident _ _ _ (file, pos)); try done. apply entity_hit_key.
Qed.

Lemma step_idents_present now e s :
  (forall k, entity_op_key e = Some k -> k ∈ e_key <$> entities s) ->
  e_ident <$> entities (step now e s) = e_ident <$> entities s.
Proof.
  intros Hin. rewrite step_idents. destruct (entity_op_key e) as [[file pos]|]; [|done].
  unfold upsertEntity. cbn [snd].
  apply (upsert_proj_present e_key e_ident _ _ _ (file, pos)); try done; [apply entity_hit_key|].
  by apply Hin.
Qed.

Lemma step_first_id now e s file :
  str_or_null (filename e) = Some file ->
  first_id (file, offset e) (e_ident <$> entities (step now e s)) = Some (eid_of now e s).
Proof.
  intros Hfile. rewrite step_idents. unfold entity_op_key, eid_of, entity_id_of.
  rewrite Hfile. apply upsertEntity_first_id.
Qed.

Lemma eid_of_by_first_id now e s file i :
  str_or_null (filename e) = Some file ->
  first_id (file, offset e) (e_ident <$> entities s) = Some i ->
  eid_of now e s = i.
Proof.
  intros Hfile Hi. unfold eid_of, entity_id_of. rewrite Hfile.
  by apply upsertEntity_by_first_id.
Qed.

(** *** Replaying a batch *)

(** Every row of [a] is a row of [b]: the entities of [a] are the first
    entities of [b], with the same ids. *)
Definition keys_within (a b : store) : Prop :=
  (e_ident <$> entities a) `prefix_of` (e_ident <$> entities b)
  /\ (vo_key <$> value_observations a) ⊆ (vo_key <$> value_observations b)
  /\ (sl_key <$> string_literals a) ⊆ (sl_key <$> string_literals b)
  /\ (os_key <$> object_shapes a) ⊆ (os_key <$> object_shapes b)
  /\ (hof_key <$> hof_relationships a) ⊆ (hof_key <$> hof_relationships b).

(** [b'] has the rows of [b], in the same order: none added, none removed. *)
Definition same_rows (b b' : store) : Prop :=
  e_ident <$> entities b' = e_ident <$> entities b
  /\ vo_key <$> value_observations b' = vo_key <$> value_observations b
  /\ sl_key <$> string_literals b' = sl_key <$> string_literals b
  /\ os_key <$> object_shapes b' = os_key <$> object_shapes b
  /\ hof_key <$> hof_relationships b' = hof_key <$> hof_relationships b.

(** From [b] to [b'] every counter grows as it does from [a] to [a']. *)
Definition same_increase (a a' b b' : store) : Prop :=
  (forall k, entity_count k b' - entity_count k b = entity_count k a' - entity_count k a)
  /\ (forall k, vo_count k b' - vo_count k b = vo_count k a' - vo_count k a)
  /\ (forall k, sl_count k b' - sl_count k b = sl_count k a' - sl_count k a)
  /\ (forall k, os_count k b' - os_count k b = os_count k a' - os_count k a)
  /\ (forall k, hof_count k b' - hof_count k b = hof_count k a' - hof_count k a).

Lemma prefix_subseteq {A : Type} (l1 l2 : list A) : l1 `prefix_of` l2 -> l1 ⊆ l2.
Proof. intros [k ->] x Hx. apply elem_of_app. by left. Qed.

Lemma step_within now e s : keys_within s (step now e s).
Proof.
  repeat split.
  - apply step_idents_prefix.
  - rewrite step_vo. eapply prefix_subseteq, fold_upserts_prefix, observe_upserts.
  - rewrite step_sl. eapply prefix_subseteq, fold_upserts_prefix, sl_observe_upserts.
  - rewrite step_os. eapply prefix_subseteq, fold_upserts_prefix, os_observe_upserts.
  - rewrite step_hof. eapply prefix_subseteq, fold_upserts_prefix, hof_observe_upserts.
Qed.

Lemma keys_within_refl s : keys_within s s.
Proof. by repeat split. Qed.

Lemma keys_within_trans a b c : keys_within a b -> keys_within b c -> keys_within a c.
Proof.
  intros (? & ? & ? & ? & ?) (? & ? & ? & ? & ?).
  repeat split; by etrans.
Qed.

Lemma ingest_within now es s : keys_within s (ingest now es s).
Proof.
  revert s. induction es as [|e es IH]; intros s; [apply keys_within_refl|].
  rewrite ingest_cons. eapply keys_within_trans; [apply step_within|apply IH].
Qed.

(** The record that ran on [a] runs on a store that already holds its
    rows: it finds the same entity, adds no row, and bumps the same
    counters. *)
Lemma step_replay now now' e a b :
  keys_within (step now e a) b ->
  same_rows b (step now' e b) /\ same_increase a (step now e a) b (step now' e b).
Proof.
  intros (HE & HV & HS & HO & HH).
  assert (Hkey : forall file, str_or_null (filename e) = Some file ->
                   first_id (file, offset e) (e_ident <$> entities b) = Some (eid_of now e a)).
  { intros file Hfile. destruct HE as [rest ->].
    by apply first_id_app, step_first_id. }
  assert (Heid : eid_of now' e b = eid_of now e a).
  { destruct (str_or_null (filename e)) as [file|] eqn:Hfile.
    - by apply (eid_of_by_first_id _ _ _ file), Hkey.
    - unfold eid_of. by rewrite Hfile. }
  split.
  - repeat split.
    + apply step_idents_present. intros [file pos] Hk. unfold entity_op_key in Hk.
      destruct (str_or_null (filename e)) as [file'|] eqn:Hfile; [|done].
      inv Hk. rewrite <- ident_keys. eapply first_id_elem, Hkey. done.
    + rewrite step_vo, Heid.
      eapply fold_upserts_present; [apply observe_upserts|].
      intros x k Hx Hk. apply HV. rewrite step_vo.
      eapply fold_upserts_elem; [apply observe_upserts|done..].
    + rewrite step_sl, Heid.
      eapply fold_upserts_present; [apply sl_observe_upserts|].
      intros x k Hx Hk. apply HS. rewrite step_sl.
      eapply fold_upserts_elem; [apply sl_observe_upserts|done..].
    + rewrite step_os, Heid.
      eapply fold_upserts_present; [apply os_observe_upserts|].
      intros x k Hx Hk. apply HO. rewrite step_os.
      eapply fold_upserts_elem; [apply os_observe_upserts|done..].
    + rewrite step_hof, Heid.
      eapply fold_upserts_present; [apply hof_observe_upserts|].
      intros x k Hx Hk. apply HH. rewrite step_hof.
      eapply fold_upserts_elem; [apply hof_observe_upserts|done..].
  - repeat split; intros k.
    + rewrite !step_entity_total. lia.
    + unfold vo_count. rewrite !step_vo, Heid.
      rewrite !(fold_upserts_total vo_key vo_observation_count _ _ (observe_upserts _ _ _ _ _ _)).
      lia.
    + unfold sl_count. rewrite !step_sl, Heid.
      rewrite !(fold_upserts_total sl_key sl_observation_count _ _ (sl_observe_upserts _ _)).
      lia.
    + unfold os_count. rewrite !step_os, Heid.
      rewrite !(fold_upserts_total os_key os_observation_count _ _ (os_observe_upserts _ _)).
      lia.
    + unfold hof_count. rewrite !step_hof, Heid.
      rewrite !(fold_upserts_total hof_key hof_observation_count _ _ (hof_observe_upserts _ _)).
      lia.
Qed.

Lemma same_rows_refl s : same_rows s s.
Proof. by repeat split. Qed.

Lemma same_rows_trans a b c : same_rows a b -> same_rows b c -> same_rows a c.
Proof.
  intros (? & ? & ? & ? & ?) (? & ? & ? & ? & ?). repeat split; by etrans.
Qed.

Lemma same_rows_within b b' : same_rows b b' -> keys_within b b'.
Proof. intros (HE & HV & HS & HO & HH). unfold keys_within. by rewrite HE, HV, HS, HO, HH. Qed.

Lemma same_increase_trans a a' a'' b b' b'' :
  same_increase a a' b b' -> same_increase a' a'' b' b'' -> same_increase a a'' b b''.
Proof.
  intros (H1 & H2 & H3 & H4 & H5) (G1 & G2 & G3 & G4 & G5).
  repeat split; intros k;
    [specialize (H1 k); specialize (G1 k) | specialize (H2 k); specialize (G2 k)
    |specialize (H3 k); specialize (G3 k) | specialize (H4 k); specialize (G4 k)
    |specialize (H5 k); specialize (G5 k)]; lia.
Qed.

Lemma ingest_replay now now' es a b :
  keys_within (ingest now es a) b ->
  same_rows b (ingest now' es b) /\ same_increase a (ingest now es a) b (ingest now' es b).
Proof.
  revert a b. induction es as [|e es IH]; intros a b Hin.
  - split; [apply same_rows_refl|]. repeat split; intros k; unfold ingest; simpl; lia.
  - rewrite !ingest_cons in *.
    destruct (step_replay now now' e a b) as [Hrows Hinc].
    { eapply keys_within_trans; [apply ingest_within|done]. }
    destruct (IH (step now e a) (step now' e b)) as [Hrows' Hinc'].
    { eapply keys_within_trans; [done|by apply same_rows_within]. }
    split; [by eapply same_rows_trans|by eapply same_increase_trans].
Qed.

Lemma replay_cons now later entries s :
  replay (now :: later) entries s = replay later entries (ingest now entries s).
Proof. unfold replay. simpl. by rewrite processTypeData_commits. Qed.

(** After the first ingest, every further ingest of the batch leaves the
    rows as they are and adds to every counter what the first ingest
    added. *)
Lemma replay_from first later entries s0 b :
  same_rows (ingest first entries s0) b ->
  same_rows b (replay later entries b)
  /\ (forall k, entity_count k (replay later entries b) - entity_count k b
               = Z.of_nat (length later)
                 * (entity_count k (ingest first entries s0) - entity_count k s0))
  /\ (forall k, vo_count k (replay later entries b) - vo_count k b
               = Z.of_nat (length later)
                 * (vo_count k (ingest first entries s0) - vo_count k s0))
  /\ (forall k, sl_count k (replay later entries b) - sl_count k b
               = Z.of_nat (length later)
                 * (sl_count k (ingest first entries s0) - sl_count k s0))
  /\ (forall k, os_count k (replay later entries b) - os_count k b
               = Z.of_nat (length later)
                 * (os_count k (ingest first entries s0) - os_count k s0))
  /\ (forall k, hof_count k (replay later entries b) - hof_count k b
               = Z.of_nat (length later)
                 * (hof_count k (ingest first entries s0) - hof_count k s0)).
Proof.
  revert b. induction later as [|now later IH]; intros b Hrows.
  - split; [apply same_rows_refl|]. repeat split; intros k; simpl; lia.
  - rewrite replay_cons.
    destruct (ingest_replay first now entries s0 b) as [Hrows' (G1 & G2 & G3 & G4 & G5)].
    { by apply same_rows_within. }
    destruct (IH (ingest now entries b)) as (Hrows'' & H1 & H2 & H3 & H4 & H5).
    { by eapply same_rows_trans. }
    split; [by eapply same_rows_trans|].
    repeat split; intros k;
      [specialize (H1 k); specialize (G1 k) | specialize (H2 k); specialize (G2 k)
      |specialize (H3 k); specialize (G3 k) | specialize (H4 k); specialize (G4 k)
      |specialize (H5 k); specialize (G5 k)];
      rewrite length_cons, Nat2Z.inj_succ; lia.
Qed.

(** *** Unique keys *)

Definition unique_keys (s : store) : Prop :=
  NoDup (e_key <$> entities s)
  /\ NoDup (vo_key <$> value_observations s)
  /\ NoDup (sl_key <$> string_literals s)
  /\ NoDup (os_key <$> object_shapes s)
  /\ NoDup (hof_key <$> hof_relationships s).

Lemma step_unique now e s : unique_keys s -> unique_keys (step now e s).
Proof.
  intros (HE & HV & HS & HO & HH). repeat split.
  - rewrite <- ident_keys, step_idents. destruct (entity_op_key e) as [[file pos]|].
    + rewrite ident_keys. unfold upsertEntity. cbn [snd].
      apply (upsert_keys_NoDup e_key _ _ _ (file, pos)); try done. apply entity_hit_key.
    + by rewrite ident_keys.
  - rewrite step_vo. eapply fold_upserts_NoDup; [apply observe_upserts|done].
  - rewrite step_sl. eapply fold_upserts_NoDup; [apply sl_observe_upserts|done].
  - rewrite step_os. eapply fold_upserts_NoDup; [apply os_observe_upserts|done].
  - rewrite step_hof. eapply fold_upserts_NoDup; [apply hof_observe_upserts|done].
Qed.

Lemma ingest_unique now es s : unique_keys s -> unique_keys (ingest now es s).
Proof.
  revert s. induction es as [|e es IH]; intros s Hs; [done|].
  rewrite ingest_cons. by apply IH, step_unique.
Qed.

Lemma replay_unique later entries s : unique_keys s -> unique_keys (replay later entries s).
Proof.
  revert s. induction later as [|now later IH]; intros s Hs; [done|].
  rewrite replay_cons. by apply IH, ingest_unique.
Qed.

Lemma empty_unique : unique_keys empty_store.
Proof. repeat split; constructor. Qed.

Lemma total_nonmember {R K : Type} `{EqDecision K} (key : R -> K) (cnt : R -> Z) k tbl :
  k ∉ key <$> tbl -> total key cnt k tbl = 0.
Proof.
  induction tbl as [|r t IH]; [done|]. csimpl. intros Hk.
  apply not_elem_of_cons in Hk as [Hne Hk]. rewrite IH by done.
  case_decide; [congruence|done].
Qed.

(** Under unique keys the total at a key is the counter of its row. *)
Lemma total_unique {R K : Type} `{EqDecision K} (key : R -> K) (cnt : R -> Z) r tbl :
  NoDup (key <$> tbl) -> r ∈ tbl -> total key cnt (key r) tbl = cnt r.
Proof.
  induction tbl as [|r' t IH]; intros Hnd Hin; [by inv Hin|].
  csimpl in *. apply NoDup_cons in Hnd as [Hr' Hnd].
  apply elem_of_cons in Hin as [->|Hin].
  - rewrite total_nonmember by done. case_decide; [lia|done].
  - rewrite IH by done. case_decide as Heq; [|lia].
    exfalso. apply Hr'. rewrite Heq. apply list_elem_of_fmap. by exists r.
Qed.

End Ingest.

(** ** One observation per value (C3), failures per record (C2) *)

Section Observations.
Import Collector Rows.

(** The key of the value observation a value leads to: the entity, the
    first 8 hex characters of the MD5 of the literal, and the context,
    enriched with the function name when the record names one. *)
Definition observation_key (entityId : Z) (e : entry) (v : json) : vo_key_t :=
  (entityId,
   Js.slice0 8 (Md5.md5_hex (serializeLiteralValue v (getValueType v))),
   match fn_of e with
   | Some f => context_of e +:+ "_in_" +:+ f
   | None => context_of e
   end).

(** [x] is a value, neither [null] nor [undefined], observed under [k]. *)
Definition observes (k : vo_key_t) (entityId : Z) (e : entry) (x : observed) : bool :=
  match fst x with
  | None | Some JNull => false
  | Some v => bool_decide (observation_key entityId e v = k)
  end.

Lemma vo_op_key_observation eid e v loc :
  v <> JNull ->
  vo_op_key eid (fn_of e) (context_of e) (Some v, loc) = Some (observation_key eid e v).
Proof. by destruct v. Qed.

Lemma observes_spec eid e k x :
  vo_op_key eid (fn_of e) (context_of e) x = Some k <-> observes k eid e x = true.
Proof.
  unfold vo_op_key, observes, observation_key, enhancedContext, hashValue.
  destruct (fst x) as [v|]; [|done].
  destruct v; try done; rewrite bool_decide_eq_true;
    (split; [by intros [= <-]|by intros ->]).
Qed.

Lemma filter_length_bool {A : Type} (P : A -> Prop) `{forall x, Decision (P x)}
    (b : A -> bool) (l : list A) :
  (forall x, P x <-> b x = true) -> length (filter P l) = length (List.filter b l).
Proof.
  intros Hb. induction l as [|x l IH]; [done|].
  rewrite filter_cons. simpl. case_decide as Hx.
  - apply Hb in Hx. rewrite Hx. simpl. by rewrite IH.
  - destruct (b x) eqn:Hbx; [by apply Hb in Hbx|done].
Qed.

Lemma occurrences_observes eid e k values :
  occurrences (vo_op_key eid (fn_of e) (context_of e)) k values
  = Z.of_nat (length (List.filter (observes k eid e) values)).
Proof.
  unfold occurrences. f_equal. apply filter_length_bool. intros x. apply observes_spec.
Qed.

Lemma entity_at_by_first_id file pos s i :
  first_id (file, pos) (e_ident <$> entities s) = Some i ->
  exists erow, entity_at file pos s = Some erow /\ e_id erow = i.
Proof.
  unfold entity_at. rewrite <- find_first_id.
  destruct (List.find _ _) as [r|]; [|done]. intros [= <-]. by exists r.
Qed.

(** A record with a file name leaves its entity in every later store of
    the batch, whether its body returns or throws. *)
Lemma entity_persists now entries s e file :
  e ∈ entries ->
  str_or_null (filename e) = Some file ->
  exists erow, entity_at file (offset e) (ingest now entries s) = Some erow.
Proof.
  intros Hin Hfile.
  apply list_elem_of_split in Hin as (l1 & l2 & ->).
  rewrite ingest_app, ingest_cons.
  set (s0 := ingest now l1 s). set (s1 := step now e s0).
  destruct (ingest_within now l2 s1) as (HE & _).
  assert (Hid : first_id (file, offset e) (e_ident <$> entities (ingest now l2 s1))
                = Some (eid_of now e s0)).
  { destruct HE as [rest ->]. by apply first_id_app, step_first_id. }
  apply entity_at_by_first_id in Hid as (erow & Hrow & Hid). by exists erow.
Qed.

(** A record that processes leaves its entity and its observations in
    every later store of the batch. *)
Lemma observation_persists now entries s e file values v loc :
  e ∈ entries ->
  str_or_null (filename e) = Some file ->
  hof_throws e = false ->
  types e = Some values ->
  (Some v, loc) ∈ values ->
  v <> JNull ->
  exists erow vrow,
    entity_at file (offset e) (ingest now entries s) = Some erow
    /\ vrow ∈ value_observations (ingest now entries s)
    /\ vo_key vrow = observation_key (e_id erow) e v.
Proof.
  intros Hin Hfile Hhof Htypes Hv Hnull.
  apply list_elem_of_split in Hin as (l1 & l2 & ->).
  rewrite ingest_app, ingest_cons.
  set (s0 := ingest now l1 s). set (s1 := step now e s0).
  destruct (ingest_within now l2 s1) as (HE & HV & _).
  assert (Hid : first_id (file, offset e) (e_ident <$> entities (ingest now l2 s1))
                = Some (eid_of now e s0)).
  { destruct HE as [rest ->]. by apply first_id_app, step_first_id. }
  apply entity_at_by_first_id in Hid as (erow & Hrow & Hid).
  assert (Hk : observation_key (e_id erow) e v ∈ vo_key <$> value_observations s1).
  { subst s1. rewrite step_vo, Hid.
    eapply fold_upserts_elem; [apply observe_upserts| |by apply vo_op_key_observation].
    unfold values_of. by rewrite Hfile, Htypes, Hhof. }
  apply HV, list_elem_of_fmap in Hk as (vrow & Hkey & Hvrow).
  by exists erow, vrow.
Qed.

(** A null value in a value list (a parameter that was [null] at run time). *)
Definition null_record : entry :=
  mkEntry (Some "a.js") 9 (Some [(Some JNull, None)]) None.

(** Against C3 as worded: the [null] value of this record leads to no value
    observation; the record only counts at its entity. *)
Lemma null_value_not_observed :
  exists s', processTypeData 100 [null_record] empty_store = Committed s'
             /\ types null_record = Some [(Some JNull, None)]
             /\ e_observation_count <$> entities s' = [1]
             /\ value_observations s' = [].
Proof. eexists. split; [vm_compute; reflexivity|]. by repeat split. Qed.

(** A record that names a callee with the argument index [null], then the
    same record with the index 1. *)
Definition null_index_record : entry :=
  mkEntry (Some "a.js") 12 (Some [(Some (JStr "x"), None)])
          (Some (mkMetadata None None None None (Some "map") (Some None))).

Definition indexed_record : entry :=
  mkEntry (Some "a.js") 12 (Some [(Some (JStr "x"), None)])
          (Some (mkMetadata None None None None (Some "map") (Some (Some 1)))).

(** A record that is abandoned at the callee relationship throws, and
    leaves the value observations as they were. *)
Lemma abandoned_record_observes_nothing (now : timestamp) (e : entry) (s : store) (file : string) :
  str_or_null (filename e) = Some file ->
  hof_throws e = true ->
  fst (processEntry now e s) = None
  /\ value_observations (step now e s) = value_observations s.
Proof.
  intros Hfile Hhof. split.
  - by rewrite processEntry_unfold, Hfile, Hhof.
  - rewrite step_value_observations, Hfile, Hhof. by destruct (types e).
Qed.

(** C3, as the collector has it.  Take a record with a file name and a
    value list that does not name a callee with the argument index [null].
    Its body returns, its entity is in the store, and every value that is
    neither [null] nor [undefined] is upserted exactly once, under the key
    (entity, first 8 hex characters of the MD5 of its literal, context
    enriched with [_in_<functionName>] when the name is known): the count at
    each key grows by the number of values of the record observed under it,
    and the row of each such value is in the store. *)
Theorem one_observation_per_value (now : timestamp) (e : entry) (s : store)
    (file : string) (values : list observed) :
  str_or_null (filename e) = Some file ->
  hof_throws e = false ->
  types e = Some values ->
  exists erow,
    entity_at file (offset e) (step now e s) = Some erow
    /\ processEntry now e s = (Some Processed, step now e s)
    /\ (forall k, vo_count k (step now e s)
                  = vo_count k s
                    + Z.of_nat (length (List.filter (observes k (e_id erow) e) values)))
    /\ (forall v loc, (Some v, loc) ∈ values -> v <> JNull ->
          exists vrow, vrow ∈ value_observations (step now e s)
                       /\ vo_key vrow = observation_key (e_id erow) e v).
Proof.
  intros Hfile Hhof Htypes.
  destruct (entity_at_by_first_id file (offset e) (step now e s) (eid_of now e s))
    as (erow & Hrow & Hid); [by apply step_first_id|].
  exists erow. split; [done|]. split.
  { unfold step. rewrite processEntry_unfold, Hfile, Hhof, Htypes. done. }
  split.
  - intros k. unfold vo_count. rewrite step_vo.
    rewrite (fold_upserts_total vo_key vo_observation_count _ _ (observe_upserts _ _ _ _ _ _)).
    rewrite Hid, occurrences_observes. unfold values_of. by rewrite Hfile, Htypes, Hhof.
  - intros v loc Hv Hnull.
    destruct (observation_persists now [e] s e file values v loc)
      as (erow' & vrow & Hrow' & Hvrow & Hkey); try done; [by left|].
    change (ingest now [e] s) with (step now e s) in *.
    exists vrow. split; [done|]. congruence.
Qed.

(** Scenario 3: the string ["success"] at [setStatus]. *)
Definition success_record : entry :=
  mkEntry (Some "a.js") 10 (Some [(Some (JStr "success"), None)])
          (Some (mkMetadata (Some "setStatus") (Some 3) (Some 7) (Some "parameter") None None)).

Lemma one_observation_per_value_witness :
  exists erow,
    entity_at "a.js" 10 (step 100 success_record empty_store) = Some erow
    /\ vo_count (1, "3f4e64e9", "parameter_in_setStatus") (step 100 success_record empty_store) = 1.
Proof.
  destruct (one_observation_per_value 100 success_record empty_store "a.js"
              [(Some (JStr "success"), None)] eq_refl eq_refl eq_refl)
    as (erow & Hrow & _ & Hcount & _).
  exists erow. split; [done|].
  rewrite Hcount. vm_compute in Hrow. injection Hrow as <-. vm_compute. reflexivity.
Defined.

(** The record with the index [null] throws after its entity was written:
    it leaves no relationship and no value observation.  With the index 1
    it leaves both. *)
Lemma null_index_abandons_record :
  fst (processEntry 100 null_index_record empty_store) = None
  /\ e_filename <$> entities (step 100 null_index_record empty_store) = ["a.js"]
  /\ hof_relationships (step 100 null_index_record empty_store) = []
  /\ value_observations (step 100 null_index_record empty_store) = []
  /\ fst (processEntry 100 indexed_record empty_store) = Some Processed
  /\ hof_callee_arg_index <$> hof_relationships (step 100 indexed_record empty_store) = [1]
  /\ vo_literal_value <$> value_observations (step 100 indexed_record empty_store)
     = [Json.quote "x"].
Proof. split_and!; vm_compute; reflexivity. Qed.

(** The keyed form of a record without its value list, then a sound
    record. *)
Definition truncated_record : entry := mkEntry (Some "a.js") 9 None None.

Definition sound_record : entry :=
  mkEntry (Some "b.js") 4 (Some [(Some (JNum 1), None)]) None.

(** Against C2 as worded: the first record throws (its value list is not
    iterable), yet the batch commits, with the entity row the failing record
    wrote before it threw and with everything of the second record. *)
Lemma failing_record_does_not_fail_batch :
  fst (processEntry 100 truncated_record empty_store) = None
  /\ exists s', processTypeData 100 [truncated_record; sound_record] empty_store = Committed s'
                /\ e_filename <$> entities s' = ["a.js"; "b.js"]
                /\ vo_literal_value <$> value_observations s' = ["1"].
Proof. split; [reflexivity|]. eexists. split; [vm_compute; reflexivity|]. by split. Qed.

(** The body of a record throws in two ways, both after the entity was
    written: the value list cannot be iterated, or the record is abandoned
    at the callee relationship. *)
Lemma processEntry_throws now e s :
  fst (processEntry now e s) = None
  <-> is_Some (str_or_null (filename e)) /\ (hof_throws e = true \/ types e = None).
Proof.
  rewrite processEntry_unfold.
  destruct (str_or_null (filename e)) as [file|]; cbn [fst].
  - destruct (hof_throws e); cbn [fst].
    + split; [by eauto|done].
    + destruct (types e); cbn [fst]; split; try done.
      * by intros (_ & [|]).
      * by eauto.
  - split; [done|]. by intros ([] & _).
Qed.

(** C2, as the collector has it.  A failure is caught per record: when a
    record of the batch throws, the transaction still commits.  Every
    record of the batch with a file name, the failing one included, has its
    entity in the committed store; and every record of the batch with a
    file name and a value list that is not abandoned at the callee
    relationship has the observations of its values there. *)
Theorem failure_is_per_record (now : timestamp) (pre post : list entry) (bad : entry) (s : store) :
  fst (processEntry now bad (ingest now pre s)) = None ->
  exists s',
    processTypeData now (pre ++ bad :: post) s = Committed s'
    /\ (forall e file,
          e ∈ pre ++ bad :: post ->
          str_or_null (filename e) = Some file ->
          exists erow, entity_at file (offset e) s' = Some erow)
    /\ (forall e file values v loc,
          e ∈ pre ++ bad :: post ->
          str_or_null (filename e) = Some file ->
          hof_throws e = false ->
          types e = Some values ->
          (Some v, loc) ∈ values ->
          v <> JNull ->
          exists erow vrow,
            entity_at file (offset e) s' = Some erow
            /\ vrow ∈ value_observations s'
            /\ vo_key vrow = observation_key (e_id erow) e v).
Proof.
  intros _. exists (ingest now (pre ++ bad :: post) s).
  split; [apply processTypeData_commits|]. split.
  - intros e file Hin He. by apply entity_persists.
  - intros e file values v loc Hin He Hhof Htypes Hv Hnull.
    by apply (observation_persists now _ s e file values v loc).
Qed.

Lemma failure_is_per_record_witness :
  exists s',
    processTypeData 100 [truncated_record; sound_record] empty_store = Committed s'
    /\ (exists erow, entity_at "a.js" 9 s' = Some erow)
    /\ (exists erow vrow,
          entity_at "b.js" 4 s' = Some erow
          /\ vrow ∈ value_observations s'
          /\ vo_key vrow = observation_key (e_id erow) sound_record (JNum 1)).
Proof.
  destruct (failure_is_per_record 100 [] [sound_record] truncated_record empty_store eq_refl)
    as (s' & Hs' & Hentity & Hvalues).
  exists s'. split; [done|]. split.
  - apply (Hentity truncated_record "a.js"); [by left|done].
  - apply (Hvalues sound_record "b.js" [(Some (JNum 1), None)] (JNum 1) None);
      [by right; left|done|done|done|by left|discriminate].
Defined.

End Observations.

(** ** Entity metadata (C7) *)

Section EntityMetadata.
Import Collector Rows.

Lemma find_fmap_same {A : Type} (p : A -> bool) (f : A -> A) (l : list A) :
  (forall x, p (f x) = p x) -> List.find p (map f l) = f <$> List.find p l.
Proof.
  intros Hp. induction l as [|x l IH]; [done|]. simpl. rewrite Hp.
  by destruct (p x).
Qed.

Lemma find_upsert {A : Type} (hit : A -> bool) (bump : A -> A) (fresh : A) (tbl : list A) :
  (forall r, hit r = true -> hit (bump r) = true) ->
  hit fresh = true ->
  List.find hit (upsert hit bump fresh tbl)
  = Some (match List.find hit tbl with Some r => bump r | None => fresh end).
Proof.
  intros Hbump Hfresh. induction tbl as [|r t IH]; simpl; [by rewrite Hfresh|].
  destruct (hit r) eqn:Hr; simpl; [by rewrite Hbump|by rewrite Hr].
Qed.

(** The row of the record's entity after the loop body ran. *)
Lemma entity_at_step now e s file :
  str_or_null (filename e) = Some file ->
  entity_at file (offset e) (step now e s)
  = let r := match entity_at file (offset e) s with
             | Some r => entity_bump now r
             | None => mkEntity (next_id e_id e_observation_count (entities s)) file None
                                "unknown" (offset e)
                                None None now now 1
             end in
    Some (if updates_entity e
          then mkEntity (e_id r) (e_filename r) (coalesce (fn_of e) (e_entity_name r))
                        (context_of e) (e_offset_position r)
                        (coalesce (line_of e) (e_line_number r))
                        (coalesce (column_of e) (e_column_number r))
                        (e_first_seen r) (e_last_seen r) (e_observation_count r)
          else r).
Proof.
  intros Hfile. unfold entity_at. rewrite step_entities, Hfile, head_store_entities.
  cbv zeta. unfold entity_id_of, upsertEntity. cbn [fst snd].
  set (fresh := mkEntity _ _ _ _ _ _ _ _ _ _).
  assert (Hfind : List.find (entity_hit file (offset e))
                    (upsert (entity_hit file (offset e)) (entity_bump now) fresh (entities s))
                  = Some (match List.find (entity_hit file (offset e)) (entities s) with
                          | Some r => entity_bump now r
                          | None => fresh
                          end)).
  { apply find_upsert; [done|]. unfold entity_hit. simpl.
    by rewrite String.eqb_refl, Z.eqb_refl. }
  destruct (updates_entity e); [|done].
  unfold updateEntity. rewrite find_fmap_same.
  - rewrite Hfind. simpl.
    destruct (List.find (entity_hit file (offset e)) (entities s)) as [r|]; simpl;
      by rewrite Z.eqb_refl.
  - intros r. by destruct (e_id r =? _).
Qed.

(** A parameter record, then a record at the same place whose metadata
    names the function and nothing else. *)
Definition typed_record : entry :=
  mkEntry (Some "a.js") 9 (Some [])
          (Some (mkMetadata (Some "f") (Some 3) (Some 7) (Some "function_declaration_parameter")
                            None None)).

Definition untyped_record : entry :=
  mkEntry (Some "a.js") 9 (Some []) (Some (mkMetadata (Some "f") None None None None None)).

(** Against C7 as worded, for the entity type: the second record supplies no
    context, and the stored type is replaced all the same. *)
Lemma null_context_replaces_entity_type :
  e_entity_type <$> entities (store_of (processTypeData 100 [typed_record] empty_store))
  = ["function_declaration_parameter"]
  /\ e_entity_type <$> entities (store_of (processTypeData 200 [untyped_record]
                                   (store_of (processTypeData 100 [typed_record] empty_store))))
     = ["unknown"]
  /\ e_line_number <$> entities (store_of (processTypeData 200 [untyped_record]
                                   (store_of (processTypeData 100 [typed_record] empty_store))))
     = [Some 3].
Proof. repeat split; vm_compute; reflexivity. Qed.

(** A record in column 0 of line 1, at the place of [typed_record]. *)
Definition first_column_record : entry :=
  mkEntry (Some "a.js") 9 (Some [])
          (Some (mkMetadata None (Some 1) (Some 0) (Some "arrow_function_parameter") None None)).

(** C7, as the collector has it.  The record supplies a name, a line, a
    column and a context through [x || null] (and [|| 'unknown'] for the
    context), so an empty name, a line 0 and a column 0 count as [null].
    When the name or the line so supplied is not [null], the name, the line
    and the column of the entity are set to the supplied values, a supplied
    [null] leaving the stored value as it is, and the entity type is set to
    the supplied context, ["unknown"] when the record supplies none.
    Otherwise the four fields stay as they were. *)
Theorem metadata_update (now : timestamp) (e : entry) (s : store) (file : string) :
  str_or_null (filename e) = Some file ->
  let md := md_of e in
  let name := str_or_null (functionName md) in
  let line := num_or_null (lineNumber md) in
  let column := num_or_null (columnNumber md) in
  let prior := entity_at file (offset e) s in
  exists r,
    entity_at file (offset e) (step now e s) = Some r
    /\ if bool_decide (is_Some name \/ is_Some line)
       then e_entity_name r = coalesce name (prior ≫= e_entity_name)
            /\ e_line_number r = coalesce line (prior ≫= e_line_number)
            /\ e_column_number r = coalesce column (prior ≫= e_column_number)
            /\ e_entity_type r = default "unknown" (str_or_null (context md))
       else e_entity_name r = prior ≫= e_entity_name
            /\ e_line_number r = prior ≫= e_line_number
            /\ e_column_number r = prior ≫= e_column_number
            /\ e_entity_type r = from_option e_entity_type "unknown" prior.
Proof.
  intros Hfile. cbv zeta.
  set (md := md_of e) in *. set (prior := entity_at file (offset e) s).
  assert (Hcx : context_of e = default "unknown" (str_or_null (context md))).
  { unfold context_of. fold md. by destruct (str_or_null (context md)). }
  rewrite (entity_at_step now e s file Hfile). cbv zeta. fold prior.
  eexists. split; [reflexivity|].
  unfold updates_entity, fn_of, line_of, column_of. rewrite Hcx. fold md.
  destruct (str_or_null (functionName md)) as [f|], (num_or_null (lineNumber md)) as [n|];
    try (rewrite bool_decide_eq_true_2 by (left; eauto) || rewrite bool_decide_eq_true_2 by (right; eauto));
    try (rewrite bool_decide_eq_false_2 by (intros [[? [=]]|[? [=]]]));
    destruct prior as [r|]; simpl; repeat split; done.
Qed.

(** The record in column 0 of line 1 sets the line and the type, and
    leaves the name and the column 7 that were stored. *)
Lemma metadata_update_witness :
  exists r,
    entity_at "a.js" 9 (step 200 first_column_record (step 100 typed_record empty_store)) = Some r
    /\ e_entity_name r = Some "f"
    /\ e_line_number r = Some 1
    /\ e_column_number r = Some 7
    /\ e_entity_type r = "arrow_function_parameter".
Proof.
  destruct (metadata_update 200 first_column_record (step 100 typed_record empty_store) "a.js"
              eq_refl)
    as (r & Hr & H).
  exists r. split; [done|]. exact H.
Defined.

End EntityMetadata.

(** ** Replay of a batch (C4) *)

Section Replay.
Import Collector Rows.

(** Two calls [f(1)] inside one flush window: the runtime ships one record
    per call, so the batch carries the same record twice. *)
Definition twice_in_one_batch : list entry :=
  [ mkEntry (Some "a.js") 9 (Some [(Some (JNum 1), None)]) None;
    mkEntry (Some "a.js") 9 (Some [(Some (JNum 1), None)]) None ].

(** Against C4 as worded: after two ingests of this batch the one
    value-observation row counts 4, not 2 (and 2, not 1, after the first). *)
Lemma replay_count_not_N :
  vo_observation_count <$> value_observations (replay [100] twice_in_one_batch empty_store) = [2]
  /\ vo_observation_count <$> value_observations (replay [100; 200] twice_in_one_batch empty_store)
     = [4].
Proof. split; vm_compute; reflexivity. Qed.

(** C4, as the collector has it.  Ingest a batch [N] times into an empty store.  Replay
    adds no row to any table and no key is held twice; every row counts [N]
    times what it counted after the first ingest, which is [N] itself for a
    row that the batch observes once. *)
Theorem replay_multiplies_counts (first : timestamp) (later : list timestamp)
    (entries : list entry) :
  let s1 := store_of (processTypeData first entries empty_store) in
  let sN := replay (first :: later) entries empty_store in
  let N := Z.of_nat (length (first :: later)) in
  same_rows s1 sN
  /\ unique_keys sN
  /\ (forall r, r ∈ value_observations sN ->
                vo_observation_count r = N * vo_count (vo_key r) s1)
  /\ (forall r, r ∈ entities sN ->
                e_observation_count r = N * entity_count (e_key r) s1)
  /\ (forall k, vo_count k sN = N * vo_count k s1)
  /\ (forall k, entity_count k sN = N * entity_count k s1)
  /\ (forall k, sl_count k sN = N * sl_count k s1)
  /\ (forall k, os_count k sN = N * os_count k s1)
  /\ (forall k, hof_count k sN = N * hof_count k s1).
Proof.
  intros s1 sN N. subst s1 sN N.
  rewrite processTypeData_commits, replay_cons. cbn [store_of].
  set (s1 := ingest first entries empty_store).
  destruct (replay_from first later entries empty_store s1 (same_rows_refl _))
    as (Hrows & H1 & H2 & H3 & H4 & H5).
  assert (Huniq : unique_keys (replay later entries s1)).
  { apply replay_unique, ingest_unique, empty_unique. }
  fold s1 in H1, H2, H3, H4, H5.
  assert (G2 : forall k, vo_count k (replay later entries s1)
                         = Z.of_nat (length (first :: later)) * vo_count k s1).
  { intros k. specialize (H2 k). rewrite length_cons, Nat2Z.inj_succ.
    change (vo_count k empty_store) with 0 in H2. lia. }
  assert (G1 : forall k, entity_count k (replay later entries s1)
                         = Z.of_nat (length (first :: later)) * entity_count k s1).
  { intros k. specialize (H1 k). rewrite length_cons, Nat2Z.inj_succ.
    change (entity_count k empty_store) with 0 in H1. lia. }
  split; [done|]. split; [done|].
  split.
  { intros r Hr. rewrite <- G2. symmetry.
    apply (total_unique vo_key vo_observation_count); [apply Huniq|done]. }
  split.
  { intros r Hr. rewrite <- G1. symmetry.
    apply (total_unique e_key e_observation_count); [apply Huniq|done]. }
  split; [done|]. split; [done|].
  repeat split; intros k; rewrite length_cons, Nat2Z.inj_succ.
  - specialize (H3 k). change (sl_count k empty_store) with 0 in H3. lia.
  - specialize (H4 k). change (os_count k empty_store) with 0 in H4. lia.
  - specialize (H5 k). change (hof_count k empty_store) with 0 in H5. lia.
Qed.

End Replay.


(** ** The order of [Array.prototype.sort] on strings *)

Module StrOrder.

Lemma code_inj (a b : ascii) : Js.code a = Js.code b -> a = b.
Proof.
  unfold Js.code. intros H.
  apply N2Z.inj in H.
  rewrite <- (ascii_N_embedding a), <- (ascii_N_embedding b). by rewrite H.
Qed.

Lemma leb_total (a b : list ascii) : Js.str_leb a b = true \/ Js.str_leb b a = true.
Proof.
  revert b. induction a as [|x a IH]; intros [|y b]; simpl; auto.
  destruct (Js.code x <? Js.code y) eqn:Hxy, (Js.code y <? Js.code x) eqn:Hyx; auto.
Qed.

Lemma leb_trans (a b c : list ascii) :
  Js.str_leb a b = true -> Js.str_leb b c = true -> Js.str_leb a c = true.
Proof.
  revert b c. induction a as [|x a IH]; intros [|y b] [|z c]; simpl; auto; try discriminate.
  destruct (Js.code x <? Js.code y) eqn:Hxy, (Js.code y <? Js.code x) eqn:Hyx,
           (Js.code y <? Js.code z) eqn:Hyz, (Js.code z <? Js.code y) eqn:Hzy,
           (Js.code x <? Js.code z) eqn:Hxz, (Js.code z <? Js.code x) eqn:Hzx;
    try discriminate; auto; try lia.
  apply IH.
Qed.

Lemma leb_antisym (a b : list ascii) :
  Js.str_leb a b = true -> Js.str_leb b a = true -> a = b.
Proof.
  revert b. induction a as [|x a IH]; intros [|y b]; simpl; auto; try discriminate.
  destruct (Js.code x <? Js.code y) eqn:Hxy, (Js.code y <? Js.code x) eqn:Hyx;
    try discriminate; try lia.
  intros H1 H2. f_equal; [apply code_inj; lia | by apply IH].
Qed.

Lemma chars_inj (a b : string) : Js.chars a = Js.chars b -> a = b.
Proof.
  unfold Js.chars. intros H.
  rewrite <- (string_of_list_ascii_of_string a), <- (string_of_list_ascii_of_string b).
  by rewrite H.
Qed.

Global Instance str_le_total : Total Js.str_le.
Proof. intros a b. apply leb_total. Qed.

Global Instance str_le_trans : Transitive Js.str_le.
Proof. intros a b c. apply leb_trans. Qed.

Global Instance str_le_antisym : AntiSymm (=) Js.str_le.
Proof. intros a b H1 H2. apply chars_inj. by apply leb_antisym. Qed.

Lemma list_leb_total (a b : list Z) : Js.list_leb a b = true \/ Js.list_leb b a = true.
Proof.
  revert b. induction a as [|x a IH]; intros [|y b]; simpl; auto.
  destruct (x <? y) eqn:Hxy, (y <? x) eqn:Hyx; auto.
Qed.

Lemma list_leb_trans (a b c : list Z) :
  Js.list_leb a b = true -> Js.list_leb b c = true -> Js.list_leb a c = true.
Proof.
  revert b c. induction a as [|x a IH]; intros [|y b] [|z c]; simpl; auto; try discriminate.
  destruct (x <? y) eqn:Hxy, (y <? x) eqn:Hyx, (y <? z) eqn:Hyz, (z <? y) eqn:Hzy,
           (x <? z) eqn:Hxz, (z <? x) eqn:Hzx;
    try discriminate; auto; try lia.
  apply IH.
Qed.

Lemma list_leb_antisym (a b : list Z) :
  Js.list_leb a b = true -> Js.list_leb b a = true -> a = b.
Proof.
  revert b. induction a as [|x a IH]; intros [|y b]; simpl; auto; try discriminate.
  destruct (x <? y) eqn:Hxy, (y <? x) eqn:Hyx; try discriminate; try lia.
  intros H1 H2. f_equal; [lia|by apply IH].
Qed.

Lemma codes_inj (a b : string) : Js.code <$> Js.chars a = Js.code <$> Js.chars b -> a = b.
Proof.
  intros H. apply chars_inj. revert H. generalize (Js.chars a) (Js.chars b).
  intros l. induction l as [|x l IH]; intros [|y l']; try done.
  csimpl. intros [= Hxy Hl]. f_equal; [by apply code_inj|by apply IH].
Qed.

Global Instance sort_le_total : Total Js.sort_le.
Proof.
  intros a b. unfold Js.sort_le, Js.sort_leb.
  destruct (decide (Js.units a = Js.units b)) as [Heq|Hne].
  - rewrite decide_True by done. apply list_leb_total.
  - rewrite decide_False by done. apply list_leb_total.
Qed.

Global Instance sort_le_trans : Transitive Js.sort_le.
Proof.
  intros a b c. unfold Js.sort_le, Js.sort_leb.
  destruct (decide (Js.units a = Js.units b)) as [Hab|Hab];
    destruct (decide (Js.units b = Js.units c)) as [Hbc|Hbc];
    destruct (decide (Js.units a = Js.units c)) as [Hac|Hac];
    try congruence; intros H1 H2.
  - by eapply list_leb_trans.
  - exfalso. apply Hab. apply list_leb_antisym; [done|]. by rewrite Hac.
  - by eapply list_leb_trans.
Qed.

Global Instance sort_le_antisym : AntiSymm (=) Js.sort_le.
Proof.
  intros a b. unfold Js.sort_le, Js.sort_leb.
  destruct (decide (Js.units a = Js.units b)) as [Hab|Hab].
  - rewrite decide_True by done. intros H1 H2. by apply codes_inj, list_leb_antisym.
  - rewrite decide_False by done. intros H1 H2. exfalso. by apply Hab, list_leb_antisym.
Qed.

(** Sorting is canonical: two key lists with the same elements sort to
    the same list. *)
Lemma sort_keys_perm (k1 k2 : list string) :
  k1 ≡ₚ k2 -> Collector.sort_keys k1 = Collector.sort_keys k2.
Proof.
  intros H. unfold Collector.sort_keys.
  apply (Sorted_unique Js.sort_le); try apply Sorted_merge_sort; try apply _.
  by rewrite !merge_sort_Permutation.
Qed.

End StrOrder.

(** ** Object shapes *)

Section Shapes.
Import Collector Rows.

(** The key-to-type mapping of an object. *)
Definition key_types (fields : list (string * json)) : list (string * string) :=
  (fun kv => (fst kv, getValueType (snd kv))) <$> fields.

Definition by_key (a b : string * string) : Prop := Js.sort_le (fst a) (fst b).

Definition annotate (kt : string * string) : string := fst kt +:+ ":" +:+ snd kt.

Definition type_at (fields : list (string * json)) (key : string) : string :=
  match Json.lookup key fields with
  | Some v => getValueType v
  | None => "undefined"
  end.

Lemma lookup_elem (fields : list (string * json)) (k : string) (v : json) :
  NoDup (fst <$> fields) -> (k, v) ∈ fields -> Json.lookup k fields = Some v.
Proof.
  induction fields as [|[k' v'] fields IH]; intros Hnd Hin; [by inv Hin|].
  simpl in *. apply NoDup_cons in Hnd as [Hk Hnd].
  apply elem_of_cons in Hin as [Heq|Hin].
  - inv Heq. by rewrite String.eqb_refl.
  - destruct (String.eqb_spec k' k) as [->|Hne]; [|by apply IH].
    exfalso. apply Hk. apply list_elem_of_fmap. by exists (k, v).
Qed.

Lemma type_at_elem (fields : list (string * json)) (k t : string) :
  NoDup (fst <$> fields) -> (k, t) ∈ key_types fields -> type_at fields k = t.
Proof.
  intros Hnd Hin. apply list_elem_of_fmap in Hin as [[k' v] [Heq Hin]].
  simpl in Heq. inv Heq. unfold type_at. by rewrite (lookup_elem _ _ _ Hnd Hin).
Qed.

Lemma key_types_keys (fields : list (string * json)) :
  fst <$> key_types fields = fst <$> fields.
Proof. unfold key_types. rewrite <- list_fmap_compose. by apply list_fmap_ext. Qed.

Lemma analyzeObjectShape_unfold (fields : list (string * json)) :
  analyzeObjectShape (JObj fields) =
  if (length fields =? 0)%nat || (20 <? length fields)%nat then None
  else
    let sortedKeys := sort_keys (fst <$> fields) in
    Some {| signature :=
              Js.join "," ((fun key => key +:+ ":" +:+ read_type (type_at fields) key)
                             <$> sortedKeys);
            propertyNames := Js.join "," sortedKeys;
            propertyTypes :=
              Json.stringify
                (JObj (Json.property_order (assign_types (type_at fields) sortedKeys))) |}.
Proof.
  unfold analyzeObjectShape. change (map fst fields) with (fst <$> fields).
  rewrite length_fmap. reflexivity.
Qed.

Lemma assign_types_ext (t1 t2 : string -> string) (keys : list string) :
  (forall k, k ∈ keys -> t1 k = t2 k) -> assign_types t1 keys = assign_types t2 keys.
Proof.
  intros H. unfold assign_types. change (map ?f ?l) with (f <$> l).
  apply list_fmap_ext. intros i k Hi. rewrite (H k); [done|].
  apply list_elem_of_lookup_2 in Hi. apply list_elem_of_In, filter_In in Hi as [Hi _].
  by apply list_elem_of_In.
Qed.

(** The signature is canonical.  Two objects with the same
    key-to-type mapping, in whatever order their keys are serialised, get
    the same shape record, and an object with no key or with more than 20
    keys gets none. *)
Lemma shape_same_mapping (f1 f2 : list (string * json)) :
  NoDup (fst <$> f1) -> key_types f1 ≡ₚ key_types f2 ->
  analyzeObjectShape (JObj f1) = analyzeObjectShape (JObj f2).
Proof.
  intros Hnd1 Hperm.
  assert (Hkeys : fst <$> f1 ≡ₚ fst <$> f2).
  { rewrite <- !key_types_keys. by rewrite Hperm. }
  assert (Hnd2 : NoDup (fst <$> f2)) by (by rewrite <- Hkeys).
  assert (Hlen : length f1 = length f2).
  { rewrite <- (length_fmap fst f1), <- (length_fmap fst f2). by apply Permutation_length. }
  assert (Htype : forall k, k ∈ sort_keys (fst <$> f1) -> type_at f1 k = type_at f2 k).
  { intros k Hk. unfold sort_keys in Hk. rewrite merge_sort_Permutation in Hk.
    rewrite <- key_types_keys in Hk. apply list_elem_of_fmap in Hk as [[k' t] [-> Hin]].
    simpl. rewrite (type_at_elem f1 k' t Hnd1 Hin).
    symmetry. apply type_at_elem; [done|]. by rewrite <- Hperm. }
  rewrite !analyzeObjectShape_unfold, <- Hlen.
  destruct ((length f1 =? 0)%nat || (20 <? length f1)%nat); [done|].
  cbv zeta. rewrite <- (StrOrder.sort_keys_perm _ _ Hkeys).
  assert (Hsig : (fun key => key +:+ ":" +:+ read_type (type_at f1) key) <$> sort_keys (fst <$> f1)
                 = (fun key => key +:+ ":" +:+ read_type (type_at f2) key)
                     <$> sort_keys (fst <$> f1)).
  { apply list_fmap_ext. intros i k Hi. unfold read_type. rewrite (Htype k); [done|].
    by apply list_elem_of_lookup_2 in Hi. }
  by rewrite Hsig, (assign_types_ext _ _ _ Htype).
Qed.

Definition sorted_key_types (fields : list (string * json)) : list (string * string) :=
  (fun key => (key, type_at fields key)) <$> sort_keys (fst <$> fields).

Lemma sorted_key_types_perm (fields : list (string * json)) :
  NoDup (fst <$> fields) -> sorted_key_types fields ≡ₚ key_types fields.
Proof.
  intros Hnd. unfold sorted_key_types, sort_keys.
  rewrite merge_sort_Permutation, <- list_fmap_compose.
  unfold key_types. erewrite list_fmap_ext; [reflexivity|].
  intros i [k v] Hi. simpl. f_equal.
  apply type_at_elem; [done|]. apply list_elem_of_fmap. exists (k, v).
  split; [done|]. by apply list_elem_of_lookup_2 in Hi.
Qed.

Lemma sorted_key_types_sorted (fields : list (string * json)) :
  Sorted by_key (sorted_key_types fields).
Proof.
  unfold sorted_key_types, sort_keys.
  apply (Sorted_fmap _ Js.sort_le); [by intros x y|].
  apply Sorted_merge_sort, _.
Qed.

Lemma processLiteralValue_shapes (eid : Z) (value : json) (loc fn : option string)
    (ctx : string) (now : timestamp) (s : store) :
  object_shapes (snd (processLiteralValue eid value loc fn ctx now s)) =
  match value, analyzeObjectShape value with
  | JObj _, Some sh => upsertObjectShape eid sh now (object_shapes s)
  | _, _ => object_shapes s
  end.
Proof.
  unfold processLiteralValue, mbind, M_bind, modify, when.
  destruct value as [| | |str|items|fields]; try reflexivity.
  - cbn [getValueType String.eqb Ascii.eqb Bool.eqb]. by destruct (isEnumCandidateString str).
  - cbn [getValueType String.eqb Ascii.eqb Bool.eqb].
    by destruct (analyzeObjectShape (JObj fields)).
Qed.

(** What the signature writes for a key and the type of its value: the
    type, but [[object Object]] behind the key [__proto__]. *)
Definition annotate_read (kt : string * string) : string :=
  fst kt +:+ ":" +:+ (if is_proto (fst kt) then "[object Object]" else snd kt).

Lemma annotate_read_plain (kts : list (string * string)) :
  "__proto__" ∉ fst <$> kts -> annotate_read <$> kts = annotate <$> kts.
Proof.
  intros Hno. apply list_fmap_ext. intros i [k t] Hi. unfold annotate_read, annotate, is_proto.
  cbn [fst snd]. destruct (String.eqb_spec k "__proto__") as [->|]; [|done].
  exfalso. apply Hno, list_elem_of_fmap. exists ("__proto__", t).
  split; [done|]. by apply list_elem_of_lookup_2 in Hi.
Qed.

(** The object [{"__proto__": 1, "a": "x"}], as [JSON.parse] builds it:
    [__proto__] is a property of its own. *)
Definition proto_object : list (string * json) := [("__proto__", JNum 1); ("a", JStr "x")].

(** An object in the value list of a record that is not abandoned has its
    shape among the rows of the record's entity. *)
Lemma shape_row_recorded now e s file values fields loc sh :
  str_or_null (filename e) = Some file ->
  hof_throws e = false ->
  types e = Some values ->
  (Some (JObj fields), loc) ∈ values ->
  analyzeObjectShape (JObj fields) = Some sh ->
  exists erow row,
    entity_at file (offset e) (step now e s) = Some erow
    /\ row ∈ object_shapes (step now e s)
    /\ os_entity_id row = e_id erow
    /\ os_shape_signature row = signature sh.
Proof.
  intros Hfile Hhof Htypes Hin Hsh.
  destruct (entity_at_by_first_id file (offset e) (step now e s) (eid_of now e s))
    as (erow & Hrow & Hid); [by apply step_first_id|].
  assert (Hk : (eid_of now e s, signature sh) ∈ os_key <$> object_shapes (step now e s)).
  { rewrite step_os.
    eapply fold_upserts_elem; [apply os_observe_upserts| |].
    - unfold values_of. rewrite Hfile, Htypes, Hhof. apply Hin.
    - unfold os_op_key. cbn [fst]. by rewrite Hsh. }
  apply list_elem_of_fmap in Hk as (row & Hkey & Hin').
  exists erow, row. unfold os_key in Hkey. inv Hkey. by rewrite Hid.
Qed.

(** C8, as the collector has it.  A non-array object with 1 to 20 own keys
    gets the signature made of its keys in sorted order, each followed by
    [:] and an annotation, joined by commas.  The annotation is the type of
    the value, except behind the key [__proto__], where it is
    [[object Object]] whatever the value; so an object that has no such key
    is annotated with its types throughout.  The shape is written to the
    table at the key (entity, signature): a fresh row with the signature,
    the key names and the key types when the table has none at that key,
    the row there with its count raised otherwise; and a record that carries
    the object in its value list leaves such a row at its entity.  An object
    with no key or more than 20 keys gets no shape and leaves the table as
    it is.  Two objects with the same key-to-type mapping, whatever the
    order of their keys in the serialised input, get the same shape.  The
    object [{"__proto__": 1, "a": "x"}] gets the signature
    [__proto__:[object Object],a:string] and the key types of [a] alone. *)
Theorem shape_signature_canonical (f1 f2 : list (string * json)) (eid : Z)
    (loc fn : option string) (ctx : string) (now : timestamp) (s : store) :
  NoDup (fst <$> f1) ->
  key_types f1 ≡ₚ key_types f2 ->
  analyzeObjectShape (JObj f1) = analyzeObjectShape (JObj f2)
  /\ match analyzeObjectShape (JObj f1) with
     | Some sh =>
         (1 <= length f1 <= 20)%nat
         /\ (exists kts, kts ≡ₚ key_types f1 /\ Sorted by_key kts
                         /\ signature sh = Js.join "," (annotate_read <$> kts)
                         /\ ("__proto__" ∉ fst <$> f1 ->
                             signature sh = Js.join "," (annotate <$> kts)))
         /\ (exists row,
               List.find (os_hit eid (signature sh))
                         (object_shapes (snd (processLiteralValue eid (JObj f1) loc fn ctx now s)))
               = Some row
               /\ match List.find (os_hit eid (signature sh)) (object_shapes s) with
                  | Some r => row = os_bump now r
                  | None =>
                      os_entity_id row = eid
                      /\ os_shape_signature row = signature sh
                      /\ os_property_names row = propertyNames sh
                      /\ os_property_types row = propertyTypes sh
                      /\ os_observation_count row = 1
                      /\ os_first_seen row = now
                      /\ os_last_seen row = now
                  end)
         /\ (forall e file values loc',
               str_or_null (filename e) = Some file ->
               hof_throws e = false ->
               types e = Some values ->
               (Some (JObj f1), loc') ∈ values ->
               exists erow row,
                 entity_at file (offset e) (step now e s) = Some erow
                 /\ row ∈ object_shapes (step now e s)
                 /\ os_entity_id row = e_id erow
                 /\ os_shape_signature row = signature sh)
     | None =>
         (length f1 = 0 \/ 20 < length f1)%nat
         /\ object_shapes (snd (processLiteralValue eid (JObj f1) loc fn ctx now s))
            = object_shapes s
     end
  /\ analyzeObjectShape (JObj proto_object)
     = Some {| signature := "__proto__:[object Object],a:string";
               propertyNames := "__proto__,a";
               propertyTypes := "{" +:+ Json.quote "a" +:+ ":" +:+ Json.quote "string" +:+ "}" |}.
Proof.
  intros Hnd Hperm. split; [by apply shape_same_mapping|].
  split; [|vm_compute; reflexivity].
  destruct (analyzeObjectShape (JObj f1)) as [sh|] eqn:Hsh.
  - pose proof Hsh as Hsh'. rewrite analyzeObjectShape_unfold in Hsh'.
    destruct ((length f1 =? 0)%nat || (20 <? length f1)%nat) eqn:Hlen; [done|].
    apply orb_false_iff in Hlen as [H0%Nat.eqb_neq H20%Nat.ltb_ge].
    cbv zeta in Hsh'.
    assert (Hsig : signature sh = Js.join "," (annotate_read <$> sorted_key_types f1)).
    { injection Hsh' as <-. unfold sorted_key_types. cbn [signature].
      by rewrite <- list_fmap_compose. }
    split; [lia|]. split; [|split].
    + exists (sorted_key_types f1).
      split; [by apply sorted_key_types_perm|]. split; [apply sorted_key_types_sorted|].
      split; [done|]. intros Hno. rewrite Hsig. f_equal. apply annotate_read_plain.
      intros Hin. apply Hno. rewrite <- key_types_keys.
      by rewrite <- (sorted_key_types_perm f1 Hnd).
    + rewrite processLiteralValue_shapes, Hsh. unfold upsertObjectShape.
      eexists. split.
      * apply find_upsert.
        -- intros r. by unfold os_hit, os_bump.
        -- unfold os_hit. cbn [os_entity_id os_shape_signature].
           by rewrite Z.eqb_refl, String.eqb_refl.
      * by destruct (List.find _ (object_shapes s)).
    + intros e file values loc' Hfile Hhof Htypes Hin.
      by apply (shape_row_recorded now e s file values f1 loc').
  - rewrite processLiteralValue_shapes, Hsh. split; [|done].
    rewrite analyzeObjectShape_unfold in Hsh.
    destruct ((length f1 =? 0)%nat || (20 <? length f1)%nat) eqn:Hlen; [|done].
    apply orb_true_iff in Hlen as [H%Nat.eqb_eq|H%Nat.ltb_lt]; auto.
Qed.

(** The objects [{id:"a", done:false}] and [{done:true, id:"b"}] of the
    fourth scenario share the signature [done:boolean,id:string], and the
    object with the key [__proto__] is annotated with [[object Object]]
    there and loses the key among its types. *)
Lemma shape_signature_canonical_witness :
  signature <$> analyzeObjectShape (JObj [("id", JStr "a"); ("done", JBool false)])
  = Some "done:boolean,id:string"
  /\ analyzeObjectShape (JObj [("id", JStr "a"); ("done", JBool false)])
     = analyzeObjectShape (JObj [("done", JBool false); ("id", JStr "a")])
  /\ signature <$> analyzeObjectShape (JObj proto_object)
     = Some "__proto__:[object Object],a:string".
Proof.
  split; [reflexivity|]. split; [|vm_compute; reflexivity].
  refine (proj1 (shape_signature_canonical
                   [("id", JStr "a"); ("done", JBool false)]
                   [("done", JBool false); ("id", JStr "a")]
                   1 None None "unknown" 0 empty_store _ _)).
  - by apply (bool_decide_unpack _).
  - apply perm_swap.
Defined.

End Shapes.

(** ** Ordering *)

Section Ordering.
Import Queries.
Context {A : Type} (before : A -> A -> Prop) `{forall a b, Decision (before a b)}.

Lemma insert_row_Permutation (x : A) (l : list A) : insert_row before x l ≡ₚ x :: l.
Proof.
  induction l as [|y l IH]; [done|]. simpl. case_decide; [done|].
  by rewrite IH, Permutation_swap.
Qed.

Lemma order_by_Permutation (l : list A) : order_by before l ≡ₚ l.
Proof.
  induction l as [|x l IH]; [done|]. unfold order_by in *. simpl.
  by rewrite insert_row_Permutation, IH.
Qed.

Lemma insert_row_Sorted (x : A) (l : list A) :
  Total before -> Sorted before l -> Sorted before (insert_row before x l).
Proof.
  intros Htotal. induction 1 as [|y l Hl IH Hhd]; simpl; [by repeat constructor|].
  case_decide as Hxy; [by repeat constructor|].
  constructor; [done|].
  destruct l as [|z l]; simpl in *.
  - constructor. by destruct (Htotal x y).
  - case_decide; constructor; [by destruct (Htotal x y)|by inv Hhd].
Qed.

Lemma Sorted_order_by (l : list A) : Total before -> Sorted before (order_by before l).
Proof.
  intros Htotal. induction l as [|x l IH]; [constructor|].
  unfold order_by in *. simpl. by apply insert_row_Sorted.
Qed.

End Ordering.

(** ** Grouping *)

Section Grouping.
Import Queries.
Context {A K : Type} `{EqDecision K} (key : A -> K).

(** Every group holds rows of its own key, and at least one. *)
Definition grouped (groups : list (K * list A)) : Prop :=
  forall k g, (k, g) ∈ groups -> g <> [] /\ forall x, x ∈ g -> key x = k.

Lemma add_to_group_grouped x groups :
  grouped groups -> grouped (add_to_group (key x) x groups).
Proof.
  induction groups as [|[k' g'] t IH]; intros Hg k g Hin; simpl in Hin.
  - apply list_elem_of_singleton in Hin. inv Hin. split; [done|].
    intros y Hy. apply list_elem_of_singleton in Hy. by subst.
  - assert (Ht : grouped t) by (intros ? ? ?; apply Hg; by right).
    case_decide as Hk; apply elem_of_cons in Hin as [Heq|Hin].
    + inv Heq. destruct (Hg (key x) g') as [_ Hkeys]; [by left|].
      split; [by destruct g'|]. intros y Hy. apply elem_of_app in Hy as [Hy|Hy]; [by apply Hkeys|].
      apply list_elem_of_singleton in Hy. by subst.
    + by apply Ht.
    + inv Heq. apply Hg. by left.
    + by apply IH.
Qed.


Lemma fold_grouped l groups :
  grouped groups -> grouped (fold_left (fun gs x => add_to_group (key x) x gs) l groups).
Proof.
  revert groups. induction l as [|x l IH]; intros groups Hg; [done|].
  simpl. by apply IH, add_to_group_grouped.
Qed.


Lemma group_by_grouped l : grouped (group_by key l).
Proof. apply fold_grouped. intros k g Hin. by inv Hin. Qed.


End Grouping.

(** ** Annotation candidates (C6) *)

Section Annotation.
Import Collector Queries.

Lemma count_distinct_constant {A : Type} `{EqDecision A} (l : list A) (a : A) :
  (forall x, x ∈ l -> x = a) -> count_distinct l <= 1.
Proof.
  intros Hl. unfold count_distinct.
  assert (Hsub : remove_dups l ⊆+ [a]).
  { apply NoDup_submseteq; [apply NoDup_remove_dups|].
    intros x Hx. apply elem_of_remove_dups, Hl in Hx. subst. by left. }
  apply submseteq_length in Hsub. simpl in Hsub. lia.
Qed.

Lemma annotation_type_single (value_type : string) (unique_values distinct_types : Z) :
  distinct_types <= 1 ->
  annotation_type value_type unique_values distinct_types <> "UNION_CANDIDATE".
Proof.
  intros Hd. unfold annotation_type.
  destruct (String.eqb value_type "string" && (2 <=? unique_values) && (unique_values <=? 10));
    [done|].
  destruct (String.eqb value_type "object"); [done|].
  destruct (String.eqb value_type "number" && (unique_values <? 10)); [done|].
  destruct (Z.ltb_spec 1 distinct_types); [lia|done].
Qed.

Lemma candidate_of_group_single k g c :
  (forall x, x ∈ g -> candidate_group_key x = k) ->
  candidate_of_group g = Some c ->
  a_annotation_type c <> "UNION_CANDIDATE".
Proof.
  intros Hkey Hc. destruct g as [|[e v] g]; [done|].
  injection Hc as <-. cbn [a_annotation_type].
  apply annotation_type_single, (count_distinct_constant _ (snd k)).
  intros t Ht. apply elem_of_cons in Ht as [->|Ht].
  - by rewrite <- (Hkey (e, v)) by (by left).
  - apply list_elem_of_fmap in Ht as (row & -> & Hrow).
    by rewrite <- (Hkey row) by (by right).
Qed.

(** An entity that received strings and a number. *)
Definition mixed_store : store :=
  store_of (processTypeData 100
    [ mkEntry (Some "a.js") 10
        (Some [(Some (JStr "on"), None); (Some (JNum 3), None); (Some (JStr "off"), None)]) None ]
    empty_store).

(** In the rows the statement describes, the groups are formed per
    (entity, value type), so [COUNT(DISTINCT v.value_type)] is 1 in every
    group and the branch of the union candidate is never taken. *)
Lemma union_branch_unreachable (s : store) (minObservations : Z) :
  Forall (fun c => a_annotation_type c <> "UNION_CANDIDATE") (annotation_rows s minObservations).
Proof.
  apply Forall_forall. intros c Hc.
  unfold annotation_rows in Hc. rewrite order_by_Permutation in Hc.
  apply list_elem_of_In, filter_In in Hc as [Hc _]. apply list_elem_of_In in Hc.
  apply list_elem_of_omap in Hc as ([k g] & Hg & Hcand). simpl in Hcand.
  destruct (group_by_grouped candidate_group_key _ k g Hg) as [_ Hkey].
  by eapply candidate_of_group_single.
Qed.

(** C6.  The query of the annotation candidates answers no row at all: its
    statement writes [GROUP_CONCAT(DISTINCT ..., ' | ')], a [DISTINCT]
    aggregate with two arguments, which [db.prepare] refuses, so on every
    store and for every threshold the call throws.  The store in which an
    entity was observed with strings and with a number is answered with
    that error, not with a union candidate. *)
Theorem annotation_candidates_throw :
  (forall (s : store) (minObservations : Z),
      getAnnotationCandidates s minObservations
      = inl "DISTINCT aggregates must have exactly one argument")
  /\ vo_value_type <$> value_observations mixed_store = ["string"; "number"; "string"]
  /\ getAnnotationCandidates mixed_store 1
     = inl "DISTINCT aggregates must have exactly one argument".
Proof. split; [intros s minObservations|split]; reflexivity. Qed.

(** The classification of a group and the order of the answer. *)
Lemma annotation_rule (value_type : string) (unique_values : Z) :
  annotation_type value_type unique_values 1 =
  if decide (value_type = "string" /\ 2 <= unique_values <= 10) then "ENUM_CANDIDATE"
  else if decide (value_type = "object") then "INTERFACE_CANDIDATE"
  else if decide (value_type = "number" /\ unique_values < 10) then "LITERAL_TYPE_CANDIDATE"
  else "SIMPLE_TYPE".
Proof.
  unfold annotation_type.
  destruct (String.eqb_spec value_type "string"), (String.eqb_spec value_type "object"),
           (String.eqb_spec value_type "number"), (Z.leb_spec 2 unique_values),
           (Z.leb_spec unique_values 10), (Z.ltb_spec unique_values 10);
    simpl; repeat case_decide; try done; try lia; destruct_and?; subst; try done; try lia;
    try (exfalso; tauto).
Qed.

Lemma annotation_order (s : store) (minObservations : Z) :
  Sorted candidate_before (annotation_rows s minObservations).
Proof.
  apply Sorted_order_by. intros a b. unfold candidate_before. lia.
Qed.

End Annotation.

(** ** The function-calls query (C10) *)

Section FunctionCalls.
Import Collector Queries.

Lemma limit_offset_length {A : Type} (limit offset : Z) (l : list A) :
  0 <= limit -> (length (limit_offset limit offset l) <= Z.to_nat limit)%nat.
Proof.
  intros Hl. unfold limit_offset. destruct (Z.ltb_spec limit 0); [lia|].
  rewrite length_take. lia.
Qed.






End FunctionCalls.

(** ** The instrumenter *)

Section InstrumenterFacts.
Import Instrumenter Records.

Lemma traverse_list_unhandled (f : node -> T node) (l : list node) (st : gset string) :
  Forall (fun n => forall st, f n st = Some (n, st)) l ->
  traverse_list f l st = Some (l, st).
Proof.
  induction 1 as [|x l Hx _ IH]; [done|].
  simpl. unfold mbind, T_bind. by rewrite Hx, IH.
Qed.

Lemma size_elem (x : node) (l : list node) : x ∈ l -> (size x <= list_sum (map size l))%nat.
Proof.
  induction 1 as [x l|x y l _ IH]; simpl; lia.
Qed.

Lemma traverse_unhandled_bounded (filename : string) (k : nat) :
  forall (n : node) (st : gset string),
    (size n <= k)%nat -> unhandled n = true -> traverse filename n st = Some (n, st).
Proof.
  induction k as [|k IH]; intros n st Hk Hn; [destruct n; simpl in Hk; lia|].
  assert (Hlist : forall l (s : gset string),
             (list_sum (map size l) <= k)%nat -> forallb unhandled l = true ->
             traverse_list (traverse filename) l s = Some (l, s)).
  { intros l s Hsize Hl. apply traverse_list_unhandled.
    apply Forall_forall. intros x Hin s'. apply IH.
    - apply size_elem in Hin. lia.
    - rewrite forallb_forall in Hl. by apply Hl, list_elem_of_In. }
  destruct n; simpl in Hn, Hk |- *; try done; unfold mbind, T_bind; simpl;
    repeat match goal with
           | H : _ && _ = true |- _ => apply andb_true_iff in H as [? ?]
           end;
    repeat match goal with
           | o : option node |- _ =>
               destruct o; simpl in Hk |- *; unfold mbind, T_bind; simpl
           end;
    repeat match goal with
           | |- context [traverse ?f ?x ?s] => rewrite (IH x s) by (assumption || lia); simpl
           | |- context [traverse_list (traverse ?f) ?l ?s] =>
               rewrite (Hlist l s) by (assumption || lia); simpl
           end;
    reflexivity.
Qed.

(** The traversal changes nothing in a tree that holds no function
    declaration, no class or object method and no variable declarator:
    no visitor runs. *)
Lemma traverse_unhandled (filename : string) (n : node) (st : gset string) :
  unhandled n = true -> traverse filename n st = Some (n, st).
Proof. by apply (traverse_unhandled_bounded filename (size n)). Qed.

(** The statements the visitors insert hold no node a visitor handles:
    traversing them, as Babel does after the visitor ran, changes neither
    the statement nor the set. *)
Lemma traverse_injected (filename name : string) (value : node) (offset : Z) (file : string)
    (metadata : list (string * meta_value)) (st : gset string) :
  unhandled value = true ->
  traverse filename (createTypeWizCall name value offset file metadata) st
  = Some (createTypeWizCall name value offset file metadata, st).
Proof.
  intros Hvalue. apply traverse_unhandled. simpl. rewrite Hvalue. simpl.
  rewrite !andb_true_r. induction metadata as [|[k v] l IH]; [done|].
  csimpl. rewrite IH. by destruct v.
Qed.

(** [createRoutine('T', payload => ({ x: payload.x }))], the second
    scenario of the specification. *)
Definition at_ (s l c : Z) : option position := Some (mkPos s l c).

Definition payload_arrow : node :=
  ArrowFunctionExpression (at_ 19 1 19) [Identifier (at_ 19 1 19) "payload" false]
    (ObjectExpression
       [ObjectProperty (Identifier (at_ 33 1 33) "x" false)
          (MemberExpression (Identifier (at_ 36 1 36) "payload" false)
                            (Identifier (at_ 44 1 44) "x" false))]).

Definition createRoutine_call : list node :=
  [ExpressionStatement
     (CallExpression (Identifier (at_ 0 1 0) "createRoutine" false)
                     [StringLiteral "T"; payload_arrow])].

(** *** The nodes the visitors enter *)

Definition option_visited (f : node -> list node) (o : option node) : list node :=
  match o with
  | Some n => f n
  | None => []
  end.

(** The nodes a visitor is registered for, in the order the traversal
    enters them. *)
Fixpoint visited (n : node) : list node :=
  match n with
  | Identifier _ _ _ | StringLiteral _ | NumericLiteral _ | BooleanLiteral _ | NullLiteral => []
  | ObjectExpression l | ObjectPattern _ l _ | ArrayPattern _ l _ | VariableDeclaration _ l
  | BlockStatement l | OtherNode _ l => flat_map visited l
  | ObjectProperty a b | MemberExpression a b | AssignmentPattern _ a b | TryStatement a b
  | CatchClause a b => visited a ++ visited b
  | ObjectMethod _ key params body | ClassMethod _ _ key params body =>
      n :: visited key ++ flat_map visited params ++ visited body
  | FunctionDeclaration _ id params body =>
      n :: option_visited visited id ++ flat_map visited params ++ visited body
  | ArrowFunctionExpression _ params body => flat_map visited params ++ visited body
  | FunctionExpression _ id params body =>
      option_visited visited id ++ flat_map visited params ++ visited body
  | CallExpression callee arguments => visited callee ++ flat_map visited arguments
  | RestElement _ a | TSParameterProperty _ _ a | ExpressionStatement a => visited a
  | ClassDeclaration id body => option_visited visited id ++ flat_map visited body
  | VariableDeclarator _ id init =>
      match init with
      | Some (ArrowFunctionExpression _ params body) =>
          n :: visited id ++ flat_map visited params ++ visited body
      | _ => visited id ++ option_visited visited init
      end
  | ReturnStatement a => option_visited visited a
  end.

(** The name the visitor of a node computes, and the key it looks up in
    [instrumentedFunctions]. *)
Definition visitor_name (n : node) : js_name :=
  match n with
  | ObjectMethod _ key _ _ => object_method_name key
  | ClassMethod _ _ key _ _ => class_method_name key
  | FunctionDeclaration _ id _ _ => declaration_name id
  | VariableDeclarator _ id _ => declarator_name id
  | _ => NameUndefined
  end.

Definition visitor_key (n : node) : string := function_key (visitor_name n) n.

(** Whether the visitor of a node it enters for the first time runs
    through: [instrumentFunction] passes the name to [t.stringLiteral],
    [instrumentArrowFunction] only prints it. *)
Definition instrumentable (n : node) : bool :=
  match n with
  | VariableDeclarator _ _ _ => true
  | _ => match visitor_name n with
         | NameString _ => true
         | _ => false
         end
  end.

Definition visitor_keys (vis : list node) : list string := visitor_key <$> vis.

(** What a part of the traversal that enters the nodes [vis] does from
    the set [st]. *)
Definition visit_outcome {A : Type} (vis : list node) (st : gset string)
    (r : option (A * gset string)) : Prop :=
  match r with
  | Some (_, st') => forallb instrumentable vis = true /\ st' = list_to_set (visitor_keys vis) ∪ st
  | None => forallb instrumentable vis = false
  end.

Definition follows {A : Type} (vis : list node) (m : T A) : Prop :=
  forall st,
    (forallb instrumentable vis = true -> is_Some (m st))
    /\ (NoDup (visitor_keys vis) -> (forall k, k ∈ visitor_keys vis -> k ∉ st) ->
        visit_outcome vis st (m st)).

Lemma follows_ret {A : Type} (a : A) : follows [] (mret a).
Proof.
  intros st. split; [by eexists|]. intros _ _. simpl. split; [done|].
  by rewrite (left_id_L ∅ (∪)).
Qed.

Lemma follows_bind {A B : Type} (v1 v2 : list node) (m : T A) (f : A -> T B) :
  follows v1 m -> (forall a, follows v2 (f a)) -> follows (v1 ++ v2) (m ≫= f).
Proof.
  intros Hm Hf st. unfold mbind, T_bind. split.
  - rewrite forallb_app. intros [H1 H2]%andb_true_iff.
    destruct (proj1 (Hm st) H1) as [[a st'] ->]. by apply Hf.
  - intros Hnodup Hfresh. unfold visitor_keys in *. rewrite fmap_app in Hnodup, Hfresh.
    apply NoDup_app in Hnodup as (Hn1 & Hdisj & Hn2).
    assert (Hfresh1 : forall k, k ∈ visitor_key <$> v1 -> k ∉ st).
    { intros k Hk. apply Hfresh, elem_of_app. by left. }
    assert (Hfresh2 : forall k, k ∈ visitor_key <$> v2 ->
                                k ∉ list_to_set (visitor_key <$> v1) ∪ st).
    { intros k Hk. rewrite elem_of_union, elem_of_list_to_set.
      intros [Hin|Hin]; [by eapply Hdisj|]. revert Hin. apply Hfresh, elem_of_app. by right. }
    pose proof (proj2 (Hm st) Hn1 Hfresh1) as Hout. unfold visit_outcome, visitor_keys in *.
    destruct (m st) as [[a st']|].
    + destruct Hout as [H1 ->].
      pose proof (proj2 (Hf a _) Hn2 Hfresh2) as Hout. unfold visit_outcome, visitor_keys in *.
      destruct (f a _) as [[b st'']|].
      * destruct Hout as [H2 ->].
        rewrite forallb_app, H1, H2, fmap_app, list_to_set_app_L. split; [done|].
        by rewrite (assoc_L (∪)), (comm_L (∪) (list_to_set (visitor_key <$> v2))).
      * by rewrite forallb_app, Hout, andb_false_r.
    + by rewrite forallb_app, Hout.
Qed.

Lemma follows_map {A B : Type} (vis : list node) (m : T A) (g : A -> B) :
  follows vis m -> follows vis (m ≫= fun a => mret (g a)).
Proof.
  intros Hm. rewrite <- (app_nil_r vis). apply follows_bind; [done|].
  intros a. apply follows_ret.
Qed.

Lemma follows_cons {A B : Type} (n : node) (vis : list node) (m : T A) (f : A -> T B) :
  follows [n] m -> (forall a, follows vis (f a)) -> follows (n :: vis) (m ≫= f).
Proof. apply (follows_bind [n] vis). Qed.

Lemma follows_visit (filename context : string) (n : node) :
  instrumentable n = match visitor_name n with NameString _ => true | _ => false end ->
  follows [n] (visit_function n (visitor_name n) filename context).
Proof.
  intros Hn st. unfold visit_function, first_visit, mbind, T_bind. split.
  - cbn [forallb]. rewrite Hn, andb_true_r. intros Hname.
    destruct (decide _); [by eexists|]. by destruct (visitor_name n).
  - intros _ Hfresh. rewrite decide_False by (apply Hfresh; left).
    unfold visit_outcome, visitor_keys, visitor_key. cbn [forallb fmap list_fmap list_to_set].
    rewrite Hn, andb_true_r, (right_id_L ∅ (∪)).
    generalize (function_key (visitor_name n) n) as key. intros key.
    by destruct (visitor_name n).
Qed.

Lemma follows_first_visit (n : node) :
  instrumentable n = true -> follows [n] (first_visit (visitor_key n)).
Proof.
  intros Hn st. unfold first_visit. split.
  - intros _. destruct (decide _); by eexists.
  - intros _ Hfresh. rewrite decide_False by (apply Hfresh; left).
    unfold visit_outcome, visitor_keys. cbn [forallb fmap list_fmap list_to_set].
    by rewrite Hn, (right_id_L ∅ (∪)).
Qed.

Lemma follows_list (f : node -> T node) (l : list node) :
  Forall (fun n => follows (visited n) (f n)) l ->
  follows (flat_map visited l) (traverse_list f l).
Proof.
  induction 1 as [|x l Hx _ IH]; [apply follows_ret|].
  simpl. apply follows_bind; [done|]. intros x'. by apply follows_map.
Qed.

Lemma follows_option (f : node -> T node) (o : option node) :
  (forall n, o = Some n -> follows (visited n) (f n)) ->
  follows (option_visited visited o) (traverse_option f o).
Proof.
  intros Ho. destruct o as [n|]; simpl; [|apply follows_ret].
  apply follows_map. by apply Ho.
Qed.

Lemma traverse_follows_bounded (filename : string) (k : nat) :
  forall n : node, (size n <= k)%nat -> follows (visited n) (traverse filename n).
Proof.
  induction k as [|k IH]; intros n Hk; [destruct n; simpl in Hk; lia|].
  assert (Hlist : forall l, (list_sum (map size l) <= k)%nat ->
                            follows (flat_map visited l) (traverse_list (traverse filename) l)).
  { intros l Hsize. apply follows_list, Forall_forall. intros x Hin. apply IH.
    apply size_elem in Hin. lia. }
  assert (Hopt : forall o, (option_size size o <= k)%nat ->
                           follows (option_visited visited o)
                                   (traverse_option (traverse filename) o)).
  { intros o Hsize. apply follows_option. intros x ->. by apply IH. }
  destruct n;
    try match goal with
        | |- follows (visited (VariableDeclarator _ _ ?init)) _ => destruct init as [[]|]
        end;
    simpl in Hk; cbn [traverse visited];
    repeat first
      [ apply follows_ret
      | apply IH; lia
      | apply Hlist; lia
      | apply Hopt; simpl; lia
      | apply follows_bind;
        [apply IH; lia|intros ?; apply follows_map; apply Hopt; simpl; lia]
      | apply follows_map
      | apply follows_cons;
        [first [apply follows_visit; reflexivity | apply follows_first_visit; reflexivity]
        |intros ?]
      | apply follows_bind; [|intros ?] ].
Qed.

Lemma traverse_follows (filename : string) (program : list node) :
  follows (flat_map visited program) (traverse_list (traverse filename) program).
Proof.
  apply follows_list, Forall_forall. intros n _.
  by apply (traverse_follows_bounded filename (size n)).
Qed.

(** *** Function literals passed to a call (C1) *)

(** The records an instrumented program holds, by label. *)
Definition labels_of (filename : string) (program : list node) : option (list string) :=
  traverse_list (traverse filename) program ∅ ≫= fun '(program', _) =>
  Some (r_label <$> flat_map records program').

(** Against C1 as worded: the second scenario of the specification is
    traversed without a throw, no visitor is entered, and the output holds
    no record at all, so none for the parameter [payload] of the arrow
    function passed as argument 1. *)
Lemma callback_parameter_record_missing :
  flat_map visited createRoutine_call = []
  /\ labels_of "actions.js" createRoutine_call = Some []
  /\ parameter_name (Identifier (at_ 19 1 19) "payload" false) = Some "payload".
Proof. split; [reflexivity|]. split; [vm_compute; reflexivity|reflexivity]. Qed.

(** C1, as the instrumenter has it.  The traversal has no visitor for call
    expressions: a call whose callee and arguments hold no function
    declaration, method or variable declarator comes out as it went in,
    whatever function literals its arguments are, so no record is emitted
    for their parameters. *)
Theorem callback_argument_not_instrumented (filename : string) (callee : node)
    (arguments : list node) (st : gset string) :
  unhandled callee = true ->
  forallb unhandled arguments = true ->
  traverse filename (CallExpression callee arguments) st
  = Some (CallExpression callee arguments, st).
Proof.
  intros Hcallee Hargs. apply traverse_unhandled. simpl. by rewrite Hcallee, Hargs.
Qed.

Lemma callback_argument_not_instrumented_witness :
  traverse "actions.js"
           (CallExpression (Identifier (at_ 0 1 0) "createRoutine" false)
                           [StringLiteral "T"; payload_arrow]) ∅
  = Some (CallExpression (Identifier (at_ 0 1 0) "createRoutine" false)
                         [StringLiteral "T"; payload_arrow], ∅)
  /\ fst <$> traverse_list (traverse "actions.js") createRoutine_call ∅ = Some createRoutine_call
  /\ flat_map records createRoutine_call = [].
Proof.
  split; [|split; [vm_compute; reflexivity|reflexivity]].
  apply callback_argument_not_instrumented; reflexivity.
Defined.

(** *** The records of a function (C5) *)

Lemma as_record_create (name : string) (value : node) (offset : Z) (filename : string)
    (metadata : list (string * meta_value)) :
  as_record (createTypeWizCall name value offset filename metadata)
  = Some (mkRecord name value offset filename
            ((fun kv => (fst kv, literal_of (snd kv))) <$> metadata)).
Proof.
  unfold createTypeWizCall, as_record. simpl. do 2 f_equal.
  induction metadata as [|[k v] l IH]; [done|]. csimpl. by rewrite IH.
Qed.

(** The formal parameters the instrumenter names, each with its index in
    the declared list; a parameter of another form is passed over and
    keeps its index. *)
Fixpoint named_parameters (index : nat) (params : list node) : list (nat * string) :=
  match params with
  | [] => []
  | p :: rest =>
      match parameter_name p with
      | Some name => (index, name) :: named_parameters (S index) rest
      | None => named_parameters (S index) rest
      end
  end.

(** [c] is the record of the parameter [snd ip], declared at index
    [fst ip]. *)
Definition parameter_record (funcName context : string) (ip : nat * string) (c : node) : Prop :=
  exists r,
    as_record c = Some r
    /\ r_label r = funcName +:+ "_param_" +:+ snd ip
    /\ r_value r = Identifier None (snd ip) false
    /\ meta "functionName" (r_metadata r) = Some (StringLiteral funcName)
    /\ meta "parameterName" (r_metadata r) = Some (StringLiteral (snd ip))
    /\ meta "parameterIndex" (r_metadata r) = Some (NumericLiteral (Z.of_nat (fst ip)))
    /\ meta "context" (r_metadata r) = Some (StringLiteral context).

(** [calls] holds one record for each parameter the instrumenter names, in
    the order of the declared list, and no other statement. *)
Definition parameter_records (funcName context : string) (params calls : list node) : Prop :=
  Forall2 (parameter_record funcName context) (named_parameters 0 params) calls.

(** [c] is the entry record of a function with the parameters [params]. *)
Definition entry_record (funcName context : string) (params : list node) (c : node) : Prop :=
  exists e,
    as_record c = Some e
    /\ r_label e = funcName +:+ "_entry"
    /\ r_value e = StringLiteral funcName
    /\ meta "functionName" (r_metadata e) = Some (StringLiteral funcName)
    /\ meta "context" (r_metadata e) = Some (StringLiteral (context +:+ "_entry"))
    /\ meta "hasParameters" (r_metadata e)
       = Some (BooleanLiteral match params with [] => false | _ => true end)
    /\ meta "parameterCount" (r_metadata e)
       = match params with
         | [] => None
         | _ => Some (NumericLiteral (Z.of_nat (length params)))
         end.

(** The function nodes [instrumentFunction] is called on, and the context
    their visitor passes. *)
Definition function_node (n : node) : bool :=
  match n with
  | ObjectMethod _ _ _ _ | ClassMethod _ _ _ _ _ | FunctionDeclaration _ _ _ _ => true
  | _ => false
  end.

Definition visitor_context (n : node) : string :=
  match n with
  | ObjectMethod _ _ _ _ => "object_method"
  | ClassMethod _ kind _ _ _ =>
      if String.eqb kind "constructor" then "constructor" else "class_method"
  | _ => "function_declaration"
  end.

Lemma parameter_call_named funcName filename context i p name :
  parameter_name p = Some name ->
  exists c,
    parameter_call funcName filename context i p = Some c
    /\ parameter_record funcName context (i, name) c.
Proof.
  unfold parameter_name, parameter_call. intros Hname.
  destruct (extractParameterInfo p) as [info|]; [|done]. simpl in Hname. rewrite Hname.
  destruct (getLocationInfo p) as [l c].
  eexists. split; [reflexivity|]. eexists. split; [apply as_record_create|]. by repeat split.
Qed.

Lemma parameter_call_unnamed funcName filename context i p :
  parameter_name p = None -> parameter_call funcName filename context i p = None.
Proof.
  unfold parameter_name, parameter_call. intros Hname.
  destruct (extractParameterInfo p) as [info|]; [|done]. simpl in Hname. by rewrite Hname.
Qed.

Lemma parameter_calls_from funcName filename context (k : nat) params :
  Forall2 (parameter_record funcName context) (named_parameters k params)
          (omap (fun ip => parameter_call funcName filename context (fst ip) (snd ip))
                (imap (fun i p => (k + i, p)%nat) params)).
Proof.
  revert k. induction params as [|p params IH]; intros k; [constructor|].
  assert (Hrest : imap ((fun i p => (k + i, p)%nat) ∘ S) params
                  = imap (fun i p => (S k + i, p)%nat) params).
  { apply imap_ext. intros i x _. simpl. f_equal. lia. }
  cbn [imap named_parameters]. rewrite Hrest, Nat.add_0_r. csimpl.
  destruct (parameter_name p) as [name|] eqn:Hp.
  - destruct (parameter_call_named funcName filename context k p name Hp) as (c & -> & Hc).
    constructor; [done|apply IH].
  - rewrite (parameter_call_unnamed funcName filename context k p Hp). apply IH.
Qed.

Lemma parameter_calls_records funcName filename context params :
  parameter_records funcName context params (parameter_calls funcName filename context params).
Proof. apply (parameter_calls_from funcName filename context 0 params). Qed.

(** The statements [instrumentFunction] inserts are the entry record and
    the records of the named parameters. *)
Lemma function_statements_records (n : node) (funcName filename context : string) :
  exists entry calls,
    function_statements n funcName filename context = entry :: calls
    /\ entry_record funcName context (node_params n) entry
    /\ parameter_records funcName (context +:+ "_parameter") (node_params n) calls.
Proof.
  unfold function_statements. destruct (getLocationInfo n) as [l c].
  destruct (node_params n) as [|p params] eqn:Hparams.
  - cbn [length Nat.eqb]. eexists _, []. split; [reflexivity|]. split; [|constructor].
    eexists. split; [apply as_record_create|]. by repeat split.
  - cbn [length Nat.eqb]. eexists _, _. split; [reflexivity|].
    split; [|apply parameter_calls_records].
    eexists. split; [apply as_record_create|]. by repeat split.
Qed.

Lemma traverse_block (filename : string) (b : list node) (st : gset string) body' st' :
  traverse filename (BlockStatement b) st = Some (body', st') ->
  exists b', body' = BlockStatement b' /\ traverse_list (traverse filename) b st = Some (b', st').
Proof.
  cbn [traverse]. unfold mbind, T_bind.
  destruct (traverse_list _ b st) as [[b' s]|]; [|done].
  intros [= <- <-]. by exists b'.
Qed.

(** What the traversal does at a function node it enters for the first
    time: the children are traversed, and the statements of
    [instrumentFunction], computed on the node as the parser gave it, are in
    front of the traversed body. *)
Lemma traverse_function (filename : string) (n : node) (name : string) (st : gset string) n' st' :
  function_node n = true ->
  visitor_name n = NameString name ->
  visitor_key n ∉ st ->
  traverse filename n st = Some (n', st') ->
  exists body body' st1,
    node_body n = Some body
    /\ traverse filename body st1 = Some (body', st')
    /\ node_body n'
       = Some (unshift_block (function_statements n name filename (visitor_context n)) body').
Proof.
  intros Hn Hname Hfresh. unfold visitor_key in Hfresh. rewrite Hname in Hfresh.
  destruct n; try done; cbn [visitor_name] in Hname;
    cbn [traverse]; unfold visit_function, first_visit, mbind, T_bind;
    rewrite Hname, decide_False by done; cbn [string_name mret T_ret];
    cbn [visitor_context node_body].
  all: repeat match goal with
              | |- context [match ?x with Some _ => _ | None => _ end] =>
                  destruct x as [[? ?]|] eqn:?; [|done]
              end.
  all: intros [= <- <-]; eexists _, _, _; split; [reflexivity|]; split; [eassumption|reflexivity].
Qed.

(** The parts of a function node hold no node a visitor handles. *)
Definition plain_parts (n : node) : bool :=
  match n with
  | ObjectMethod _ key params body | ClassMethod _ _ key params body =>
      unhandled key && forallb unhandled params && unhandled body
  | FunctionDeclaration _ id params body =>
      match id with Some i => unhandled i | None => true end
      && forallb unhandled params && unhandled body
  | VariableDeclarator _ id (Some (ArrowFunctionExpression _ params body)) =>
      unhandled id && forallb unhandled params && unhandled body
  | _ => false
  end.

(** On a function whose parts hold no further function, what the visitor
    and the traversal make of the node is [instrumentFunction] of it, and
    [instrumentArrowFunction] of a declarator. *)
Lemma traverse_plain_function (filename : string) (n : node) (name : string) (st : gset string) :
  function_node n = true ->
  visitor_name n = NameString name ->
  visitor_key n ∉ st ->
  plain_parts n = true ->
  traverse filename n st
  = Some (instrumentFunction n name filename (visitor_context n), {[visitor_key n]} ∪ st).
Proof.
  intros Hn Hname Hfresh Hplain. unfold visitor_key in *. rewrite Hname in *.
  assert (Hlist : forall l (s : gset string),
             forallb unhandled l = true -> traverse_list (traverse filename) l s = Some (l, s)).
  { intros l s Hl. apply traverse_list_unhandled, Forall_forall. intros x Hx s'.
    apply traverse_unhandled. rewrite forallb_forall in Hl. by apply Hl, list_elem_of_In. }
  destruct n; try done; cbn [visitor_name] in Hname; cbn [plain_parts] in Hplain;
    apply andb_true_iff in Hplain as [[Hkey Hparams]%andb_true_iff Hbody];
    cbn [traverse]; unfold visit_function, first_visit, mbind, T_bind;
    rewrite Hname, decide_False by done; cbn [string_name mret T_ret];
    unfold instrumentFunction; cbn [node_body with_body visitor_context];
    try (destruct id as [i|]; cbn [traverse_option]; unfold mbind, T_bind; cbn [mret T_ret]);
    repeat match goal with
           | |- context [traverse_list ?f ?l ?s] =>
               replace (traverse_list f l s) with (Some (l, s))
                 by (symmetry; by apply Hlist);
               unfold mret, T_ret; cbv beta iota
           | |- context [traverse ?f ?x ?s] =>
               replace (traverse f x s) with (Some (x, s))
                 by (symmetry; by apply traverse_unhandled);
               unfold mret, T_ret; cbv beta iota
           end;
    reflexivity.
Qed.

Lemma traverse_plain_arrow (filename : string) pos id apos params body (name : string)
    (st : gset string) :
  let n := VariableDeclarator pos id (Some (ArrowFunctionExpression apos params body)) in
  declarator_name id = NameString name ->
  visitor_key n ∉ st ->
  plain_parts n = true ->
  traverse filename n st = Some (instrumentArrowFunction n name filename, {[visitor_key n]} ∪ st).
Proof.
  cbv zeta. intros Hname Hfresh Hplain. unfold visitor_key in *. cbn [visitor_name] in *.
  cbn [plain_parts] in Hplain.
  apply andb_true_iff in Hplain as [[Hid Hparams]%andb_true_iff Hbody].
  assert (Hlist : forall l (s : gset string),
             forallb unhandled l = true -> traverse_list (traverse filename) l s = Some (l, s)).
  { intros l s Hl. apply traverse_list_unhandled, Forall_forall. intros x Hx s'.
    apply traverse_unhandled. rewrite forallb_forall in Hl. by apply Hl, list_elem_of_In. }
  cbn [traverse]. unfold first_visit, mbind, T_bind.
  rewrite decide_False by done. cbn [mret T_ret].
  repeat match goal with
         | |- context [traverse_list ?f ?l ?s] =>
             replace (traverse_list f l s) with (Some (l, s))
               by (symmetry; by apply Hlist);
             unfold mret, T_ret; cbv beta iota
         | |- context [traverse ?f ?x ?s] =>
             replace (traverse f x s) with (Some (x, s))
               by (symmetry; by apply traverse_unhandled);
             unfold mret, T_ret; cbv beta iota
         end.
  by rewrite Hname.
Qed.

Lemma traverse_arrow_declarator (filename : string) pos id apos params body name
    (st : gset string) n' st' :
  declarator_name id = NameString name ->
  visitor_key (VariableDeclarator pos id (Some (ArrowFunctionExpression apos params body))) ∉ st ->
  traverse filename (VariableDeclarator pos id (Some (ArrowFunctionExpression apos params body))) st
  = Some (n', st') ->
  exists id' params' body' st1,
    traverse filename body st1 = Some (body', st')
    /\ n' = VariableDeclarator pos id'
              (Some (ArrowFunctionExpression apos params'
                       (arrow_body (ArrowFunctionExpression apos params body) name filename body'))).
Proof.
  intros Hname Hfresh. unfold visitor_key in Hfresh. cbn [visitor_name] in Hfresh.
  cbn [traverse]. unfold first_visit, mbind, T_bind.
  rewrite decide_False by done. rewrite Hname in *. cbn [name_text mret T_ret].
  destruct (traverse filename id _) as [[id' s1]|]; [|done].
  destruct (traverse_list _ params s1) as [[params' s2]|]; [|done].
  destruct (traverse filename body s2) as [[body' s3]|] eqn:Hbody; [|done].
  intros [= <- <-]. by exists id', params', body', s2.
Qed.

(** [const f = x => x*2;], [function g() { }] and
    [function h({ a } = {}) { }]. *)
Definition arrow_f : list node :=
  [VariableDeclaration "const"
     [VariableDeclarator (at_ 6 1 6) (Identifier (at_ 6 1 6) "f" false)
        (Some (ArrowFunctionExpression (at_ 10 1 10) [Identifier (at_ 10 1 10) "x" false]
                 (OtherNode "BinaryExpression"
                            [Identifier (at_ 15 1 15) "x" false; NumericLiteral 2])))]].

Definition function_g : node :=
  FunctionDeclaration (at_ 0 1 0) (Some (Identifier (at_ 9 1 9) "g" false)) []
                      (BlockStatement []).

Definition function_h : node :=
  FunctionDeclaration (at_ 0 1 0) (Some (Identifier (at_ 9 1 9) "h" false))
    [AssignmentPattern (at_ 11 1 11) (ObjectPattern (at_ 11 1 11) [] false) (ObjectExpression [])]
    (BlockStatement []).

(** Against C5 as worded, in three ways: the arrow function gets no entry
    record; the entry record of a function without parameters carries no
    parameter count; a defaulted pattern parameter gets no record. *)
Lemma entry_and_parameter_records_missing :
  labels_of "t.js" arrow_f = Some ["f_param_x"]
  /\ (exists e,
        as_record <$> function_statements function_g "g" "t.js" "function_declaration" = [Some e]
        /\ r_label e = "g_entry"
        /\ meta "parameterCount" (r_metadata e) = None
        /\ meta "hasParameters" (r_metadata e) = Some (BooleanLiteral false))
  /\ labels_of "t.js" [function_h] = Some ["h_entry"].
Proof.
  split; [vm_compute; reflexivity|]. split; [|vm_compute; reflexivity].
  eexists. split; [reflexivity|]. by repeat split.
Qed.

(** C5, as the instrumenter has it.  Take a traversal that reaches a node
    for the first time, the names the visitors compute at the node and
    below it being strings, so that it goes through.

    At a function declaration, a class method, a constructor or an object
    method the visitor puts in front of the traversed body exactly one
    entry record, labelled [<name>_entry] under the context
    [<context>_entry], and after it one record for each formal parameter
    the instrumenter names, in order and with the index the parameter has
    in the declared list; a parameter of another form gets none.  The entry
    record carries [hasParameters: true] and the number of declared
    parameters when there is one, [hasParameters: false] and no count
    otherwise.

    At a variable declarator bound to an arrow function the visitor inserts
    the records of the named parameters only, in front of the traversed
    block or of [return <expression>], and nothing when the arrow function
    has no parameter.

    The parameters the instrumenter names are the identifiers, also with a
    default, as a rest element or as a parameter property, under their own
    name when it is not empty, and the object and array patterns, under
    [destructured_object] and [destructured_array]. *)
Theorem function_records (filename : string) (st : gset string) :
  (forall (n : node) (name : string) (b : list node),
      function_node n = true ->
      visitor_name n = NameString name ->
      node_body n = Some (BlockStatement b) ->
      visitor_key n ∉ st ->
      forallb instrumentable (visited n) = true ->
      exists n' st' entry calls b' st1,
        traverse filename n st = Some (n', st')
        /\ node_body n' = Some (BlockStatement (entry :: calls ++ b'))
        /\ traverse_list (traverse filename) b st1 = Some (b', st')
        /\ entry_record name (visitor_context n) (node_params n) entry
        /\ parameter_records name (visitor_context n +:+ "_parameter") (node_params n) calls)
  /\ (forall pos (id : node) apos (params : list node) (body : node) (name : string),
        declarator_name id = NameString name ->
        visitor_key (VariableDeclarator pos id (Some (ArrowFunctionExpression apos params body)))
          ∉ st ->
        forallb instrumentable
                (visited (VariableDeclarator pos id
                            (Some (ArrowFunctionExpression apos params body)))) = true ->
        exists id' params' body' st' st1 calls,
          traverse filename
                   (VariableDeclarator pos id (Some (ArrowFunctionExpression apos params body))) st
          = Some (VariableDeclarator pos id'
                    (Some (ArrowFunctionExpression apos params'
                             match params with
                             | [] => body'
                             | _ => BlockStatement
                                      (calls ++ match body' with
                                                | BlockStatement statements => statements
                                                | _ => [ReturnStatement (Some body')]
                                                end)
                             end)),
                  st')
          /\ traverse filename body st1 = Some (body', st')
          /\ parameter_records name "arrow_function_parameter" params calls)
  /\ (forall p : node,
        parameter_name p
        = match p with
          | Identifier _ name _
          | AssignmentPattern _ (Identifier _ name _) _
          | RestElement _ (Identifier _ name _)
          | TSParameterProperty _ _ (Identifier _ name _)
          | TSParameterProperty _ _ (AssignmentPattern _ (Identifier _ name _) _)
          | AssignmentPattern _ (TSParameterProperty _ _ (Identifier _ name _)) _ =>
              if String.eqb name EmptyString then None else Some name
          | ObjectPattern _ _ _ => Some "destructured_object"
          | ArrayPattern _ _ _ => Some "destructured_array"
          | _ => None
          end).
Proof.
  split; [|split].
  - intros n name b Hn Hname Hbody Hfresh Hnamed.
    destruct (proj1 (traverse_follows_bounded filename (size n) n (le_n _) st) Hnamed)
      as [[n' st'] Htraverse].
    destruct (traverse_function filename n name st n' st' Hn Hname Hfresh Htraverse)
      as (body & body' & st1 & Hbody0 & Htb & Hbody').
    rewrite Hbody in Hbody0. injection Hbody0 as <-.
    apply traverse_block in Htb as (b' & -> & Hb').
    destruct (function_statements_records n name filename (visitor_context n))
      as (entry & calls & Hstatements & Hentry & Hcalls).
    exists n', st', entry, calls, b', st1.
    rewrite Hbody', Hstatements. by split_and!.
  - intros pos id apos params body name Hname Hfresh Hnamed.
    set (n := VariableDeclarator pos id (Some (ArrowFunctionExpression apos params body))) in *.
    destruct (proj1 (traverse_follows_bounded filename (size n) n (le_n _) st) Hnamed)
      as [[n' st'] Htraverse].
    destruct (traverse_arrow_declarator filename pos id apos params body name st n' st'
                Hname Hfresh Htraverse)
      as (id' & params' & body' & st1 & Htb & ->).
    exists id', params', body', st', st1,
           (parameter_calls name filename "arrow_function_parameter" params).
    split; [|split; [done|apply parameter_calls_records]].
    rewrite Htraverse. unfold arrow_body. cbn [node_params].
    destruct params as [|p params]; [done|]. cbn [length Nat.eqb]. by destruct body'.
  - intros p. unfold parameter_name, extractParameterInfo.
    destruct p; try reflexivity;
      repeat match goal with
             | |- context [match ?x with _ => _ end] => is_var x; destruct x; try reflexivity
             end.
Qed.

(** [function f(a, b) { return a + b; }], the first scenario, and
    [function toggle(todoId, { silent } = {}) { }], whose second parameter
    the instrumenter does not name. *)
Definition function_f : node :=
  FunctionDeclaration (at_ 0 1 0) (Some (Identifier (at_ 9 1 9) "f" false))
    [Identifier (at_ 11 1 11) "a" false; Identifier (at_ 13 1 13) "b" false]
    (BlockStatement
       [ReturnStatement
          (Some (OtherNode "BinaryExpression"
                           [Identifier (at_ 24 1 24) "a" false;
                            Identifier (at_ 26 1 26) "b" false]))]).

Definition function_toggle : node :=
  FunctionDeclaration (at_ 0 1 0) (Some (Identifier (at_ 9 1 9) "toggle" false))
    [ AssignmentPattern (at_ 16 1 16)
        (ObjectPattern (at_ 16 1 16)
           [ObjectProperty (Identifier (at_ 18 1 18) "silent" false)
                           (Identifier (at_ 18 1 18) "silent" false)] false)
        (ObjectExpression []);
      Identifier (at_ 33 1 33) "todoId" false ]
    (BlockStatement []).

Lemma function_records_witness :
  (exists n' st' entry calls b' st1,
      traverse "t.js" function_toggle ∅ = Some (n', st')
      /\ node_body n' = Some (BlockStatement (entry :: calls ++ b'))
      /\ traverse_list (traverse "t.js") [] st1 = Some (b', st')
      /\ entry_record "toggle" "function_declaration" (node_params function_toggle) entry
      /\ parameter_records "toggle" "function_declaration_parameter"
                           (node_params function_toggle) calls)
  /\ named_parameters 0 (node_params function_toggle) = [(1%nat, "todoId")]
  /\ labels_of "t.js" [function_toggle] = Some ["toggle_entry"; "toggle_param_todoId"]
  /\ labels_of "t.js" [function_f] = Some ["f_entry"; "f_param_a"; "f_param_b"]
  /\ labels_of "t.js" arrow_f = Some ["f_param_x"].
Proof.
  split; [|split; [reflexivity|split; [|split]]; vm_compute; reflexivity].
  apply (proj1 (function_records "t.js" ∅) function_toggle "toggle" []);
    [reflexivity|reflexivity|reflexivity|apply not_elem_of_empty|reflexivity].
Defined.

End InstrumenterFacts.

(** * Further properties of the code *)

(** ** The store over a history of batches *)

Section History.
Import Collector Rows.

(** The batches a collector received, each with the time of its
    transaction. *)
Definition history : Type := list (timestamp * list entry).

Definition run (h : history) (s : store) : store :=
  fold_left (fun s b => store_of (processTypeData (fst b) (snd b) s)) h s.

Lemma ingest_invariant (P : store -> Prop) :
  (forall now e s, P s -> P (step now e s)) ->
  forall now es s, P s -> P (ingest now es s).
Proof.
  intros Hstep now es. induction es as [|e es IH]; intros s Hs; [done|].
  rewrite ingest_cons. by apply IH, Hstep.
Qed.

Lemma run_invariant (P : store -> Prop) :
  (forall now e s, P s -> P (step now e s)) ->
  forall h s, P s -> P (run h s).
Proof.
  intros Hstep h. induction h as [|[now es] h IH]; intros s Hs; [done|].
  unfold run. simpl. rewrite processTypeData_commits. simpl.
  by apply IH, ingest_invariant.
Qed.

Lemma values_of_named e x :
  x ∈ values_of e -> exists file, str_or_null (filename e) = Some file.
Proof.
  unfold values_of. destruct (str_or_null (filename e)) as [file|]; [by exists file|].
  by intros ?%elem_of_nil.
Qed.

Lemma hof_ops_named e x :
  x ∈ hof_ops e -> exists file, str_or_null (filename e) = Some file.
Proof.
  unfold hof_ops. destruct (str_or_null (filename e)) as [file|]; [by exists file|].
  by intros ?%elem_of_nil.
Qed.

End History.

(** ** Properties every row of a table keeps *)

Section RowInvariants.
Import Collector Rows.

Lemma upsert_Forall {R : Type} (P : R -> Prop) (hit : R -> bool) (bump : R -> R) (fresh : R)
    (tbl : list R) :
  (forall r, P r -> P (bump r)) -> P fresh -> Forall P tbl -> Forall P (upsert hit bump fresh tbl).
Proof.
  intros Hbump Hfresh. induction tbl as [|r t IH]; intros Hall; simpl.
  - by constructor.
  - apply Forall_cons in Hall as [Hr Ht]. destruct (hit r); constructor; auto.
Qed.

Lemma fold_left_Forall {R T : Type} (P : R -> Prop) (f : list R -> T -> list R)
    (l : list T) (tbl : list R) :
  (forall tbl x, x ∈ l -> Forall P tbl -> Forall P (f tbl x)) ->
  Forall P tbl -> Forall P (fold_left f l tbl).
Proof.
  revert tbl. induction l as [|x l IH]; intros tbl Hf Hall; [done|].
  simpl. apply IH.
  - intros tbl' y Hy. apply Hf. by right.
  - apply Hf; [by left|done].
Qed.

(** What is known of a row that a record adds. *)
Lemma step_value_observations_Forall (P : value_observation_row -> Prop) now e s :
  (forall r, P r -> P (vo_bump now r)) ->
  (forall file id value loc,
      str_or_null (filename e) = Some file -> value <> JNull ->
      P (mkValueObservation id (eid_of now e s) (getValueType value)
           (serializeLiteralValue value (getValueType value))
           (hashValue (serializeLiteralValue value (getValueType value)))
           (enhancedContext (fn_of e) (context_of e)) 1 now now loc)) ->
  Forall P (value_observations s) -> Forall P (value_observations (step now e s)).
Proof.
  intros Hbump Hfresh Hall. rewrite step_vo. apply fold_left_Forall; [|done].
  intros tbl [raw loc] Hx Htbl. destruct (values_of_named e _ Hx) as [file Hfile].
  unfold observe. cbn [fst snd].
  destruct raw as [value|]; [|done].
  assert (Hup : value <> JNull ->
                Forall P (upsertValueObservation (eid_of now e s) (getValueType value)
                            (serializeLiteralValue value (getValueType value))
                            (hashValue (serializeLiteralValue value (getValueType value)))
                            (enhancedContext (fn_of e) (context_of e))
                            (sourceLocationStr loc (line_of e) (column_of e)) now tbl)).
  { intros Hne. apply upsert_Forall; [done| |done]. by eapply Hfresh. }
  destruct value; try done; by apply Hup.
Qed.

Lemma step_string_literals_Forall (P : string_literal_row -> Prop) now e s :
  (forall r, P r -> P (sl_bump now r)) ->
  (forall file id str,
      str_or_null (filename e) = Some file -> isEnumCandidateString str = true ->
      P (mkStringLiteral id (eid_of now e s) str 1 "parameter" now now)) ->
  Forall P (string_literals s) -> Forall P (string_literals (step now e s)).
Proof.
  intros Hbump Hfresh Hall. rewrite step_sl. apply fold_left_Forall; [|done].
  intros tbl [raw loc] Hx Htbl. destruct (values_of_named e _ Hx) as [file Hfile].
  unfold sl_observe. cbn [fst snd].
  destruct raw as [[| | |str| |]|]; try done.
  destruct (isEnumCandidateString str) eqn:Hstr; [|done].
  apply upsert_Forall; [done| |done]. by eapply Hfresh.
Qed.

Lemma step_object_shapes_Forall (P : object_shape_row -> Prop) now e s :
  (forall r, P r -> P (os_bump now r)) ->
  (forall file id fields sh,
      str_or_null (filename e) = Some file -> analyzeObjectShape (JObj fields) = Some sh ->
      P (mkObjectShape id (eid_of now e s) (signature sh) (propertyNames sh) (propertyTypes sh)
                       1 now now)) ->
  Forall P (object_shapes s) -> Forall P (object_shapes (step now e s)).
Proof.
  intros Hbump Hfresh Hall. rewrite step_os. apply fold_left_Forall; [|done].
  intros tbl [raw loc] Hx Htbl. destruct (values_of_named e _ Hx) as [file Hfile].
  unfold os_observe. cbn [fst snd].
  destruct raw as [[| | | | |fields]|]; try done.
  destruct (analyzeObjectShape (JObj fields)) as [sh|] eqn:Hsh; [|done].
  apply upsert_Forall; [done| |done]. by eapply Hfresh.
Qed.

Lemma step_hof_relationships_Forall (P : hof_relationship_row -> Prop) now e s :
  (forall r, P r -> P (hof_bump now r)) ->
  (forall file id callee argIndex,
      str_or_null (filename e) = Some file ->
      P (mkHofRelationship id (eid_of now e s) callee argIndex file now now 1)) ->
  Forall P (hof_relationships s) -> Forall P (hof_relationships (step now e s)).
Proof.
  intros Hbump Hfresh Hall. rewrite step_hof. apply fold_left_Forall; [|done].
  intros tbl [[callee argIndex] file] Hx Htbl.
  unfold hof_ops in Hx.
  destruct (str_or_null (filename e)) as [file'|] eqn:Hfile; [|by apply elem_of_nil in Hx].
  destruct (str_or_null (calleeName (md_of e))), (calleeArgIndex (md_of e)) as [[]|];
    try (by apply elem_of_nil in Hx).
  apply list_elem_of_singleton in Hx. inv Hx.
  unfold hof_observe. cbn [fst snd]. apply upsert_Forall; [done| |done]. by eapply Hfresh.
Qed.

Lemma updateEntity_Forall (P : entity_row -> Prop) fn ln cn ctx id tbl :
  (forall r, P r ->
     P (mkEntity (e_id r) (e_filename r) (coalesce fn (e_entity_name r)) ctx
                 (e_offset_position r) (coalesce ln (e_line_number r))
                 (coalesce cn (e_column_number r))
                 (e_first_seen r) (e_last_seen r) (e_observation_count r))) ->
  Forall P tbl -> Forall P (updateEntity fn ln cn ctx id tbl).
Proof.
  intros Hup Hall. unfold updateEntity. apply Forall_forall. intros r Hr.
  change (map ?f ?l) with (f <$> l) in Hr.
  apply list_elem_of_fmap in Hr as (r0 & -> & Hr0). rewrite Forall_forall in Hall.
  destruct (e_id r0 =? id); auto.
Qed.

Lemma step_entities_Forall (P : entity_row -> Prop) now e s :
  (forall r, P r -> P (entity_bump now r)) ->
  (forall r fn ln cn ctx, P r ->
     P (mkEntity (e_id r) (e_filename r) (coalesce fn (e_entity_name r)) ctx
                 (e_offset_position r) (coalesce ln (e_line_number r))
                 (coalesce cn (e_column_number r))
                 (e_first_seen r) (e_last_seen r) (e_observation_count r))) ->
  (forall file, str_or_null (filename e) = Some file ->
     P (mkEntity (next_id e_id e_observation_count (entities s)) file None "unknown" (offset e)
                 None None now now 1)) ->
  Forall P (entities s) -> Forall P (entities (step now e s)).
Proof.
  intros Hbump Hup Hfresh Hall. rewrite step_entities.
  destruct (str_or_null (filename e)) as [file|] eqn:Hfile; [|done].
  rewrite head_store_entities. cbv zeta.
  assert (Hups : Forall P (snd (upsertEntity file (offset e) now (entities s)))).
  { unfold upsertEntity. cbn [snd]. apply upsert_Forall; auto. }
  destruct (updates_entity e); [|done].
  apply updateEntity_Forall; [|done]. intros r. apply Hup.
Qed.

End RowInvariants.

(** ** The hash of a literal *)

Section Hash.
Import Collector.

(** A lower-case hexadecimal digit. *)
Definition is_hex_digit (c : ascii) : bool :=
  ((48 <=? Js.code c) && (Js.code c <=? 57)) || ((97 <=? Js.code c) && (Js.code c <=? 102)).

Lemma hex_digit_is_hex (z : Z) : 0 <= z < 16 -> is_hex_digit (Js.hex_digit z) = true.
Proof.
  intros Hz. replace z with (Z.of_nat (Z.to_nat z)) by lia.
  assert (Hn : (Z.to_nat z < 16)%nat) by lia. revert Hn. generalize (Z.to_nat z) as n.
  intros n Hn. do 16 (destruct n as [|n]; [reflexivity|]). lia.
Qed.

Lemma hex_byte_is_hex (w i : Z) :
  Forall (fun c => is_hex_digit c = true) (Md5.hex_byte (Z.land (Z.shiftr w i) 255)).
Proof.
  assert (Hb : 0 <= Z.land (Z.shiftr w i) 255 < 256).
  { change 255 with (Z.ones 8). rewrite Z.land_ones by lia. apply Z.mod_pos_bound. lia. }
  unfold Md5.hex_byte. repeat constructor; apply hex_digit_is_hex.
  - split; [apply Z.div_pos; lia|apply Z.div_lt_upper_bound; lia].
  - apply Z.mod_pos_bound. lia.
Qed.

Lemma md5_hex_chars (s : string) :
  length (Js.chars (Md5.md5_hex s)) = 32%nat
  /\ Forall (fun c => is_hex_digit c = true) (Js.chars (Md5.md5_hex s)).
Proof.
  unfold Md5.md5_hex. destruct (Md5.blocks _ _ _) as [[[A B] C] D].
  unfold Js.chars, Js.str. rewrite list_ascii_of_string_of_list_ascii.
  split; [reflexivity|].
  unfold Md5.le_bytes. cbn [map app concat].
  repeat (apply Forall_app; split; [apply hex_byte_is_hex|]). constructor.
Qed.

End Hash.

Section HashValue.
Import Collector.

Lemma length_str (l : list ascii) : String.length (Js.str l) = length l.
Proof. induction l as [|c l IH]; [done|]. simpl. by rewrite IH. Qed.

Lemma chars_str (l : list ascii) : Js.chars (Js.str l) = l.
Proof. apply list_ascii_of_string_of_list_ascii. Qed.

Lemma str_chars (s : string) : Js.str (Js.chars s) = s.
Proof. apply string_of_list_ascii_of_string. Qed.

Lemma length_chars (s : string) : length (Js.chars s) = String.length s.
Proof. by rewrite <- (str_chars s) at 2; rewrite length_str. Qed.

(** Text of one-byte characters: its code units are its bytes. *)
Definition one_byte (l : list ascii) : Prop := Forall (fun c => Js.code c < 128) l.

Lemma one_byte_not_continuation (c : ascii) : Js.code c < 128 -> Js.is_continuation c = false.
Proof. intros Hc. unfold Js.is_continuation. destruct (Z.leb_spec 128 (Js.code c)); [lia|done]. Qed.

Lemma take_units_one_byte (n : nat) (l : list ascii) :
  one_byte l -> Js.take_units n l = take n l.
Proof.
  intros Hl. revert n. induction Hl as [|c l Hc _ IH]; intros n; [by destruct n|].
  simpl. rewrite (one_byte_not_continuation c Hc). destruct n as [|n]; [done|].
  destruct (Z.ltb_spec (Js.code c) 240); [|lia]. simpl. by rewrite IH.
Qed.

Lemma code_points_one_byte (cur : option Z) (l : list ascii) :
  one_byte l ->
  Js.code_points_from cur l = match cur with Some p => [p] | None => [] end ++ (Js.code <$> l).
Proof.
  intros Hl. revert cur. induction Hl as [|c l Hc _ IH]; intros cur.
  - simpl. by rewrite app_nil_r.
  - simpl. rewrite (one_byte_not_continuation c Hc).
    destruct (Z.ltb_spec (Js.code c) 192); [|lia]. rewrite !IH. by destruct cur.
Qed.

Lemma units_one_byte (s : string) : one_byte (Js.chars s) -> Js.units s = Js.code <$> Js.chars s.
Proof.
  intros Hs. unfold Js.units, Js.code_points. rewrite code_points_one_byte by done. simpl.
  induction Hs as [|c l Hc _ IH]; [done|]. csimpl. rewrite IH. unfold Js.units_of.
  destruct (Z.ltb_spec (Js.code c) 65536); [done|lia].
Qed.

Lemma slength_one_byte (s : string) :
  one_byte (Js.chars s) -> Js.slength s = Z.of_nat (length (Js.chars s)).
Proof. intros Hs. unfold Js.slength. by rewrite units_one_byte, length_fmap. Qed.

Lemma hex_digit_one_byte (c : ascii) : is_hex_digit c = true -> Js.code c < 128.
Proof. unfold is_hex_digit. lia. Qed.

(** X1. The hash [hashValue] gives a literal is always eight characters
    long, each of them a lower-case hexadecimal digit, whatever the
    literal. *)
Theorem hashValue_eight_hex_digits (literalValue : string) :
  Js.slength (hashValue literalValue) = 8
  /\ forallb is_hex_digit (Js.chars (hashValue literalValue)) = true.
Proof.
  destruct (md5_hex_chars literalValue) as [Hlen Hhex].
  assert (Hone : one_byte (Js.chars (Md5.md5_hex literalValue))).
  { eapply Forall_impl; [done|]. intros c. apply hex_digit_one_byte. }
  assert (Hhash : Js.chars (hashValue literalValue) = take 8 (Js.chars (Md5.md5_hex literalValue))).
  { unfold hashValue, Js.slice0. by rewrite chars_str, take_units_one_byte. }
  split.
  - rewrite slength_one_byte; rewrite Hhash.
    + by rewrite length_take, Hlen.
    + by apply Forall_take.
  - rewrite Hhash. apply forallb_forall. intros c Hc%list_elem_of_In.
    rewrite Forall_forall in Hhex. apply Hhex.
    eapply (subseteq_take 8); done.
Qed.

End HashValue.

(** ** Invariants of the store *)

Section StoreInvariants.
Import Collector Rows.

Lemma fold_left_table {R T : Type} (Q : list R -> Prop) (f : list R -> T -> list R)
    (l : list T) (tbl : list R) :
  (forall tbl x, x ∈ l -> Q tbl -> Q (f tbl x)) -> Q tbl -> Q (fold_left f l tbl).
Proof.
  revert tbl. induction l as [|x l IH]; intros tbl Hf Hq; [done|].
  simpl. apply IH.
  - intros tbl' y Hy. apply Hf. by right.
  - apply Hf; [by left|done].
Qed.

(** *** Row ids *)

Lemma largest_id_above {R : Type} (rid : R -> Z) (tbl : list R) (r : R) :
  r ∈ tbl -> rid r <= fold_right (fun r m => Z.max (rid r) m) 0 tbl.
Proof.
  induction tbl as [|r' t IH]; intros Hin; [by apply elem_of_nil in Hin|].
  simpl. apply elem_of_cons in Hin as [->|Hin]; [lia|]. specialize (IH Hin). lia.
Qed.

Lemma largest_id_positive {R : Type} (rid : R -> Z) (tbl : list R) :
  0 <= fold_right (fun r m => Z.max (rid r) m) 0 tbl.
Proof. induction tbl as [|r' t IH]; simpl; lia. Qed.

Lemma next_id_above {R : Type} (rid count : R -> Z) (tbl : list R) (r : R) :
  r ∈ tbl -> rid r < next_id rid count tbl.
Proof. intros Hin. unfold next_id. pose proof (largest_id_above rid tbl r Hin). lia. Qed.

Lemma next_id_positive {R : Type} (rid count : R -> Z) (tbl : list R) :
  0 < next_id rid count tbl.
Proof. unfold next_id. pose proof (largest_id_positive rid tbl). lia. Qed.

(** The ids of a table are positive and pairwise distinct. *)
Definition ids_ok {R : Type} (rid : R -> Z) (tbl : list R) : Prop :=
  NoDup (rid <$> tbl) /\ Forall (fun r => 0 < rid r) tbl.

Lemma upsert_ids {R : Type} (rid : R -> Z) (hit : R -> bool) (bump : R -> R) (fresh : R)
    (tbl : list R) :
  (forall r, rid (bump r) = rid r) ->
  rid <$> upsert hit bump fresh tbl = rid <$> tbl
  \/ rid <$> upsert hit bump fresh tbl = (rid <$> tbl) ++ [rid fresh].
Proof.
  intros Hbump. induction tbl as [|r t IH]; simpl; [by right|].
  destruct (hit r); csimpl.
  - left. by rewrite Hbump.
  - destruct IH as [->| ->]; [by left|by right].
Qed.

Lemma upsert_ids_ok {R : Type} (rid count : R -> Z) (hit : R -> bool) (bump : R -> R)
    (fresh : R) (tbl : list R) :
  (forall r, rid (bump r) = rid r) -> rid fresh = next_id rid count tbl ->
  ids_ok rid tbl -> ids_ok rid (upsert hit bump fresh tbl).
Proof.
  intros Hbump Hfresh [Hnd Hpos]. split.
  - destruct (upsert_ids rid hit bump fresh tbl Hbump) as [->| ->]; [done|].
    apply NoDup_app. split; [done|]. split; [|apply NoDup_singleton].
    intros x Hx Hf. apply list_elem_of_singleton in Hf. subst x.
    apply list_elem_of_fmap in Hx as (r & Heq & Hr).
    pose proof (next_id_above rid count tbl r Hr). lia.
  - apply upsert_Forall; [by intros r; rewrite Hbump| |done].
    rewrite Hfresh. apply next_id_positive.
Qed.

Definition row_ids (s : store) : Prop :=
  ids_ok e_id (entities s) /\ ids_ok vo_id (value_observations s)
  /\ ids_ok sl_id (string_literals s) /\ ids_ok os_id (object_shapes s)
  /\ ids_ok hof_id (hof_relationships s).

Lemma updateEntity_ids fn ln cn ctx id tbl :
  e_id <$> updateEntity fn ln cn ctx id tbl = e_id <$> tbl.
Proof.
  unfold updateEntity. change (map ?f ?l) with (f <$> l).
  rewrite <- list_fmap_compose. apply list_fmap_ext. intros i r _. simpl.
  by destruct (e_id r =? id).
Qed.

Lemma step_row_ids now e s : row_ids s -> row_ids (step now e s).
Proof.
  intros (HE & HV & HS & HO & HH). unfold row_ids. split_and!.
  - rewrite step_entities. destruct (str_or_null (filename e)) as [file|]; [|apply HE].
    rewrite head_store_entities. cbv zeta.
    assert (Hup : ids_ok e_id (snd (upsertEntity file (offset e) now (entities s)))).
    { unfold upsertEntity. cbn [snd]. by apply (upsert_ids_ok _ e_observation_count). }
    destruct (updates_entity e); [|apply Hup]. split.
    + rewrite updateEntity_ids. apply Hup.
    + apply updateEntity_Forall; [done|apply Hup].
  - rewrite step_vo. apply (fold_left_table (ids_ok vo_id)); [|done].
    intros tbl [raw loc] _ Htbl. unfold observe. cbn [fst snd].
    destruct raw as [[]|]; try done; by apply (upsert_ids_ok _ vo_observation_count).
  - rewrite step_sl. apply (fold_left_table (ids_ok sl_id)); [|done].
    intros tbl [raw loc] _ Htbl. unfold sl_observe. cbn [fst snd].
    destruct raw as [[| | |str| |]|]; try done.
    destruct (isEnumCandidateString str); [|done].
    by apply (upsert_ids_ok _ sl_observation_count).
  - rewrite step_os. apply (fold_left_table (ids_ok os_id)); [|done].
    intros tbl [raw loc] _ Htbl. unfold os_observe. cbn [fst snd].
    destruct raw as [[| | | | |fields]|]; try done.
    destruct (analyzeObjectShape (JObj fields)); [|done].
    by apply (upsert_ids_ok _ os_observation_count).
  - rewrite step_hof. apply (fold_left_table (ids_ok hof_id)); [|done].
    intros tbl x _ Htbl. by apply (upsert_ids_ok _ hof_observation_count).
Qed.

Lemma empty_row_ids : row_ids empty_store.
Proof. unfold row_ids, ids_ok. split_and!; constructor. Qed.

End StoreInvariants.

Section References.
Import Collector Rows.

Lemma ident_ids (tbl : list entity_row) : (e_ident <$> tbl).*2 = e_id <$> tbl.
Proof. by rewrite <- list_fmap_compose. Qed.

Lemma first_id_elem_id k l i : first_id k l = Some i -> i ∈ l.*2.
Proof.
  induction l as [|[k' j] l IH]; [done|]. simpl. case_decide; intros Hi.
  - inv Hi. by left.
  - right. by apply IH.
Qed.

Lemma step_entity_ids now e s : (e_id <$> entities s) ⊆ (e_id <$> entities (step now e s)).
Proof.
  rewrite <- !ident_ids. destruct (step_idents_prefix now e s) as [rest ->].
  rewrite fmap_app. intros x Hx. apply elem_of_app. by left.
Qed.

Lemma step_entity_id now e s file :
  str_or_null (filename e) = Some file -> eid_of now e s ∈ e_id <$> entities (step now e s).
Proof.
  intros Hfile. rewrite <- ident_ids. eapply first_id_elem_id. by apply step_first_id.
Qed.

(** Every row of the four dependent tables names an entity of the
    store. *)
Definition references (s : store) : Prop :=
  Forall (fun v => vo_entity_id v ∈ e_id <$> entities s) (value_observations s)
  /\ Forall (fun l => sl_entity_id l ∈ e_id <$> entities s) (string_literals s)
  /\ Forall (fun o => os_entity_id o ∈ e_id <$> entities s) (object_shapes s)
  /\ Forall (fun h => hof_callback_entity_id h ∈ e_id <$> entities s) (hof_relationships s).

Lemma step_references now e s : references s -> references (step now e s).
Proof.
  intros (HV & HS & HO & HH). unfold references. split_and!.
  - apply step_value_observations_Forall; [done| |].
    + intros file id value loc Hfile _. simpl. by eapply step_entity_id.
    + eapply Forall_impl; [done|]. intros v Hv. by apply step_entity_ids.
  - apply step_string_literals_Forall; [done| |].
    + intros file id str Hfile _. simpl. by eapply step_entity_id.
    + eapply Forall_impl; [done|]. intros v Hv. by apply step_entity_ids.
  - apply step_object_shapes_Forall; [done| |].
    + intros file id fields sh Hfile _. simpl. by eapply step_entity_id.
    + eapply Forall_impl; [done|]. intros v Hv. by apply step_entity_ids.
  - apply step_hof_relationships_Forall; [done| |].
    + intros file id callee argIndex Hfile. simpl. by eapply step_entity_id.
    + eapply Forall_impl; [done|]. intros v Hv. by apply step_entity_ids.
Qed.

Lemma empty_references : references empty_store.
Proof. unfold references. split_and!; constructor. Qed.

(** *** Counters, hashes and string literals *)

(** Every counter of the store is at least one. *)
Definition counted (s : store) : Prop :=
  Forall (fun r => 1 <= e_observation_count r) (entities s)
  /\ Forall (fun r => 1 <= vo_observation_count r) (value_observations s)
  /\ Forall (fun r => 1 <= sl_observation_count r) (string_literals s)
  /\ Forall (fun r => 1 <= os_observation_count r) (object_shapes s)
  /\ Forall (fun r => 1 <= hof_observation_count r) (hof_relationships s).

Lemma step_counted now e s : counted s -> counted (step now e s).
Proof.
  intros (HE & HV & HS & HO & HH). unfold counted. split_and!.
  - apply step_entities_Forall; simpl; try done; intros; simpl; lia.
  - apply step_value_observations_Forall; simpl; try done; intros; simpl; lia.
  - apply step_string_literals_Forall; simpl; try done; intros; simpl; lia.
  - apply step_object_shapes_Forall; simpl; try done; intros; simpl; lia.
  - apply step_hof_relationships_Forall; simpl; try done; intros; simpl; lia.
Qed.

Lemma empty_counted : counted empty_store.
Proof. unfold counted. split_and!; constructor. Qed.

(** The stored hash of a value observation is the hash of its stored
    literal, and its stored type is never ["null"]. *)
Definition hashed (s : store) : Prop :=
  Forall (fun r => vo_value_hash r = hashValue (vo_literal_value r)) (value_observations s).

Lemma step_hashed now e s : hashed s -> hashed (step now e s).
Proof. intros HV. by apply step_value_observations_Forall. Qed.

(** The string literals the collector keeps. *)
Definition candidates (s : store) : Prop :=
  Forall (fun r => isEnumCandidateString (sl_string_value r) = true
                   /\ sl_context r = "parameter") (string_literals s).

Lemma step_candidates now e s : candidates s -> candidates (step now e s).
Proof. intros HS. by apply step_string_literals_Forall. Qed.

End References.

(** ** Groups of a [GROUP BY] *)

Section Groups.
Import Queries.
Context {A K : Type} `{EqDecision K} (key : A -> K).

Lemma add_to_group_fst (k : K) (x : A) (groups : list (K * list A)) :
  (add_to_group k x groups).*1 = if decide (k ∈ groups.*1) then groups.*1 else groups.*1 ++ [k].
Proof.
  induction groups as [|[k' g] t IH].
  - destruct (decide (k ∈ ([] : list (K * list A)).*1)) as [Hin|Hin]; [|done].
    by apply elem_of_nil in Hin.
  - cbn [add_to_group]. destruct (decide (k' = k)) as [Hk|Hk]; csimpl.
    + subst. destruct (decide (k ∈ k :: t.*1)) as [Hin|Hin]; [done|].
      exfalso. apply Hin. by left.
    + rewrite IH. destruct (decide (k ∈ t.*1)) as [Hin|Hin];
        destruct (decide (k ∈ k' :: t.*1)) as [Hin'|Hin']; try done.
      * exfalso. apply Hin'. by right.
      * apply elem_of_cons in Hin' as [->|?]; done.
Qed.

Lemma add_to_group_concat (k : K) (x : A) (groups : list (K * list A)) :
  concat (add_to_group k x groups).*2 ≡ₚ x :: concat groups.*2.
Proof.
  induction groups as [|[k' g] t IH]; simpl; [done|].
  case_decide; csimpl.
  - rewrite <- app_assoc. simpl. by rewrite <- Permutation_middle.
  - rewrite IH. by rewrite <- Permutation_middle.
Qed.

Lemma group_by_NoDup (l : list A) : NoDup (group_by key l).*1.
Proof.
  unfold group_by.
  assert (Hgen : forall groups, NoDup groups.*1 ->
            NoDup (fold_left (fun gs x => add_to_group (key x) x gs) l groups).*1).
  { induction l as [|x l IH]; intros groups Hnd; [done|]. simpl. apply IH.
    rewrite add_to_group_fst. case_decide as Hin; [done|].
    apply NoDup_app. split; [done|]. split; [|apply NoDup_singleton].
    intros y Hy Hk. apply list_elem_of_singleton in Hk. by subst. }
  apply Hgen. constructor.
Qed.

Lemma group_by_concat (l : list A) : concat (group_by key l).*2 ≡ₚ l.
Proof.
  unfold group_by.
  assert (Hgen : forall groups,
            concat (fold_left (fun gs x => add_to_group (key x) x gs) l groups).*2
            ≡ₚ concat groups.*2 ++ l).
  { induction l as [|x l IH]; intros groups; simpl; [by rewrite app_nil_r|].
    rewrite IH, add_to_group_concat. by rewrite <- Permutation_middle. }
  by rewrite Hgen.
Qed.

End Groups.

(** ** What the collector keeps, over any history *)

Section CollectorInvariants.
Import Collector Rows.

(** X2. After any history of batches, starting from the empty store, the
    key columns of every table identify its rows
    ([UNIQUE(filename, offset_position)] and the like are never at stake)
    and so do the row ids, which are positive. *)
Theorem keys_and_ids_unique (h : history) :
  unique_keys (run h empty_store) /\ row_ids (run h empty_store).
Proof.
  split; apply run_invariant.
  - intros. by apply step_unique.
  - apply empty_unique.
  - intros. by apply step_row_ids.
  - apply empty_row_ids.
Qed.

(** X3. After any history of batches, every value observation, string
    literal, object shape and higher-order relationship refers to an
    entity that is in the store: the collector leaves no dangling
    [entity_id]. *)
Theorem no_dangling_references (h : history) :
  let s := run h empty_store in
  Forall (fun v => vo_entity_id v ∈ e_id <$> entities s) (value_observations s)
  /\ Forall (fun l => sl_entity_id l ∈ e_id <$> entities s) (string_literals s)
  /\ Forall (fun o => os_entity_id o ∈ e_id <$> entities s) (object_shapes s)
  /\ Forall (fun r => hof_callback_entity_id r ∈ e_id <$> entities s) (hof_relationships s).
Proof.
  cbv zeta. apply (run_invariant references).
  - intros. by apply step_references.
  - apply empty_references.
Qed.

Lemma includes_character (c : ascii) (s : list ascii) :
  Js.includes_at [c] s = false -> filter (fun x => x = c) s = [].
Proof.
  induction s as [|b s IH]; [done|]. simpl.
  destruct (Ascii.eqb_spec c b) as [->|Hne]; [done|]. simpl. intros Hs.
  rewrite filter_cons_False by congruence. by apply IH.
Qed.

Lemma isEnumCandidateString_true (value : string) :
  isEnumCandidateString value = true ->
  1 <= Js.slength value <= 50
  /\ Js.includes value "/" = false
  /\ Js.includes value (Js.str [Js.backslash]) = false
  /\ Js.includes value "http" = false
  /\ Js.all_digits value = false
  /\ Js.split_count " " value <= 3.
Proof.
  unfold isEnumCandidateString.
  destruct (Z.eqb_spec (Js.slength value) 0), (Z.ltb_spec 50 (Js.slength value)); try done.
  cbn [orb].
  destruct (Js.includes value "/"); [done|].
  destruct (Js.includes value (Js.str [Js.backslash])); [done|]. cbn [orb].
  destruct (Js.includes value "http"); [done|].
  destruct (Js.all_digits value); [done|].
  destruct (Js.includes value " ") eqn:Hspace; cbn [andb].
  - destruct (Z.ltb_spec 3 (Js.split_count " " value)); [done|].
    intros _. split_and!; try done; unfold Js.slength in *; lia.
  - intros _. split_and!; try done; [unfold Js.slength in *; lia..|].
    unfold Js.split_count. unfold Js.includes in Hspace.
    change (Js.chars " ") with [" "%char] in Hspace.
    rewrite (includes_character _ _ Hspace). simpl. lia.
Qed.

(** X4. The table [string_literals] only ever holds enum candidates: after
    any history of batches each of its rows has the context
    ["parameter"] and a string whose length, in the UTF-16 code units
    [value.length] counts, is 1 to 50, and that holds no slash,
    no backslash and no ["http"], is not a run of digits and has at most
    two spaces. *)
Theorem string_literals_are_enum_candidates (h : history) :
  Forall (fun r => sl_context r = "parameter"
                   /\ 1 <= Js.slength (sl_string_value r) <= 50
                   /\ Js.includes (sl_string_value r) "/" = false
                   /\ Js.includes (sl_string_value r) (Js.str [Js.backslash]) = false
                   /\ Js.includes (sl_string_value r) "http" = false
                   /\ Js.all_digits (sl_string_value r) = false
                   /\ Js.split_count " " (sl_string_value r) <= 3)
         (string_literals (run h empty_store)).
Proof.
  assert (Hc : candidates (run h empty_store)).
  { apply run_invariant; [intros; by apply step_candidates|constructor]. }
  eapply Forall_impl; [apply Hc|]. intros r [Hr Hctx]. simpl.
  split; [done|]. by apply isEnumCandidateString_true.
Qed.

End CollectorInvariants.

(** ** Counting records and values *)

Section Totals.
Import Collector Rows Queries.

Lemma upsert_sum {R : Type} (cnt : R -> Z) (hit : R -> bool) (bump : R -> R) (fresh : R)
    (tbl : list R) :
  (forall r, cnt (bump r) = cnt r + 1) -> cnt fresh = 1 ->
  sum (cnt <$> upsert hit bump fresh tbl) = sum (cnt <$> tbl) + 1.
Proof.
  intros Hbump Hfresh. induction tbl as [|r t IH]; simpl; [lia|].
  destruct (hit r); csimpl; [rewrite Hbump|rewrite IH]; lia.
Qed.

(** A record that carries a file name: the loop body does not skip it. *)
Definition named (e : entry) : bool := bool_decide (is_Some (str_or_null (filename e))).

(** The values of a record that reach [processLiteralValue]: those of a
    named record with a value list that is not abandoned at the callee
    relationship, [null] and [undefined] left out. *)
Definition values_recorded (e : entry) : list json :=
  match str_or_null (filename e), types e with
  | Some _, Some values =>
      if hof_throws e then []
      else omap (fun x : observed => match fst x with
                                     | None | Some JNull => None
                                     | Some value => Some value
                                     end) values
  | _, _ => []
  end.

Definition records_named (h : history) : Z :=
  sum ((fun b => Z.of_nat (length (List.filter named (snd b)))) <$> h).

Definition values_observed (h : history) : Z :=
  sum ((fun b => sum ((fun e => Z.of_nat (length (values_recorded e))) <$> snd b)) <$> h).

Lemma updateEntity_counts fn ln cn ctx id tbl :
  e_observation_count <$> updateEntity fn ln cn ctx id tbl = e_observation_count <$> tbl.
Proof.
  unfold updateEntity. change (map ?f ?l) with (f <$> l).
  rewrite <- list_fmap_compose. apply list_fmap_ext. intros i r _. simpl.
  by destruct (e_id r =? id).
Qed.

Lemma step_entity_sum now e s :
  sum (e_observation_count <$> entities (step now e s))
  = sum (e_observation_count <$> entities s) + (if named e then 1 else 0).
Proof.
  rewrite step_entities. unfold named.
  destruct (str_or_null (filename e)) as [file|]; simpl; [|lia].
  rewrite head_store_entities. cbv zeta.
  assert (Hup : sum (e_observation_count <$> snd (upsertEntity file (offset e) now (entities s)))
                = sum (e_observation_count <$> entities s) + 1).
  { unfold upsertEntity. cbn [snd]. by apply upsert_sum. }
  destruct (updates_entity e); [by rewrite updateEntity_counts|done].
Qed.

Lemma step_value_sum now e s :
  sum (vo_observation_count <$> value_observations (step now e s))
  = sum (vo_observation_count <$> value_observations s) + Z.of_nat (length (values_recorded e)).
Proof.
  rewrite step_vo. unfold values_of, values_recorded.
  generalize (eid_of now e s) as eid. intros eid.
  destruct (str_or_null (filename e)) as [file|]; [|simpl; lia].
  destruct (types e) as [values|]; [|simpl; lia].
  destruct (hof_throws e); [simpl; lia|].
  generalize (value_observations s) as tbl.
  induction values as [|[raw loc] values IH]; intros tbl; [simpl; lia|].
  cbn [fold_left omap list_omap fst]. rewrite IH. unfold observe. cbn [fst snd].
  assert (Hup : forall value,
            sum (vo_observation_count <$>
                   upsertValueObservation eid (getValueType value)
                     (serializeLiteralValue value (getValueType value))
                     (hashValue (serializeLiteralValue value (getValueType value)))
                     (enhancedContext (fn_of e) (context_of e))
                     (sourceLocationStr loc (line_of e) (column_of e)) now tbl)
            = sum (vo_observation_count <$> tbl) + 1).
  { intros value. by apply upsert_sum. }
  destruct raw as [[]|]; rewrite ?Hup; cbn [length]; lia.
Qed.

Lemma ingest_entity_sum now es s :
  sum (e_observation_count <$> entities (ingest now es s))
  = sum (e_observation_count <$> entities s) + Z.of_nat (length (List.filter named es)).
Proof.
  revert s. induction es as [|e es IH]; intros s; [simpl; lia|].
  rewrite ingest_cons, IH, step_entity_sum. cbn [List.filter].
  destruct (named e); cbn [length]; lia.
Qed.

Lemma ingest_value_sum now es s :
  sum (vo_observation_count <$> value_observations (ingest now es s))
  = sum (vo_observation_count <$> value_observations s)
    + sum ((fun e => Z.of_nat (length (values_recorded e))) <$> es).
Proof.
  revert s. induction es as [|e es IH]; intros s; [simpl; ring|].
  rewrite ingest_cons, IH, step_value_sum. csimpl. ring.
Qed.

Lemma run_cons now es h s : run ((now, es) :: h) s = run h (ingest now es s).
Proof. unfold run. simpl. by rewrite processTypeData_commits. Qed.

Lemma run_entity_sum h s :
  sum (e_observation_count <$> entities (run h s))
  = sum (e_observation_count <$> entities s) + records_named h.
Proof.
  unfold records_named. revert s. induction h as [|[now es] h IH]; intros s; [simpl; ring|].
  rewrite run_cons, IH, ingest_entity_sum. csimpl. ring.
Qed.

Lemma run_value_sum h s :
  sum (vo_observation_count <$> value_observations (run h s))
  = sum (vo_observation_count <$> value_observations s) + values_observed h.
Proof.
  unfold values_observed. revert s. induction h as [|[now es] h IH]; intros s; [simpl; ring|].
  rewrite run_cons, IH, ingest_value_sum. csimpl. ring.
Qed.

Lemma sum_at_least {R : Type} (cnt : R -> Z) (l : list R) :
  Forall (fun r => 1 <= cnt r) l -> Z.of_nat (length l) <= sum (cnt <$> l).
Proof. induction 1; csimpl; lia. Qed.

Lemma count_distinct_length {A : Type} `{EqDecision A} (l : list A) :
  0 <= count_distinct l <= Z.of_nat (length l).
Proof.
  unfold count_distinct. split; [lia|]. apply inj_le.
  apply submseteq_length, NoDup_submseteq; [apply NoDup_remove_dups|].
  intros x. by rewrite elem_of_remove_dups.
Qed.

Lemma run_counted h : counted (run h empty_store).
Proof. apply run_invariant; [intros; by apply step_counted|apply empty_counted]. Qed.

End Totals.

(** ** Statistics *)

Section Statistics.
Import Collector Rows Queries Stats.

Global Instance sum_Permutation : Proper ((≡ₚ) ==> (=)) sum.
Proof. intros l1 l2 Hp. induction Hp; simpl; lia. Qed.

Lemma sum_app (l1 l2 : list Z) : sum (l1 ++ l2) = sum l1 + sum l2.
Proof. induction l1 as [|x l1 IH]; simpl; lia. Qed.

(** The rows of the value-type statement before they are sorted. *)
Lemma value_type_rows (l : list value_observation_row) :
  let rows := omap (fun g => value_type_of_group (snd g)) (group_by vo_value_type l) in
  vt_value_type <$> rows = (group_by vo_value_type l).*1
  /\ sum (vt_unique_values <$> rows) = Z.of_nat (length l)
  /\ sum (vt_total_observations <$> rows) = sum (vo_observation_count <$> l)
  /\ Forall (fun r => 1 <= vt_unique_values r) rows.
Proof.
  cbv zeta.
  assert (Hgen : forall groups : list (string * list value_observation_row),
            grouped vo_value_type groups ->
            let rows := omap (fun g => value_type_of_group (snd g)) groups in
            vt_value_type <$> rows = groups.*1
            /\ sum (vt_unique_values <$> rows) = Z.of_nat (length (concat groups.*2))
            /\ sum (vt_total_observations <$> rows)
               = sum (vo_observation_count <$> concat groups.*2)
            /\ Forall (fun r => 1 <= vt_unique_values r) rows).
  { intros groups Hg. induction groups as [|[k g] t IH]; [by repeat split|].
    destruct (Hg k g) as [Hne Hkey]; [by left|].
    destruct IH as (IH1 & IH2 & IH3 & IH4); [intros ? ? ?; apply Hg; by right|].
    destruct g as [|v g]; [done|]. cbv zeta in *. csimpl.
    rewrite IH1, IH2, IH3. split_and!.
    - f_equal. apply Hkey. by left.
    - rewrite length_app. simpl. lia.
    - rewrite fmap_app, sum_app. simpl. lia.
    - constructor; [simpl; lia|done]. }
  destruct (Hgen _ (group_by_grouped vo_value_type l)) as (H1 & H2 & H3 & H4).
  pose proof (group_by_concat vo_value_type l) as Hperm.
  split_and!; [done| | |done].
  - by rewrite H2, Hperm.
  - by rewrite H3, Hperm.
Qed.

Lemma run_ids_subset {A : Type} (f : A -> Z) (l : list A) (s : store) :
  NoDup (e_id <$> entities s) ->
  Forall (fun r => f r ∈ e_id <$> entities s) l ->
  count_distinct (f <$> l) <= Z.of_nat (length (entities s)).
Proof.
  intros Hnd Hall. unfold count_distinct. apply inj_le.
  rewrite <- (length_fmap e_id (entities s)).
  apply submseteq_length, NoDup_submseteq; [apply NoDup_remove_dups|].
  intros x Hx. apply elem_of_remove_dups, list_elem_of_fmap in Hx as (r & -> & Hr).
  rewrite Forall_forall in Hall. by apply Hall.
Qed.

(** X5. After any history of batches, the overview of [getStats] reports
    as [total_observations] the number of records that carried a file
    name, whether or not they could be processed further ([NULL] when
    there was none); there are at most that many entities, and at most as
    many files as entities. *)
Theorem stats_count_named_records (h : history) :
  let o := overview (getStats (run h empty_store)) in
  total_observations o = (if records_named h =? 0 then None else Some (records_named h))
  /\ 0 <= unique_files o <= total_entities o
  /\ total_entities o <= records_named h.
Proof.
  cbv zeta. cbn [getStats overview entity_overview total_observations unique_files total_entities].
  pose proof (run_entity_sum h empty_store) as Hsum. cbn [entities empty_store] in Hsum.
  change (sum (e_observation_count <$> [])) with 0 in Hsum. rewrite Z.add_0_l in Hsum.
  destruct (run_counted h) as (HE & _).
  apply sum_at_least in HE. rewrite Hsum in HE.
  split_and!.
  - unfold sum_or_null. revert Hsum HE.
    destruct (entities (run h empty_store)) as [|r t]; intros Hsum HE.
    + simpl in Hsum. by rewrite <- Hsum.
    + rewrite Hsum. cbn [length] in HE.
      destruct (Z.eqb_spec (records_named h) 0); [lia|done].
  - apply count_distinct_length.
  - pose proof (count_distinct_length (e_filename <$> entities (run h empty_store))) as Hc.
    rewrite length_fmap in Hc. lia.
  - done.
Qed.

(** X6. In every store, the rows [getStats] reports per value type carry
    pairwise distinct types and partition the value observations: their
    [unique_values] add up to the number of rows of the table, their
    [total_observations] to the sum of its counters, and they come in
    descending order of [total_observations]. *)
Theorem value_types_partition (s : store) :
  let rows := valueTypes (getStats s) in
  NoDup (vt_value_type <$> rows)
  /\ sum (vt_unique_values <$> rows) = Z.of_nat (length (value_observations s))
  /\ sum (vt_total_observations <$> rows) = sum (vo_observation_count <$> value_observations s)
  /\ Forall (fun r => 1 <= vt_unique_values r) rows
  /\ Sorted value_type_before rows.
Proof.
  cbv zeta. cbn [getStats valueTypes]. unfold valueTypeStats, in_key_order.
  destruct (value_type_rows (value_observations s)) as (H1 & H2 & H3 & H4). cbv zeta in *.
  split_and!.
  - rewrite order_by_Permutation, merge_sort_Permutation, H1. apply group_by_NoDup.
  - by rewrite order_by_Permutation, merge_sort_Permutation.
  - by rewrite order_by_Permutation, merge_sort_Permutation.
  - by rewrite order_by_Permutation, merge_sort_Permutation.
  - apply Sorted_order_by. intros a b. unfold value_type_before. lia.
Qed.

(** X7. After any history of batches, the [total_observations] that
    [getStats] reports per value type add up to the number of values the
    collector recorded: the values, other than [null] and [undefined], of
    the records that carried a file name and a value list and were not
    abandoned at the callee relationship (a callee name with the argument
    index [null]). *)
Theorem stats_count_recorded_values (h : history) :
  sum (vt_total_observations <$> valueTypes (getStats (run h empty_store))) = values_observed h.
Proof.
  cbn [getStats valueTypes]. unfold valueTypeStats, in_key_order.
  rewrite order_by_Permutation, merge_sort_Permutation.
  destruct (value_type_rows (value_observations (run h empty_store))) as (_ & _ & -> & _).
  by rewrite run_value_sum.
Qed.

(** X8. After any history of batches, the enum and object analyses of the
    collector's [getStats] are bounded as their names suggest: the
    entities with strings are at most the entities of the store and at
    most the string literals, which are at most the string observations;
    and the same for the object shapes. *)
Theorem analyses_bounded (h : history) :
  let s := run h empty_store in
  0 <= entities_with_strings (enumCandidates s) <= total_entities (overview (getStats s))
  /\ entities_with_strings (enumCandidates s) <= total_string_literals (enumCandidates s)
  /\ total_string_literals (enumCandidates s)
     <= default 0 (total_string_observations (enumCandidates s))
  /\ 0 <= entities_with_objects (objectShapes s) <= total_entities (overview (getStats s))
  /\ entities_with_objects (objectShapes s) <= unique_object_shapes (objectShapes s)
  /\ unique_object_shapes (objectShapes s)
     <= default 0 (total_object_observations (objectShapes s)).
Proof.
  cbv zeta. set (s := run h empty_store).
  assert (Hids : row_ids s) by (apply run_invariant; [intros; by apply step_row_ids|apply empty_row_ids]).
  destruct Hids as ([Hnd _] & _).
  assert (Href : references s).
  { apply run_invariant; [intros; by apply step_references|apply empty_references]. }
  destruct Href as (_ & HS & HO & _).
  destruct (run_counted h) as (_ & _ & CS & CO & _). fold s in CS, CO.
  cbn [enumCandidates objectShapes getStats overview entity_overview total_entities
       entities_with_strings total_string_literals total_string_observations
       entities_with_objects unique_object_shapes total_object_observations].
  pose proof (count_distinct_length (sl_entity_id <$> string_literals s)) as Hs.
  pose proof (count_distinct_length (os_entity_id <$> object_shapes s)) as Ho.
  rewrite length_fmap in Hs. rewrite length_fmap in Ho.
  pose proof (run_ids_subset sl_entity_id _ s Hnd HS) as Hs'.
  pose proof (run_ids_subset os_entity_id _ s Hnd HO) as Ho'.
  apply sum_at_least in CS. apply sum_at_least in CO.
  split_and!; try lia.
  - unfold sum_or_null. destruct (string_literals s); simpl in *; lia.
  - unfold sum_or_null. destruct (object_shapes s); simpl in *; lia.
Qed.

End Statistics.

(** ** Tables only grow *)

Section Growth.
Context {R : Type} (later : R -> R -> Prop).
Context `{!Reflexive later, !Transitive later}.

(** [b] holds the rows of [a], each possibly at a later state, in the
    same order and in front of the rows that are new. *)
Definition extends (a b : list R) : Prop :=
  exists a' rest, b = a' ++ rest /\ Forall2 later a a'.

Lemma later_all (a : list R) : Forall2 later a a.
Proof. induction a; by constructor. Qed.

Lemma later_trans (a b c : list R) : Forall2 later a b -> Forall2 later b c -> Forall2 later a c.
Proof.
  intros Hab. revert c. induction Hab as [|x y a b Hxy Hab IH]; intros c Hbc; [by inv Hbc|].
  inv Hbc. constructor; [by etrans|by apply IH].
Qed.

Lemma extends_refl (a : list R) : extends a a.
Proof. exists a, []. split; [by rewrite app_nil_r|apply later_all]. Qed.

Lemma extends_trans (a b c : list R) : extends a b -> extends b c -> extends a c.
Proof.
  intros (a' & rest & -> & Ha) (b' & rest' & -> & Hb).
  apply Forall2_app_inv_l in Hb as (a'' & rest'' & Ha' & Hrest & ->).
  exists a'', (rest'' ++ rest'). split; [by rewrite app_assoc|].
  by eapply later_trans.
Qed.

Lemma upsert_extends (hit : R -> bool) (bump : R -> R) (fresh : R) (tbl : list R) :
  (forall r, later r (bump r)) -> extends tbl (Collector.upsert hit bump fresh tbl).
Proof.
  intros Hbump. induction tbl as [|r t IH]; simpl.
  - exists [], [fresh]. by split.
  - destruct (hit r).
    + exists (bump r :: t), []. split; [by rewrite app_nil_r|].
      constructor; [done|apply later_all].
    + destruct IH as (t' & rest & -> & Ht). exists (r :: t'), rest. split; [done|].
      by constructor.
Qed.

Lemma fmap_extends (f : R -> R) (tbl : list R) :
  (forall r, later r (f r)) -> extends tbl (f <$> tbl).
Proof.
  intros Hf. exists (f <$> tbl), []. split; [by rewrite app_nil_r|].
  induction tbl; csimpl; by constructor.
Qed.

Lemma fold_left_extends {T : Type} (f : list R -> T -> list R) (l : list T) (tbl : list R) :
  (forall tbl x, extends tbl (f tbl x)) -> extends tbl (fold_left f l tbl).
Proof.
  intros Hf. revert tbl. induction l as [|x l IH]; intros tbl; [apply extends_refl|].
  simpl. eapply extends_trans; [apply Hf|apply IH].
Qed.

End Growth.

Section StoreGrowth.
Import Collector Rows.

(** A counter and its [last_seen] between two states of a row, in a
    transaction at time [now]: both as they were, or the counter larger
    and [last_seen] at [now]. *)
Definition touched (now : timestamp) (count count' : Z) (seen seen' : timestamp) : Prop :=
  (count' = count /\ seen' = seen) \/ (count < count' /\ seen' = now).

Definition entity_later (now : timestamp) (r r' : entity_row) : Prop :=
  e_id r' = e_id r /\ e_filename r' = e_filename r
  /\ e_offset_position r' = e_offset_position r /\ e_first_seen r' = e_first_seen r
  /\ touched now (e_observation_count r) (e_observation_count r') (e_last_seen r) (e_last_seen r')
  /\ (is_Some (e_entity_name r) -> is_Some (e_entity_name r'))
  /\ (is_Some (e_line_number r) -> is_Some (e_line_number r'))
  /\ (is_Some (e_column_number r) -> is_Some (e_column_number r')).

Definition value_observation_later (now : timestamp) (r r' : value_observation_row) : Prop :=
  vo_id r' = vo_id r /\ vo_entity_id r' = vo_entity_id r /\ vo_value_type r' = vo_value_type r
  /\ vo_literal_value r' = vo_literal_value r /\ vo_value_hash r' = vo_value_hash r
  /\ vo_context r' = vo_context r /\ vo_first_seen r' = vo_first_seen r
  /\ vo_source_location r' = vo_source_location r
  /\ touched now (vo_observation_count r) (vo_observation_count r')
             (vo_last_seen r) (vo_last_seen r').

Definition string_literal_later (now : timestamp) (r r' : string_literal_row) : Prop :=
  sl_id r' = sl_id r /\ sl_entity_id r' = sl_entity_id r
  /\ sl_string_value r' = sl_string_value r /\ sl_context r' = sl_context r
  /\ sl_first_seen r' = sl_first_seen r
  /\ touched now (sl_observation_count r) (sl_observation_count r')
             (sl_last_seen r) (sl_last_seen r').

Definition object_shape_later (now : timestamp) (r r' : object_shape_row) : Prop :=
  os_id r' = os_id r /\ os_entity_id r' = os_entity_id r
  /\ os_shape_signature r' = os_shape_signature r /\ os_property_names r' = os_property_names r
  /\ os_property_types r' = os_property_types r /\ os_first_seen r' = os_first_seen r
  /\ touched now (os_observation_count r) (os_observation_count r')
             (os_last_seen r) (os_last_seen r').

Definition hof_relationship_later (now : timestamp) (r r' : hof_relationship_row) : Prop :=
  hof_id r' = hof_id r /\ hof_callback_entity_id r' = hof_callback_entity_id r
  /\ hof_callee_name r' = hof_callee_name r /\ hof_callee_arg_index r' = hof_callee_arg_index r
  /\ hof_source_filename r' = hof_source_filename r /\ hof_first_seen r' = hof_first_seen r
  /\ touched now (hof_observation_count r) (hof_observation_count r')
             (hof_last_seen r) (hof_last_seen r').

Lemma touched_refl now c t : touched now c c t t.
Proof. by left. Qed.

Lemma touched_trans now c1 c2 c3 t1 t2 t3 :
  touched now c1 c2 t1 t2 -> touched now c2 c3 t2 t3 -> touched now c1 c3 t1 t3.
Proof. unfold touched. intros [[-> ->]|[? ->]] [[-> ->]|[? ->]]; (by left) || (right; split; [lia|done]). Qed.

Lemma touched_bump now c t : touched now c (c + 1) t now.
Proof. right. split; [lia|done]. Qed.

Global Instance entity_later_refl now : Reflexive (entity_later now).
Proof. intros r. unfold entity_later. split_and!; auto using touched_refl. Qed.

Global Instance entity_later_trans now : Transitive (entity_later now).
Proof.
  intros a b c (?&?&?&?&?&?&?&?) (?&?&?&?&?&?&?&?). unfold entity_later.
  split_and!; try congruence; eauto using touched_trans.
Qed.

Global Instance value_observation_later_refl now : Reflexive (value_observation_later now).
Proof. intros r. unfold value_observation_later. split_and!; auto using touched_refl. Qed.

Global Instance value_observation_later_trans now : Transitive (value_observation_later now).
Proof.
  intros a b c (?&?&?&?&?&?&?&?&?) (?&?&?&?&?&?&?&?&?). unfold value_observation_later.
  split_and!; try congruence; eauto using touched_trans.
Qed.

Global Instance string_literal_later_refl now : Reflexive (string_literal_later now).
Proof. intros r. unfold string_literal_later. split_and!; auto using touched_refl. Qed.

Global Instance string_literal_later_trans now : Transitive (string_literal_later now).
Proof.
  intros a b c (?&?&?&?&?&?) (?&?&?&?&?&?). unfold string_literal_later.
  split_and!; try congruence; eauto using touched_trans.
Qed.

Global Instance object_shape_later_refl now : Reflexive (object_shape_later now).
Proof. intros r. unfold object_shape_later. split_and!; auto using touched_refl. Qed.

Global Instance object_shape_later_trans now : Transitive (object_shape_later now).
Proof.
  intros a b c (?&?&?&?&?&?&?) (?&?&?&?&?&?&?). unfold object_shape_later.
  split_and!; try congruence; eauto using touched_trans.
Qed.

Global Instance hof_relationship_later_refl now : Reflexive (hof_relationship_later now).
Proof. intros r. unfold hof_relationship_later. split_and!; auto using touched_refl. Qed.

Global Instance hof_relationship_later_trans now : Transitive (hof_relationship_later now).
Proof.
  intros a b c (?&?&?&?&?&?&?) (?&?&?&?&?&?&?). unfold hof_relationship_later.
  split_and!; try congruence; eauto using touched_trans.
Qed.

(** The store [s'] holds every row of [s], at the same place and with the
    same id, key and first-seen columns. *)
Definition store_extends (now : timestamp) (s s' : store) : Prop :=
  extends (entity_later now) (entities s) (entities s')
  /\ extends (value_observation_later now) (value_observations s) (value_observations s')
  /\ extends (string_literal_later now) (string_literals s) (string_literals s')
  /\ extends (object_shape_later now) (object_shapes s) (object_shapes s')
  /\ extends (hof_relationship_later now) (hof_relationships s) (hof_relationships s').

Lemma store_extends_refl now s : store_extends now s s.
Proof. unfold store_extends. split_and!; apply extends_refl; apply _. Qed.

Lemma store_extends_trans now a b c :
  store_extends now a b -> store_extends now b c -> store_extends now a c.
Proof.
  intros (?&?&?&?&?) (?&?&?&?&?). unfold store_extends.
  split_and!; (eapply extends_trans; try apply _; eassumption).
Qed.

Lemma step_extends now e s : store_extends now s (step now e s).
Proof.
  unfold store_extends. split_and!.
  - rewrite step_entities. destruct (str_or_null (filename e)) as [file|];
      [|apply extends_refl; apply _].
    rewrite head_store_entities. cbv zeta.
    assert (Hup : extends (entity_later now) (entities s)
                          (snd (upsertEntity file (offset e) now (entities s)))).
    { unfold upsertEntity. cbn [snd]. apply upsert_extends; try apply _.
      intros r. unfold entity_later, entity_bump. simpl. split_and!; auto using touched_bump. }
    destruct (updates_entity e); [|done].
    eapply extends_trans; try apply _; [apply Hup|]. unfold updateEntity.
    change (map ?f ?l) with (f <$> l). apply fmap_extends; try apply _.
    intros r. destruct (e_id r =? _); [|reflexivity].
    unfold entity_later. simpl. split_and!; auto using touched_refl.
    + destruct (fn_of e); simpl; [by eexists|done].
    + destruct (line_of e); simpl; [by eexists|done].
    + destruct (column_of e); simpl; [by eexists|done].
  - rewrite step_vo. apply fold_left_extends; try apply _.
    intros tbl [raw loc]. unfold observe. cbn [fst snd].
    assert (Hup : forall value, extends (value_observation_later now) tbl
              (upsertValueObservation (eid_of now e s) (getValueType value)
                 (serializeLiteralValue value (getValueType value))
                 (hashValue (serializeLiteralValue value (getValueType value)))
                 (enhancedContext (fn_of e) (context_of e))
                 (sourceLocationStr loc (line_of e) (column_of e)) now tbl)).
    { intros value. apply upsert_extends; try apply _. intros r.
      unfold value_observation_later, vo_bump. simpl. split_and!; auto using touched_bump. }
    destruct raw as [[]|]; try apply Hup; apply extends_refl; apply _.
  - rewrite step_sl. apply fold_left_extends; try apply _.
    intros tbl [raw loc]. unfold sl_observe. cbn [fst snd].
    destruct raw as [[| | |str| |]|]; try (apply extends_refl; apply _).
    destruct (isEnumCandidateString str); [|apply extends_refl; apply _].
    apply upsert_extends; try apply _. intros r.
    unfold string_literal_later, sl_bump. simpl. split_and!; auto using touched_bump.
  - rewrite step_os. apply fold_left_extends; try apply _.
    intros tbl [raw loc]. unfold os_observe. cbn [fst snd].
    destruct raw as [[| | | | |fields]|]; try (apply extends_refl; apply _).
    destruct (analyzeObjectShape (JObj fields)); [|apply extends_refl; apply _].
    apply upsert_extends; try apply _. intros r.
    unfold object_shape_later, os_bump. simpl. split_and!; auto using touched_bump.
  - rewrite step_hof. apply fold_left_extends; try apply _.
    intros tbl x. apply upsert_extends; try apply _. intros r.
    unfold hof_relationship_later, hof_bump. simpl. split_and!; auto using touched_bump.
Qed.

Lemma ingest_extends now es s : store_extends now s (ingest now es s).
Proof.
  revert s. induction es as [|e es IH]; intros s; [apply store_extends_refl|].
  rewrite ingest_cons. eapply store_extends_trans; [apply step_extends|apply IH].
Qed.

(** X9. A batch only adds to the store.  After [processTypeData], every
    row that was in a table is still there, at the same place, with the
    id, the key columns, the stored literal and [first_seen] it had;
    its counter and [last_seen] are as they were, or the counter is
    larger and [last_seen] is the time of the batch; a name, line or
    column an entity had is never taken away; new rows come behind the
    old ones. *)
Theorem batch_only_adds (now : timestamp) (entries : list entry) (s : store) :
  let s' := store_of (processTypeData now entries s) in
  extends (entity_later now) (entities s) (entities s')
  /\ extends (value_observation_later now) (value_observations s) (value_observations s')
  /\ extends (string_literal_later now) (string_literals s) (string_literals s')
  /\ extends (object_shape_later now) (object_shapes s) (object_shapes s')
  /\ extends (hof_relationship_later now) (hof_relationships s) (hof_relationships s').
Proof.
  cbv zeta. rewrite processTypeData_commits. cbn [store_of]. apply ingest_extends.
Qed.

End StoreGrowth.

(** ** What [call_count] counts *)

Section CallCount.
Import Collector Rows Queries.

Lemma keys_unique_run (h : history) :
  NoDup (vo_key <$> value_observations (run h empty_store))
  /\ NoDup (e_id <$> entities (run h empty_store)).
Proof.
  split.
  - assert (Hu : unique_keys (run h empty_store)).
    { apply run_invariant; [intros; by apply step_unique|apply empty_unique]. }
    apply Hu.
  - assert (Hi : row_ids (run h empty_store)).
    { apply run_invariant; [intros; by apply step_row_ids|apply empty_row_ids]. }
    apply Hi.
Qed.

Lemma NoDup_fmap_filter {A B : Type} (f : A -> B) (p : A -> bool) (l : list A) :
  NoDup (f <$> l) -> NoDup (f <$> List.filter p l).
Proof.
  induction l as [|x l IH]; [done|]. csimpl. intros [Hx Hl]%NoDup_cons.
  destruct (p x); csimpl; [|by apply IH]. apply NoDup_cons. split; [|by apply IH].
  intros Hin. apply Hx. apply list_elem_of_fmap in Hin as (y & -> & Hy).
  apply list_elem_of_fmap. exists y. split; [done|].
  apply list_elem_of_In, filter_In in Hy as [Hy _]. by apply list_elem_of_In.
Qed.

Lemma joined_rows (s : store) (row : entity_row * value_observation_row) :
  row ∈ joined s <->
  fst row ∈ entities s /\ snd row ∈ value_observations s
  /\ vo_entity_id (snd row) = e_id (fst row).
Proof.
  unfold joined. destruct row as [e v]. simpl. split.
  - intros Hin. apply list_elem_of_bind in Hin as (e' & Hin & He').
    apply list_elem_of_bind in Hin as (v' & Hin & Hv').
    apply list_elem_of_singleton in Hin. inv Hin.
    apply list_elem_of_In, filter_In in Hv' as [Hv' Hid]. apply list_elem_of_In in Hv'.
    split_and!; try done. lia.
  - intros (He & Hv & Hid). apply list_elem_of_bind. exists e. split; [|done].
    apply list_elem_of_bind. exists v. split; [by left|].
    apply list_elem_of_In, filter_In. split; [by apply list_elem_of_In|lia].
Qed.

(** With distinct entity ids, the join pairs a value observation with
    one entity. *)
Lemma joined_keys (s : store) :
  NoDup (e_id <$> entities s) -> NoDup (vo_key <$> value_observations s) ->
  NoDup ((fun row => vo_key (snd row)) <$> joined s).
Proof.
  intros Hids Hkeys. unfold joined.
  induction (entities s) as [|e t IH]; [constructor|].
  csimpl in *. apply NoDup_cons in Hids as [He Ht]. rewrite fmap_app.
  apply NoDup_app. split_and!.
  - assert (Heq : (fun row : entity_row * value_observation_row => vo_key (snd row))
                  <$> (List.filter (fun v => vo_entity_id v =? e_id e) (value_observations s)
                       ≫= fun v => [(e, v)])
                  = vo_key <$> List.filter (fun v => vo_entity_id v =? e_id e)
                                           (value_observations s)).
    { generalize (List.filter (fun v => vo_entity_id v =? e_id e) (value_observations s)).
      intros l. induction l as [|v l IHl]; [done|]. csimpl. by rewrite IHl. }
    rewrite Heq. by apply NoDup_fmap_filter.
  - intros k Hk Hk'.
    apply list_elem_of_fmap in Hk as ([e1 v1] & -> & H1).
    apply list_elem_of_fmap in Hk' as ([e2 v2] & Heq & H2). simpl in *.
    apply list_elem_of_bind in H1 as (w1 & H1 & Hw1).
    apply list_elem_of_singleton in H1. injection H1 as -> ->.
    apply list_elem_of_In, filter_In in Hw1 as [_ Hid1].
    apply list_elem_of_bind in H2 as (e' & H2 & He').
    apply list_elem_of_bind in H2 as (w2 & H2 & Hw2).
    apply list_elem_of_singleton in H2. injection H2 as -> ->.
    apply list_elem_of_In, filter_In in Hw2 as [_ Hid2].
    apply He. apply list_elem_of_fmap. exists e'. split; [|done].
    unfold vo_key in Heq. injection Heq as Heid _ _. lia.
  - by apply IH.
Qed.

Lemma NoDup_concat_elem {A : Type} (ls : list (list A)) (l : list A) :
  NoDup (concat ls) -> l ∈ ls -> NoDup l.
Proof.
  induction ls as [|l' ls IH]; intros Hnd Hin; [by apply elem_of_nil in Hin|].
  simpl in Hnd. apply NoDup_app in Hnd as (Hl' & _ & Hls).
  apply elem_of_cons in Hin as [->|Hin]; [done|by apply IH].
Qed.

Lemma concat_fmap_fmap {A B : Type} (f : A -> B) (ls : list (list A)) :
  f <$> concat ls = concat ((fun l : list A => f <$> l) <$> ls).
Proof. induction ls as [|l ls IH]; [done|]. csimpl. by rewrite fmap_app, IH. Qed.

Lemma NoDup_fst_unique {A B : Type} (l : list (A * B)) (k : A) (v1 v2 : B) :
  NoDup l.*1 -> (k, v1) ∈ l -> (k, v2) ∈ l -> v1 = v2.
Proof.
  induction l as [|[k' v'] l IH]; intros Hnd H1 H2; [by apply elem_of_nil in H1|].
  csimpl in Hnd. apply NoDup_cons in Hnd as [Hk Hnd].
  assert (Hfst : forall v, (k', v) ∈ l -> False).
  { intros v Hv. apply Hk, list_elem_of_fmap. by exists (k', v). }
  apply elem_of_cons in H1 as [H1|H1]; apply elem_of_cons in H2 as [H2|H2];
    simplify_eq; try done; try (exfalso; by eapply Hfst).
  by apply IH.
Qed.

(** A group of a [GROUP BY] holds every row of its key. *)
Lemma group_by_complete {A K : Type} `{EqDecision K} (key : A -> K) (l : list A) k g x :
  (k, g) ∈ group_by key l -> x ∈ l -> key x = k -> x ∈ g.
Proof.
  intros Hg Hx Hk. rewrite <- (group_by_concat key l) in Hx.
  apply list_elem_of_In, in_concat in Hx as (g' & Hg' & Hx'%list_elem_of_In).
  apply list_elem_of_In, list_elem_of_fmap in Hg' as ([k' g''] & -> & Hin). simpl in *.
  destruct (group_by_grouped key l k' g'' Hin) as [_ Hkey].
  rewrite (Hkey x Hx') in Hk. subst k'.
  by rewrite (NoDup_fst_unique _ k g g'' (group_by_NoDup key l) Hg Hin).
Qed.

Lemma group_by_rows {A K : Type} `{EqDecision K} (key : A -> K) (l : list A) k g x :
  (k, g) ∈ group_by key l -> x ∈ g -> x ∈ l.
Proof.
  intros Hg Hx. rewrite <- (group_by_concat key l). apply list_elem_of_In, in_concat.
  exists g. split; [|by apply list_elem_of_In].
  apply list_elem_of_In, list_elem_of_fmap. by exists (k, g).
Qed.

(** The [WHERE] clause reads the entity and the literal of a row, which
    are the same throughout a group. *)
Lemma matches_literal filepath functionName e v1 v2 :
  vo_literal_value v1 = vo_literal_value v2 ->
  matches filepath functionName (e, v1) = matches filepath functionName (e, v2).
Proof. intros Hlit. unfold matches. by rewrite Hlit. Qed.

(** With distinct keys, the pair of a file name and an offset designates
    the one entity that has them. *)
Lemma entity_at_row (s : store) (e : entity_row) :
  NoDup (e_key <$> entities s) -> e ∈ entities s ->
  entity_at (e_filename e) (e_offset_position e) s = Some e.
Proof.
  unfold entity_at. induction (entities s) as [|r t IH]; intros Hnd Hin;
    [by apply elem_of_nil in Hin|].
  csimpl in Hnd. apply NoDup_cons in Hnd as [Hr Hnd]. simpl.
  rewrite entity_hit_key. case_bool_decide as Hkey.
  - apply elem_of_cons in Hin as [->|Hin]; [done|].
    exfalso. apply Hr. rewrite Hkey. apply list_elem_of_fmap. by exists e.
  - apply elem_of_cons in Hin as [->|Hin]; [done|by apply IH].
Qed.

(** The value observations an entity has with a type and a literal. *)
Definition observations_of (eid : Z) (value_type literal : string) (s : store)
    : list value_observation_row :=
  List.filter (fun v => (vo_entity_id v =? eid) && String.eqb (vo_value_type v) value_type
                        && String.eqb (vo_literal_value v) literal)
              (value_observations s).

Lemma observations_of_elem eid value_type literal s v :
  v ∈ observations_of eid value_type literal s
  <-> v ∈ value_observations s /\ vo_entity_id v = eid /\ vo_value_type v = value_type
      /\ vo_literal_value v = literal.
Proof.
  unfold observations_of. rewrite list_elem_of_In, filter_In, <- list_elem_of_In.
  rewrite !andb_true_iff, Z.eqb_eq, !String.eqb_eq. tauto.
Qed.

(** The rows of one group of the function-calls statement are the value
    observations of the entity of the group with the type and the literal
    of the group. *)
Lemma call_group_rows (s : store) (filepath functionName : option string) e v g :
  NoDup (e_id <$> entities s) -> NoDup (vo_key <$> value_observations s) ->
  (call_group_key (e, v), (e, v) :: g)
    ∈ group_by call_group_key (List.filter (matches filepath functionName) (joined s)) ->
  e ∈ entities s
  /\ snd <$> (e, v) :: g ≡ₚ observations_of (e_id e) (vo_value_type v) (vo_literal_value v) s.
Proof.
  intros Hids Hkeys Hg.
  set (rows := List.filter (matches filepath functionName) (joined s)) in *.
  assert (Hrow : forall row, row ∈ rows <-> row ∈ joined s /\ matches filepath functionName row = true).
  { intros row. unfold rows. by rewrite list_elem_of_In, filter_In, <- list_elem_of_In. }
  destruct (group_by_grouped call_group_key rows _ _ Hg) as [_ Hkey].
  assert (Hhead : (e, v) ∈ rows) by (eapply group_by_rows; [apply Hg|by left]).
  apply Hrow in Hhead as [Hjoin Hmatch].
  pose proof (proj1 (joined_rows s (e, v)) Hjoin) as (He & _ & _). cbn [fst snd] in He.
  split; [done|].
  assert (Hnd : NoDup (vo_key <$> (snd <$> (e, v) :: g))).
  { rewrite <- list_fmap_compose.
    assert (Hall : NoDup ((fun row => vo_key (snd row)) <$> rows)).
    { apply NoDup_fmap_filter. by apply joined_keys. }
    rewrite <- (group_by_concat call_group_key rows), concat_fmap_fmap in Hall.
    eapply NoDup_concat_elem; [apply Hall|].
    apply list_elem_of_fmap. exists ((e, v) :: g). split; [done|].
    apply list_elem_of_fmap. by exists (call_group_key (e, v), (e, v) :: g). }
  apply NoDup_Permutation.
  - by apply NoDup_fmap_1 in Hnd.
  - apply (NoDup_fmap_1 vo_key). unfold observations_of. by apply NoDup_fmap_filter.
  - intros w. rewrite observations_of_elem. split.
    + intros Hw. apply list_elem_of_fmap in Hw as ([e' w'] & -> & Hin). cbn [snd].
      pose proof (Hkey _ Hin) as Hk. unfold call_group_key in Hk. cbn [fst snd] in Hk.
      injection Hk as Hid Hty Hlit.
      assert (Hin' : (e', w') ∈ rows) by (eapply group_by_rows; [apply Hg|done]).
      apply Hrow in Hin' as [Hjoin' _].
      apply joined_rows in Hjoin' as (_ & Hw' & Hid'). cbn [fst snd] in *.
      split_and!; try done. lia.
    + intros (Hw & Hid & Hty & Hlit).
      assert (Hin : (e, w) ∈ rows).
      { apply Hrow. split.
        - apply joined_rows. by split_and!.
        - by rewrite (matches_literal filepath functionName e w v Hlit). }
      apply list_elem_of_fmap. exists (e, w). split; [done|].
      eapply group_by_complete; [apply Hg|done|].
      unfold call_group_key. cbn [fst snd]. by rewrite Hty, Hlit.
Qed.

Lemma limit_offset_subseteq {A : Type} (limit offset : Z) (l : list A) :
  limit_offset limit offset l ⊆ l.
Proof.
  unfold limit_offset. intros x Hx.
  destruct (limit <? 0); [|apply subseteq_take in Hx]; by apply subseteq_drop in Hx.
Qed.

(** X10. After any history of batches, the [call_count] that
    [getFunctionCalls] reports in a row is not a count of calls.  The file
    name and the offset of the row designate an entity, and the count is
    the number of value observations that entity has with the type and the
    literal of the row: all of them, whatever the filters.  These
    observations differ pairwise in their context, so the count is the
    number of contexts under which the entity saw the literal, at least 1
    and at most the number of contexts in the store. *)
Theorem call_count_counts_contexts (h : history) (filepath functionName : option string)
    (offset pageSize : Z) :
  let s := run h empty_store in
  Forall (fun c =>
            exists erow,
              entity_at (c_filename c) (c_offset_position c) s = Some erow
              /\ c_call_count c
                 = Z.of_nat (length (observations_of (e_id erow) (c_value_type c)
                                                     (c_literal_value c) s))
              /\ NoDup (vo_context <$> observations_of (e_id erow) (c_value_type c)
                                                       (c_literal_value c) s)
              /\ 1 <= c_call_count c <= count_distinct (vo_context <$> value_observations s))
         (calls (getFunctionCalls s filepath functionName offset pageSize)).
Proof.
  cbv zeta. set (s := run h empty_store).
  destruct (keys_unique_run h) as [Hkeys Hids]. fold s in Hkeys, Hids.
  assert (Hhash : hashed s) by (apply run_invariant; [intros; by apply step_hashed|constructor]).
  assert (Hunique : unique_keys s).
  { apply run_invariant; [intros; by apply step_unique|apply empty_unique]. }
  destruct Hunique as (Hekeys & _).
  apply Forall_forall. intros c Hc. cbn [getFunctionCalls calls] in Hc.
  apply limit_offset_subseteq in Hc. unfold call_groups, in_key_order in Hc.
  rewrite order_by_Permutation, merge_sort_Permutation in Hc.
  apply list_elem_of_omap in Hc as ([k g] & Hg & Hcall). simpl in Hcall.
  destruct (group_by_grouped call_group_key _ k g Hg) as [_ Hkey].
  destruct g as [|[e v] g]; [done|]. injection Hcall as <-.
  cbn [c_call_count c_value_type c_literal_value c_filename c_offset_position].
  rewrite <- (Hkey (e, v)) in Hg by (by left).
  destruct (call_group_rows s filepath functionName e v g Hids Hkeys Hg) as [He Hperm].
  set (observations := observations_of (e_id e) (vo_value_type v) (vo_literal_value v) s) in *.
  assert (Hlen : length ((e, v) :: g) = length observations).
  { by rewrite <- Hperm, length_fmap. }
  assert (Hctx : NoDup (vo_context <$> observations)).
  { assert (Hobs : NoDup (vo_key <$> observations)).
    { unfold observations, observations_of. by apply NoDup_fmap_filter. }
    assert (Heq : vo_key <$> observations
                  = (fun ctx => (e_id e, hashValue (vo_literal_value v), ctx))
                      <$> (vo_context <$> observations)).
    { rewrite <- list_fmap_compose. apply list_fmap_ext. intros i w Hi. simpl.
      apply list_elem_of_lookup_2, observations_of_elem in Hi as (Hw & Hid & _ & Hlit).
      unfold hashed in Hhash. rewrite Forall_forall in Hhash.
      unfold vo_key. by rewrite Hid, (Hhash w Hw), Hlit. }
    rewrite Heq in Hobs. by apply NoDup_fmap_1 in Hobs. }
  exists e. split; [by apply entity_at_row|].
  change (Z.of_nat (length ((e, v) :: g))
          = Z.of_nat (length observations)
          /\ NoDup (vo_context <$> observations)
          /\ 1 <= Z.of_nat (length ((e, v) :: g))
             <= count_distinct (vo_context <$> value_observations s)).
  split; [by rewrite Hlen|]. split; [done|].
  split; [simpl; lia|]. rewrite Hlen. unfold count_distinct. apply inj_le.
  rewrite <- (length_fmap vo_context observations).
  apply submseteq_length, NoDup_submseteq; [done|].
  intros ctx Hin. apply elem_of_remove_dups.
  apply list_elem_of_fmap in Hin as (w & -> & Hw).
  apply list_elem_of_fmap. exists w. split; [done|].
  by apply observations_of_elem in Hw as (Hw & _).
Qed.

End CallCount.

(** ** Location data *)

Section LocationData.
Import Collector Rows Queries Location.

Definition observations_held (groups : by_location) : Z :=
  sum ((fun g => Z.of_nat (length (snd (snd g)))) <$> groups).

Lemma add_row_observations key e obs groups :
  observations_held (add_row key e obs groups)
  = observations_held groups + Z.of_nat (length obs).
Proof.
  unfold observations_held. induction groups as [|[k [e0 os]] t IH]; csimpl; [lia|].
  destruct (String.eqb k key); csimpl.
  - rewrite length_app. lia.
  - rewrite IH. lia.
Qed.

Lemma row_observation_length row :
  length (row_observation row) = if has_value_type row then 1%nat else 0%nat.
Proof.
  unfold row_observation, has_value_type. destruct (snd row) as [v|]; [|done].
  by destruct (negb _).
Qed.

Lemma entitiesByLocation_observations page :
  observations_held (entitiesByLocation page)
  = Z.of_nat (length (List.filter has_value_type page)).
Proof.
  unfold entitiesByLocation.
  assert (Hgen : forall groups,
            observations_held
              (fold_left (fun groups row =>
                            add_row (entityKey (fst row)) (fst row) (row_observation row) groups)
                         page groups)
            = observations_held groups + Z.of_nat (length (List.filter has_value_type page))).
  { induction page as [|row page IH]; intros groups; [simpl; lia|].
    cbn [fold_left List.filter]. rewrite IH, add_row_observations, row_observation_length.
    destruct (has_value_type row); cbn [length]; lia. }
  rewrite Hgen. unfold observations_held. simpl. lia.
Qed.

Lemma add_row_nonempty key e obs groups : add_row key e obs groups <> [].
Proof. destruct groups as [|[k [e0 os]] t]; simpl; [done|]. by destruct (String.eqb k key). Qed.

Lemma entitiesByLocation_nil page : entitiesByLocation page = [] <-> page = [].
Proof.
  split; [|by intros ->]. unfold entitiesByLocation.
  assert (Hgen : forall (rows : list (entity_row * option value_observation_row)) groups,
            groups <> [] ->
            fold_left (fun groups row =>
                         add_row (entityKey (fst row)) (fst row) (row_observation row) groups)
                      rows groups <> []).
  { intros rows. induction rows as [|row' rows IH]; intros groups Hne; [done|].
    simpl. apply IH, add_row_nonempty. }
  destruct page as [|row page]; [done|]. intros Hnil. exfalso. revert Hnil.
  cbn [fold_left]. apply Hgen, add_row_nonempty.
Qed.

Lemma add_row_length key e obs groups :
  (length groups <= length (add_row key e obs groups) <= S (length groups))%nat.
Proof.
  induction groups as [|[k [e0 os]] t IH]; simpl; [lia|].
  destruct (String.eqb k key); simpl; lia.
Qed.

Lemma entitiesByLocation_length page :
  (length (entitiesByLocation page) <= length page)%nat.
Proof.
  unfold entitiesByLocation.
  assert (Hgen : forall groups,
            (length (fold_left (fun groups row =>
                                  add_row (entityKey (fst row)) (fst row) (row_observation row)
                                          groups) page groups)
             <= length groups + length page)%nat).
  { induction page as [|row page IH]; intros groups; [simpl; lia|].
    simpl. etrans; [apply IH|].
    pose proof (add_row_length (entityKey (fst row)) (fst row) (row_observation row) groups).
    lia. }
  apply (Hgen []).
Qed.

(** Two records of one batch, ingested twice: a call of [setStatus] in
    [a.js] seen with two strings, and a number in [b.js]. *)
Definition status_batch : list entry :=
  [ mkEntry (Some "a.js") 10 (Some [(Some (JStr "success"), None); (Some (JStr "error"), None)])
            (Some (mkMetadata (Some "setStatus") (Some 3) (Some 7) (Some "parameter") None None));
    mkEntry (Some "b.js") 4 (Some [(Some (JNum 1), None)]) None ].

Definition status_store : store := run [(100, status_batch); (200, status_batch)] empty_store.

(** X11. The summary of [getLocationData] agrees with the entities it
    returns, whatever the store and the page: [total_entities] is their
    number, [total_observations] is the number of observations listed
    under them, and, for a page size that is not negative, neither exceeds
    the page size. *)
Theorem location_summary_consistent (s : store) (filename : string) (lineNumber : Z)
    (columnNumber : option Z) (offset pageSize : Z) :
  0 <= pageSize ->
  let r := getLocationData s filename lineNumber columnNumber offset pageSize in
  sum_total_entities (ld_summary r) = Z.of_nat (length (ld_entities r))
  /\ sum_total_observations (ld_summary r)
     = sum ((fun g => Z.of_nat (length (snd g))) <$> ld_entities r)
  /\ sum_total_entities (ld_summary r) <= pageSize
  /\ sum_total_observations (ld_summary r) <= pageSize.
Proof.
  intros Hsize. cbv zeta.
  cbn [getLocationData ld_summary ld_entities sum_total_entities sum_total_observations].
  set (page := limit_offset pageSize offset (location_rows s filename lineNumber columnNumber)).
  assert (Hpage : (length page <= Z.to_nat pageSize)%nat) by by apply limit_offset_length.
  split_and!.
  - by rewrite length_fmap.
  - rewrite <- entitiesByLocation_observations. unfold observations_held.
    by rewrite <- list_fmap_compose.
  - pose proof (entitiesByLocation_length page). lia.
  - pose proof (filter_length has_value_type page). lia.
Qed.

Lemma location_summary_consistent_witness :
  let r := getLocationData status_store "a.js" 3 None 0 1 in
  sum_total_entities (ld_summary r) = 1
  /\ sum_total_observations (ld_summary r) = 1
  /\ length (ld_entities r) = 1%nat.
Proof.
  destruct (location_summary_consistent status_store "a.js" 3 None 0 1) as (H1 & H2 & H3 & H4);
    [lia|].
  cbv zeta in *. split_and!; [|vm_compute; reflexivity|vm_compute; reflexivity].
  rewrite H1. vm_compute. reflexivity.
Defined.

Lemma limit_offset_nil {A : Type} (limit offset : Z) (l : list A) :
  0 <= offset -> 0 < limit ->
  limit_offset limit offset l = [] <-> Z.of_nat (length l) <= offset.
Proof.
  intros Hoff Hlim. unfold limit_offset. destruct (Z.ltb_spec limit 0); [lia|].
  rewrite <- length_zero_iff_nil, length_take, length_drop. lia.
Qed.

(** X12. The paging of [getLocationData] is consistent: for an offset
    that is not negative and a positive page size, [hasMore] is true
    exactly when the next page, asked for at [offset + pageSize], holds an
    entity; [total] is the number of joined rows the pages are cut
    from. *)
Theorem location_has_more (s : store) (filename : string) (lineNumber : Z)
    (columnNumber : option Z) (offset pageSize : Z) :
  0 <= offset ->
  0 < pageSize ->
  let r := getLocationData s filename lineNumber columnNumber offset pageSize in
  let next := getLocationData s filename lineNumber columnNumber (offset + pageSize) pageSize in
  p_total (ld_pagination r)
  = Z.of_nat (length (location_rows s filename lineNumber columnNumber))
  /\ (p_hasMore (ld_pagination r) = true <-> ld_entities next <> []).
Proof.
  intros Hoff Hsize. cbv zeta.
  cbn [getLocationData ld_pagination ld_entities p_total p_hasMore]. split; [done|].
  set (rows := location_rows s filename lineNumber columnNumber).
  rewrite Z.ltb_lt.
  assert (Hnil : snd <$> entitiesByLocation (limit_offset pageSize (offset + pageSize) rows) = []
                 <-> Z.of_nat (length rows) <= offset + pageSize).
  { rewrite <- (limit_offset_nil pageSize (offset + pageSize) rows) by lia.
    rewrite <- entitiesByLocation_nil. split; [apply fmap_nil_inv|by intros ->]. }
  rewrite Hnil. lia.
Qed.

Lemma location_has_more_witness :
  p_hasMore (ld_pagination (getLocationData status_store "a.js" 3 None 0 1)) = true
  /\ ld_entities (getLocationData status_store "a.js" 3 None 1 1) <> [].
Proof.
  destruct (location_has_more status_store "a.js" 3 None 0 1) as [_ Hmore]; [lia|lia|].
  cbv zeta in Hmore. split; [vm_compute; reflexivity|].
  apply Hmore. vm_compute. reflexivity.
Defined.

End LocationData.

(** ** Numbers in text *)

Section Decimal.

Lemma code_chr (z : Z) : 0 <= z < 256 -> Js.code (Js.chr z) = z.
Proof.
  intros Hz. unfold Js.code, Js.chr. rewrite N_ascii_embedding; lia.
Qed.

Lemma chars_append (a b : string) : Js.chars (a +:+ b) = Js.chars a ++ Js.chars b.
Proof. unfold Js.chars. induction a as [|c a IH]; [done|]. simpl. by rewrite IH. Qed.

Lemma Z_of_digits_snoc (d : list ascii) (c : ascii) :
  Js.Z_of_digits (d ++ [c]) = 10 * Js.Z_of_digits d + (Js.code c - 48).
Proof. unfold Js.Z_of_digits. by rewrite fold_left_app. Qed.

Lemma is_digit_chr (m : Z) : 0 <= m <= 9 -> Js.is_digit (Js.chr (48 + m)) = true.
Proof.
  intros Hm. unfold Js.is_digit. rewrite code_chr by lia.
  apply andb_true_iff. split; lia.
Qed.

(** The digits [digits_fuel] puts in front of its accumulator. *)
Lemma digits_fuel_spec (fuel : nat) (n : Z) (acc : list ascii) :
  (1 <= fuel)%nat -> 0 <= n < 2 ^ Z.of_nat fuel ->
  exists d, Js.digits_fuel fuel n acc = d ++ acc
            /\ d <> [] /\ forallb Js.is_digit d = true /\ Js.Z_of_digits d = n.
Proof.
  revert n acc. induction fuel as [|fuel IH]; intros n acc Hfuel Hn; [lia|].
  cbn [Js.digits_fuel].
  assert (Hmod : 0 <= n mod 10 <= 9) by (pose proof (Z.mod_pos_bound n 10); lia).
  destruct (Z.eqb_spec (n / 10) 0) as [Hq|Hq].
  - exists [Js.chr (48 + n mod 10)]. split_and!; try done.
    + simpl. by rewrite is_digit_chr.
    + unfold Js.Z_of_digits. simpl. rewrite code_chr by lia.
      pose proof (Z.div_mod n 10). lia.
  - assert (Hn10 : 10 <= n).
    { destruct (Z.lt_ge_cases n 10) as [Hlt|]; [|done].
      rewrite Z.div_small in Hq by lia. done. }
    assert (Hf : (1 <= fuel)%nat).
    { destruct fuel as [|fuel]; [|lia]. simpl in Hn. lia. }
    destruct (IH (n / 10) (Js.chr (48 + n mod 10) :: acc) Hf) as (d & Hd & Hne & Hdig & Hval).
    { split; [apply Z.div_pos; lia|].
      apply Z.div_lt_upper_bound; [lia|].
      rewrite Nat2Z.inj_succ, Z.pow_succ_r in Hn by lia. lia. }
    exists (d ++ [Js.chr (48 + n mod 10)]). split_and!.
    + by rewrite Hd, <- app_assoc.
    + by destruct d.
    + rewrite forallb_app, Hdig. simpl. by rewrite is_digit_chr.
    + rewrite Z_of_digits_snoc, Hval, code_chr by lia. pose proof (Z.div_mod n 10). lia.
Qed.

Lemma log2_fuel (n : Z) : 0 <= n -> n < 2 ^ Z.of_nat (Z.to_nat (Z.log2 n) + 1).
Proof.
  intros Hn. rewrite Nat2Z.inj_add, Z2Nat.id by apply Z.log2_nonneg.
  destruct (Z.eq_dec n 0) as [->|Hne]; [done|].
  change (Z.of_nat 1) with 1. rewrite Z.add_1_r. apply Z.log2_spec. lia.
Qed.

(** The characters of [String(n)]: digits, after a minus sign when [n] is
    negative, and they spell [n]. *)
Lemma string_of_Z_spec (n : Z) :
  exists d, d <> [] /\ forallb Js.is_digit d = true
            /\ Js.Z_of_digits d = Z.abs n
            /\ Js.chars (Js.string_of_Z n) = if n <? 0 then "-"%char :: d else d.
Proof.
  unfold Js.string_of_Z. destruct (Z.ltb_spec n 0) as [Hneg|Hpos].
  - destruct (digits_fuel_spec (Z.to_nat (Z.log2 (- n)) + 1) (- n) []) as (d & Hd & Hne & Hdig & Hv).
    { lia. } { split; [lia|apply log2_fuel; lia]. }
    exists d. rewrite Hd, app_nil_r. split_and!; try done; [lia|].
    unfold Js.chars. simpl. f_equal. apply chars_str.
  - destruct (digits_fuel_spec (Z.to_nat (Z.log2 n) + 1) n []) as (d & Hd & Hne & Hdig & Hv).
    { lia. } { split; [lia|by apply log2_fuel]. }
    exists d. rewrite Hd, app_nil_r. split_and!; try done; [lia|]. apply chars_str.
Qed.

Lemma digit_not (c : ascii) (x : ascii) :
  Js.is_digit c = true -> Js.is_digit x = false -> c <> x.
Proof. intros Hc Hx ->. congruence. Qed.

(** [String(n)] holds no underscore. *)
Lemma string_of_Z_no_underscore (n : Z) : "_"%char ∉ Js.chars (Js.string_of_Z n).
Proof.
  destruct (string_of_Z_spec n) as (d & _ & Hdig & _ & ->).
  assert (Hd : "_"%char ∉ d).
  { intros Hin. rewrite forallb_forall in Hdig.
    apply list_elem_of_In, Hdig in Hin. done. }
  destruct (n <? 0); [|done]. intros [Heq|Hin]%elem_of_cons; done.
Qed.

Lemma string_of_Z_inj (a b : Z) : Js.string_of_Z a = Js.string_of_Z b -> a = b.
Proof.
  intros Heq. apply (f_equal Js.chars) in Heq.
  destruct (string_of_Z_spec a) as (da & Hnea & Hdiga & Hva & Ha).
  destruct (string_of_Z_spec b) as (db & Hneb & Hdigb & Hvb & Hb).
  rewrite Ha, Hb in Heq.
  destruct (Z.ltb_spec a 0), (Z.ltb_spec b 0).
  - injection Heq as ->. lia.
  - destruct db as [|c db]; [done|]. injection Heq as <- _. done.
  - destruct da as [|c da]; [done|]. injection Heq as -> _. done.
  - subst. lia.
Qed.

(** A text that ends in an underscore and a number determines both. *)
Lemma split_at_separator (c : ascii) (x1 x2 r1 r2 : list ascii) :
  c ∉ x1 -> c ∉ x2 -> x1 ++ c :: r1 = x2 ++ c :: r2 -> x1 = x2 /\ r1 = r2.
Proof.
  revert x2. induction x1 as [|a x1 IH]; intros x2 H1 H2 Heq.
  - destruct x2 as [|b x2]; [by injection Heq as ->|].
    injection Heq as -> _. exfalso. apply H2. by left.
  - destruct x2 as [|b x2].
    + injection Heq as -> _. exfalso. apply H1. by left.
    + injection Heq as -> Heq. apply not_elem_of_cons in H1 as [_ H1].
      apply not_elem_of_cons in H2 as [_ H2].
      destruct (IH x2 H1 H2 Heq) as [-> ->]. done.
Qed.

Lemma underscore_number_inj (a b : string) (m n : Z) :
  a +:+ "_" +:+ Js.string_of_Z m = b +:+ "_" +:+ Js.string_of_Z n -> a = b /\ m = n.
Proof.
  intros Heq. apply (f_equal Js.chars) in Heq. rewrite !chars_append in Heq.
  change (Js.chars "_") with ["_"%char] in Heq. simpl in Heq.
  apply (f_equal (@rev ascii)) in Heq. rewrite !rev_app_distr in Heq. simpl in Heq.
  rewrite <- !app_assoc in Heq. simpl in Heq.
  apply split_at_separator in Heq as [Hnum Hname].
  - apply (f_equal (@rev ascii)) in Hnum, Hname. rewrite !rev_involutive in Hnum, Hname.
    split.
    + rewrite <- (str_chars a), <- (str_chars b). by f_equal.
    + apply string_of_Z_inj. rewrite <- (str_chars (Js.string_of_Z m)), Hnum. apply str_chars.
  - intros Hin%list_elem_of_In%in_rev%list_elem_of_In. by apply string_of_Z_no_underscore in Hin.
  - intros Hin%list_elem_of_In%in_rev%list_elem_of_In. by apply string_of_Z_no_underscore in Hin.
Qed.

End Decimal.

(** ** The entities of a page of location data *)

Section LocationGroups.
Import Collector Rows Queries Location.

Lemma entityKey_inj (a b : entity_row) : entityKey a = entityKey b <-> e_key a = e_key b.
Proof.
  unfold entityKey, e_key. split.
  - intros [-> ->]%underscore_number_inj. done.
  - intros [= -> ->]. done.
Qed.

(** The group stored under a key. *)
Fixpoint group_at (key : string) (groups : by_location) : option (entity_row * list observation) :=
  match groups with
  | [] => None
  | (k, g) :: t => if String.eqb k key then Some g else group_at key t
  end.

Lemma group_at_add_row key e obs groups key' :
  group_at key' (add_row key e obs groups)
  = if String.eqb key key'
    then Some (match group_at key groups with
               | Some (e0, os) => (e0, os ++ obs)
               | None => (e, obs)
               end)
    else group_at key' groups.
Proof.
  induction groups as [|[k [e0 os]] t IH]; simpl.
  - by destruct (String.eqb_spec key key').
  - destruct (String.eqb_spec k key) as [->|Hk]; simpl.
    + by destruct (String.eqb_spec key key').
    + rewrite IH. destruct (String.eqb_spec k key') as [->|Hk'].
      * destruct (String.eqb_spec key key') as [->|]; done.
      * done.
Qed.

Lemma add_row_keys key e obs (groups : by_location) :
  (add_row key e obs groups).*1
  = if decide (key ∈ groups.*1) then groups.*1 else groups.*1 ++ [key].
Proof.
  induction groups as [|[k [e0 os]] t IH].
  - simpl. destruct (decide (key ∈ ([] : by_location).*1)) as [Hin|Hin]; [|done].
    by apply elem_of_nil in Hin.
  - cbn [add_row]. destruct (String.eqb_spec k key) as [->|Hk]; csimpl.
    + destruct (decide (key ∈ key :: t.*1)) as [Hin|Hin]; [done|].
      exfalso. apply Hin. by left.
    + rewrite IH. destruct (decide (key ∈ t.*1)) as [Hin|Hin];
        destruct (decide (key ∈ k :: t.*1)) as [Hin'|Hin']; try done.
      * exfalso. apply Hin'. by right.
      * apply elem_of_cons in Hin' as [->|?]; done.
Qed.

Lemma group_at_elem key g (groups : by_location) :
  NoDup groups.*1 -> (key, g) ∈ groups -> group_at key groups = Some g.
Proof.
  induction groups as [|[k g0] t IH]; intros Hnd Hin; [by apply elem_of_nil in Hin|].
  csimpl in Hnd. apply NoDup_cons in Hnd as [Hk Hnd]. simpl.
  apply elem_of_cons in Hin as [Heq|Hin].
  - injection Heq as -> ->. by rewrite String.eqb_refl.
  - destruct (String.eqb_spec k key) as [->|_]; [|by apply IH].
    exfalso. apply Hk. apply list_elem_of_fmap. by exists (key, g).
Qed.

Lemma group_at_None key (groups : by_location) : group_at key groups = None <-> key ∉ groups.*1.
Proof.
  induction groups as [|[k g0] t IH]; simpl.
  - split; [intros _ Hin; by apply elem_of_nil in Hin|done].
  - destruct (String.eqb_spec k key) as [->|Hk]; csimpl.
    + split; [done|]. intros Hin. exfalso. apply Hin. by left.
    + rewrite IH. split.
      * intros Ht [->|Hin]%elem_of_cons; done.
      * intros Ht Hin. apply Ht. by right.
Qed.

(** The observations the rows of one key add up to. *)
Definition observations_under (key : string)
    (rows : list (entity_row * option value_observation_row)) : list observation :=
  flat_map row_observation
           (List.filter (fun row => String.eqb (entityKey (fst row)) key) rows).

Lemma observations_under_app key rows row :
  observations_under key (rows ++ [row])
  = observations_under key rows
    ++ (if String.eqb (entityKey (fst row)) key then row_observation row else []).
Proof.
  unfold observations_under. rewrite List.filter_app, flat_map_app. f_equal. simpl.
  destruct (String.eqb _ key); simpl; by rewrite ?app_nil_r.
Qed.

Definition grouped_rows (groups : by_location)
    (rows : list (entity_row * option value_observation_row)) : Prop :=
  NoDup groups.*1
  /\ (forall key e os, group_at key groups = Some (e, os) ->
        key = entityKey e /\ e ∈ fst <$> rows /\ os = observations_under key rows)
  /\ (forall row, row ∈ rows -> entityKey (fst row) ∈ groups.*1).

Lemma add_row_grouped groups rows row :
  grouped_rows groups rows ->
  grouped_rows (add_row (entityKey (fst row)) (fst row) (row_observation row) groups)
               (rows ++ [row]).
Proof.
  intros (Hnd & Hgroups & Hrows). unfold grouped_rows. split_and!.
  - rewrite add_row_keys. case_decide as Hin; [done|].
    apply NoDup_app. split; [done|]. split; [|apply NoDup_singleton].
    intros k Hk Hk'. apply list_elem_of_singleton in Hk'. by subst.
  - intros key e os. rewrite group_at_add_row, observations_under_app.
    destruct (String.eqb_spec (entityKey (fst row)) key) as [<-|Hkey].
    + destruct (group_at (entityKey (fst row)) groups) as [[e0 os0]|] eqn:Hat.
      * intros [= <- <-]. destruct (Hgroups _ _ _ Hat) as (Hk & He & ->).
        split_and!; try done. rewrite fmap_app. apply elem_of_app. by left.
      * intros [= <- <-]. split_and!; try done.
        { rewrite fmap_app. apply elem_of_app. right. by left. }
        apply group_at_None in Hat.
        assert (Hnone : observations_under (entityKey (fst row)) rows = []).
        { unfold observations_under.
          assert (Hfilter : List.filter (fun r => String.eqb (entityKey (fst r))
                                                               (entityKey (fst row))) rows = []).
          { apply (proj1 (length_zero_iff_nil _)).
            destruct (List.filter _ rows) as [|r l] eqn:Hf; [done|].
            exfalso. assert (Hr : In r (List.filter (fun r => String.eqb (entityKey (fst r))
                                                                (entityKey (fst row))) rows))
              by (rewrite Hf; by left).
            apply filter_In in Hr as [Hr Heq]. apply String.eqb_eq in Heq.
            apply Hat. rewrite <- Heq. by apply Hrows, list_elem_of_In. }
          by rewrite Hfilter. }
        by rewrite Hnone.
    + intros Hat. destruct (Hgroups _ _ _ Hat) as (Hk & He & ->).
      split_and!; try done; [|by rewrite app_nil_r].
      rewrite fmap_app. apply elem_of_app. by left.
  - intros r Hr. rewrite add_row_keys. apply elem_of_app in Hr as [Hr|Hr].
    + case_decide; [by apply Hrows|]. apply elem_of_app. left. by apply Hrows.
    + apply list_elem_of_singleton in Hr. subst r.
      case_decide; [done|]. apply elem_of_app. right. by left.
Qed.

Lemma entitiesByLocation_grouped page : grouped_rows (entitiesByLocation page) page.
Proof.
  unfold entitiesByLocation.
  assert (Hgen : forall rest groups rows,
            grouped_rows groups rows ->
            grouped_rows
              (fold_left (fun groups row =>
                            add_row (entityKey (fst row)) (fst row) (row_observation row) groups)
                         rest groups)
              (rows ++ rest)).
  { induction rest as [|row rest IH]; intros groups rows Hg; [by rewrite app_nil_r|].
    simpl. replace (rows ++ row :: rest) with ((rows ++ [row]) ++ rest)
      by (by rewrite <- app_assoc).
    by apply IH, add_row_grouped. }
  apply (Hgen page [] []). unfold grouped_rows. split_and!.
  - constructor.
  - done.
  - intros row Hrow. by apply elem_of_nil in Hrow.
Qed.

(** X13. The entities [getLocationData] returns are those of its page,
    each once: two of them differ in file name or offset, every row of
    the page belongs to one of them, and the observations listed under an
    entity are those of the rows of the page with its file name and
    offset, in the order of the page.  The textual key
    [filename_offset] never merges two entities. *)
Theorem location_groups_are_entities (s : store) (filename : string) (lineNumber : Z)
    (columnNumber : option Z) (offset pageSize : Z) :
  let page := limit_offset pageSize offset
                (location_rows s filename lineNumber columnNumber) in
  let r := getLocationData s filename lineNumber columnNumber offset pageSize in
  NoDup ((fun g => e_key (fst g)) <$> ld_entities r)
  /\ Forall (fun g => fst g ∈ fst <$> page
                      /\ snd g = flat_map row_observation
                                   (List.filter (fun row => bool_decide (e_key (fst row)
                                                                         = e_key (fst g))) page))
            (ld_entities r)
  /\ Forall (fun row => e_key (fst row) ∈ (fun g => e_key (fst g)) <$> ld_entities r) page.
Proof.
  cbv zeta. cbn [getLocationData ld_entities].
  set (page := limit_offset pageSize offset (location_rows s filename lineNumber columnNumber)).
  destruct (entitiesByLocation_grouped page) as (Hnd & Hgroups & Hrows).
  assert (Hkeys : forall k g, (k, g) ∈ entitiesByLocation page -> k = entityKey (fst g)).
  { intros k [e os] Hin. apply group_at_elem in Hin; [|done]. by apply Hgroups in Hin as [-> _]. }
  split_and!.
  - rewrite <- list_fmap_compose. apply NoDup_fmap_2_strong; [|by apply NoDup_fmap_1 in Hnd].
    intros [k1 g1] [k2 g2] H1 H2 Heq. simpl in Heq.
    apply entityKey_inj in Heq. rewrite <- (Hkeys _ _ H1), <- (Hkeys _ _ H2) in Heq. subst k2.
    f_equal. apply group_at_elem in H1, H2; try done. congruence.
  - apply Forall_forall. intros g Hg. apply list_elem_of_fmap in Hg as ([k [e os]] & -> & Hin).
    apply group_at_elem in Hin; [|done]. destruct (Hgroups _ _ _ Hin) as (-> & He & ->).
    simpl. split; [done|]. unfold observations_under. f_equal.
    apply filter_ext. intros row.
    destruct (String.eqb_spec (entityKey (fst row)) (entityKey e)) as [Heq|Hne].
    + apply entityKey_inj in Heq. by rewrite bool_decide_eq_true_2.
    + rewrite bool_decide_eq_false_2; [done|]. by rewrite <- entityKey_inj.
  - apply Forall_forall. intros row Hrow. apply Hrows in Hrow.
    apply list_elem_of_fmap in Hrow as ([k g] & Hk & Hin). simpl in Hk.
    rewrite (Hkeys _ _ Hin) in Hk. apply entityKey_inj in Hk.
    apply list_elem_of_fmap. exists g. split; [done|].
    apply list_elem_of_fmap. by exists (k, g).
Qed.

End LocationGroups.

(** ** Splitting and joining *)

Section SplitJoin.

Definition bar : list ascii := [" "; "|"; " "]%char.

(** The characters of [l.join(sep)]. *)
Fixpoint joined_chars (sep : list ascii) (l : list (list ascii)) : list ascii :=
  match l with
  | [] => []
  | [x] => x
  | x :: r => x ++ sep ++ joined_chars sep r
  end.

Lemma chars_join (sep : string) (l : list string) :
  Js.chars (Js.join sep l) = joined_chars (Js.chars sep) (Js.chars <$> l).
Proof.
  induction l as [|x [|y l] IH]; [done..|].
  change (Js.join sep (x :: y :: l)) with (x +:+ sep +:+ Js.join sep (y :: l)).
  rewrite !chars_append, IH. done.
Qed.

Lemma split_piece (v cur rest : list ascii) :
  "|"%char ∉ v -> (rest = [] \/ exists r, rest = bar ++ r) ->
  Text.split_chars bar 0 cur (v ++ rest) = Text.split_chars bar 0 (rev v ++ cur) rest.
Proof.
  revert cur. induction v as [|c v IH]; intros cur Hv Hrest; [done|].
  apply not_elem_of_cons in Hv as [Hc Hv].
  cbn [app Text.split_chars].
  assert (Hno : Js.starts_with bar (c :: v ++ rest) = false).
  { unfold bar. cbn [Js.starts_with]. destruct (Ascii.eqb " " c); [|done].
    destruct v as [|c2 v]; cbn [app Js.starts_with].
    - destruct Hrest as [->|[r ->]]; [done|]. done.
    - apply not_elem_of_cons in Hv as [Hc2 _].
      destruct (Ascii.eqb_spec "|" c2) as [Heq|]; [done|done]. }
  rewrite Hno, IH by done. simpl. by rewrite <- app_assoc.
Qed.

Lemma split_separator (cur r : list ascii) :
  Text.split_chars bar 0 cur (bar ++ r) = rev cur :: Text.split_chars bar 0 [] r.
Proof. reflexivity. Qed.

Lemma split_joined (l : list (list ascii)) (cur : list ascii) :
  l <> [] -> Forall (fun v => "|"%char ∉ v) l ->
  Text.split_chars bar 0 cur (joined_chars bar l)
  = match l with
    | [] => []
    | v :: r => (rev cur ++ v) :: r
    end.
Proof.
  intros Hne Hall. revert cur.
  induction Hall as [|v l Hv Hall IH]; intros cur; [done|].
  destruct l as [|w l].
  - simpl. rewrite <- (app_nil_r v) at 1. rewrite split_piece by (done || by left).
    simpl. by rewrite rev_app_distr, rev_involutive.
  - change (joined_chars bar (v :: w :: l)) with (v ++ bar ++ joined_chars bar (w :: l)).
    rewrite split_piece by (done || right; by eexists).
    rewrite split_separator, IH by done.
    by rewrite rev_app_distr, rev_involutive.
Qed.

(** Joining with [" | "] and splitting again gives the strings back,
    provided none holds a bar. *)
Lemma split_join (l : list string) :
  l <> [] -> Forall (fun v => "|"%char ∉ Js.chars v) l ->
  Text.split " | " (Js.join " | " l) = l.
Proof.
  intros Hne Hall. unfold Text.split. rewrite chars_join.
  change (Js.chars " | ") with bar.
  rewrite split_joined.
  - destruct l as [|v l]; [done|]. csimpl. rewrite str_chars. f_equal.
    rewrite <- list_fmap_compose. rewrite <- (list_fmap_id l) at 2.
    apply list_fmap_ext. intros i x _. apply str_chars.
  - by destruct l.
  - by apply Forall_fmap.
Qed.

End SplitJoin.

(** ** Enum suggestions *)

Section EnumSuggestions.
Import Collector Rows Queries Llm.

Lemma split_single_pieces (c : ascii) (cur s : list ascii) :
  c ∉ cur -> Forall (fun piece => c ∉ piece) (Text.split_chars [c] 0 cur s).
Proof.
  revert cur. induction s as [|a s IH]; intros cur Hcur.
  - constructor; [|constructor]. by intros Hin%list_elem_of_In%in_rev%list_elem_of_In.
  - cbn [Text.split_chars Js.starts_with length Nat.sub].
    destruct (Ascii.eqb_spec c a) as [Heq|Hne].
    + constructor; [by intros Hin%list_elem_of_In%in_rev%list_elem_of_In|].
      apply IH. by intros Hin%elem_of_nil.
    + apply IH. intros [Heq|Hin]%elem_of_cons; done.
Qed.

Lemma last_Forall {A : Type} (P : A -> Prop) (l : list A) (d : A) :
  P d -> Forall P l -> P (List.last l d).
Proof.
  intros Hd Hall. induction Hall as [|x l Hx Hall IH]; [done|].
  simpl. destruct l; [done|apply IH].
Qed.

Lemma base_name_no_slash (filename : string) :
  base_name filename <> EmptyString /\ "/"%char ∉ Js.chars (base_name filename).
Proof.
  unfold base_name.
  set (piece := List.last (Text.split "/" filename) EmptyString).
  assert (Hpiece : "/"%char ∉ Js.chars piece).
  { apply (last_Forall (fun p => "/"%char ∉ Js.chars p)).
    - by intros Hin%elem_of_nil.
    - unfold Text.split. apply Forall_fmap.
      eapply Forall_impl; [apply (split_single_pieces "/"); by intros Hin%elem_of_nil|].
      intros p Hp. simpl. by rewrite chars_str. }
  assert (Hstrip : "/"%char ∉ Js.chars (Text.strip_script_extension piece)).
  { unfold Text.strip_script_extension.
    destruct (Js.ends_with piece ".ts" || Js.ends_with piece ".js"); [|done].
    rewrite chars_str. intros Hin. apply Hpiece. by eapply subseteq_take. }
  destruct (String.eqb_spec (Text.strip_script_extension piece) EmptyString) as [Heq|Hne].
  - split; [done|]. vm_compute. intros Hin.
    repeat (apply elem_of_cons in Hin as [Hin|Hin]; [done|]). by apply elem_of_nil in Hin.
  - done.
Qed.

(** X14. The name [generateEnumName] suggests is the base name of the
    file followed by one of [Status], [Mode], [Code] and [Type]; the base
    name is never empty and holds no slash, whatever the file name and
    the values. *)
Theorem enum_name_shape (filename stringValues : string) :
  (exists suffix, suffix ∈ ["Status"; "Mode"; "Code"; "Type"]
                  /\ generateEnumName filename stringValues = base_name filename +:+ suffix)
  /\ base_name filename <> EmptyString
  /\ "/"%char ∉ Js.chars (base_name filename).
Proof.
  split; [|apply base_name_no_slash].
  unfold generateEnumName. cbv zeta.
  destruct (existsb _ _); [exists "Status"; split; [set_solver|done]|].
  destruct (existsb _ _); [exists "Mode"; split; [set_solver|done]|].
  destruct (forallb _ _); [exists "Code"|exists "Type"]; (split; [set_solver|done]).
Qed.

Lemma count_distinct_positive {A : Type} `{EqDecision A} (l : list A) :
  l <> [] -> 1 <= count_distinct l.
Proof.
  intros Hne. unfold count_distinct. destruct l as [|x l]; [done|].
  assert (Hx : x ∈ remove_dups (x :: l)) by (apply elem_of_remove_dups; by left).
  destruct (remove_dups (x :: l)); [by apply elem_of_nil in Hx|]. simpl. lia.
Qed.

(** X15. Every candidate [findEnumCandidates] answers meets the
    thresholds it was asked for and has between 1 and 20 distinct
    strings; the answer is ordered by observations, then by distinct
    strings, both descending; and asking for more than 20 distinct
    strings answers nothing. *)
Theorem enum_candidates_within_thresholds (s : store) (minObservations minUniqueStrings : Z) :
  let answer := findEnumCandidates s minObservations minUniqueStrings in
  Forall (fun c => minObservations <= ec_total_observations c
                   /\ minUniqueStrings <= ec_unique_strings c
                   /\ 1 <= ec_unique_strings c <= 20) answer
  /\ Sorted enum_before answer
  /\ (20 < minUniqueStrings -> answer = []).
Proof.
  cbv zeta. unfold findEnumCandidates.
  set (rows := omap (fun g => enum_of_group (snd g))
                    (group_by (fun row => e_id (fst row)) (joined_strings s))).
  set (having := fun c => (minObservations <=? ec_total_observations c)
                          && (minUniqueStrings <=? ec_unique_strings c)
                          && (ec_unique_strings c <=? 20)).
  split_and!.
  - apply Forall_forall. intros c Hc. rewrite order_by_Permutation in Hc.
    apply list_elem_of_In, filter_In in Hc as [Hc Hhaving]. unfold having in Hhaving.
    apply andb_true_iff in Hhaving as [[H1 H2]%andb_true_iff H3].
    apply list_elem_of_In, list_elem_of_omap in Hc as ([k g] & _ & Hg). simpl in Hg.
    destruct g as [|[e l] g]; [done|]. injection Hg as <-. simpl in *.
    split_and!; try lia. by apply count_distinct_positive.
  - apply Sorted_order_by. intros a b. unfold enum_before. lia.
  - intros Hmin. apply Permutation_nil_r. rewrite order_by_Permutation.
    assert (Hnil : List.filter having rows = []); [|by rewrite Hnil].
    induction rows as [|c rows IH]; [done|]. simpl.
    destruct (having c) eqn:Hc; [|done]. unfold having in Hc.
    apply andb_true_iff in Hc as [[H1 H2]%andb_true_iff H3]. lia.
Qed.

(** X16. When no string literal of the store holds a bar, the text
    [string_values] of an enum candidate splits back into the strings it
    was joined from, which are string literals of the store: the name
    suggestion reads the first three of them. *)
Theorem enum_values_read_back (s : store) (minObservations minUniqueStrings : Z) :
  Forall (fun r => "|"%char ∉ Js.chars (sl_string_value r)) (string_literals s) ->
  Forall (fun c =>
            exists values,
              values <> []
              /\ values ⊆ sl_string_value <$> string_literals s
              /\ ec_string_values c = Js.join " | " values
              /\ Text.split " | " (ec_string_values c) = values
              /\ ec_unique_strings c = count_distinct values
              /\ ec_suggested_enum_name c
                 = generateEnumName (ec_filename c) (Js.join " | " values))
         (findEnumCandidates s minObservations minUniqueStrings).
Proof.
  intros Hbar. apply Forall_forall. intros c Hc. unfold findEnumCandidates in Hc.
  rewrite order_by_Permutation in Hc.
  apply list_elem_of_In, filter_In in Hc as [Hc _].
  apply list_elem_of_In, list_elem_of_omap in Hc as ([k g] & Hg & Hc). cbn [snd] in Hc.
  assert (Hsub : (fun row : entity_row * string_literal_row => sl_string_value (snd row)) <$> g
                 ⊆ sl_string_value <$> string_literals s).
  { intros v Hv. apply list_elem_of_fmap in Hv as ([e l] & -> & Hrow). simpl.
    assert (Hin : (e, l) ∈ joined_strings s).
    { rewrite <- (group_by_concat (fun row : entity_row * string_literal_row => e_id (fst row))).
      apply list_elem_of_In, in_concat. exists g. split; [|by apply list_elem_of_In].
      apply list_elem_of_In, list_elem_of_fmap. by exists (k, g). }
    unfold joined_strings in Hin. apply list_elem_of_bind in Hin as (e' & Hin & _).
    apply list_elem_of_bind in Hin as (l' & Hin & Hl'). apply list_elem_of_singleton in Hin.
    injection Hin as -> ->. apply list_elem_of_In, filter_In in Hl' as [Hl' _].
    apply list_elem_of_fmap. exists l'. split; [done|]. by apply list_elem_of_In. }
  destruct g as [|[e l] g]; [done|]. cbn [enum_of_group] in Hc. cbv zeta in Hc.
  apply (inj Some) in Hc. subst c.
  set (values := (fun row : entity_row * string_literal_row => sl_string_value (snd row))
                   <$> (e, l) :: g) in *.
  exists values.
  cbn [ec_string_values ec_unique_strings ec_suggested_enum_name ec_filename].
  split_and!; [done|done|reflexivity| |reflexivity|reflexivity].
  apply split_join; [done|]. apply Forall_forall. intros v Hv. apply Hsub in Hv.
  apply list_elem_of_fmap in Hv as (r & -> & Hr). rewrite Forall_forall in Hbar. by apply Hbar.
Qed.

Lemma enum_values_read_back_witness :
  Forall (fun r => "|"%char ∉ Js.chars (sl_string_value r)) (string_literals status_store)
  /\ Forall (fun c => exists values,
                        values <> [] /\ Text.split " | " (ec_string_values c) = values)
            (findEnumCandidates status_store 3 2)
  /\ ec_string_values <$> findEnumCandidates status_store 3 2 = ["success | error"].
Proof.
  assert (Hbar : Forall (fun r => "|"%char ∉ Js.chars (sl_string_value r))
                        (string_literals status_store)).
  { vm_compute. repeat constructor; intros Hin;
      repeat (apply elem_of_cons in Hin as [Hin|Hin]; [done|]); by apply elem_of_nil in Hin. }
  split; [done|]. split; [|vm_compute; reflexivity].
  eapply Forall_impl; [apply (enum_values_read_back status_store 3 2 Hbar)|].
  intros c (values & Hne & _ & _ & Hsplit & _). by exists values.
Defined.

End EnumSuggestions.

(** ** Source positions *)

Section SourcePositions.
Import Mapper.

(** X17. For an offset that is not negative, the line and the column
    [SourceMapMapper] estimates determine the offset: the line is at least
    1, the column lies between 0 and 49, and
    [(line - 1) * 50 + column] is the offset. *)
Theorem offset_estimate_round_trip (offset : Z) :
  0 <= offset ->
  1 <= calculateLineFromOffset offset
  /\ 0 <= calculateColumnFromOffset offset < 50
  /\ (calculateLineFromOffset offset - 1) * 50 + calculateColumnFromOffset offset = offset.
Proof.
  intros Hoff. unfold calculateLineFromOffset, calculateColumnFromOffset.
  rewrite Z.rem_mod_nonneg by lia.
  pose proof (Z.div_pos offset 50). pose proof (Z.mod_pos_bound offset 50).
  pose proof (Z.div_mod offset 50). lia.
Qed.

Lemma offset_estimate_round_trip_witness :
  calculateLineFromOffset 120 = 3 /\ calculateColumnFromOffset 120 = 20.
Proof.
  destruct (offset_estimate_round_trip 120) as (_ & _ & Hoffset); [lia|].
  split; [reflexivity|]. revert Hoffset. change (calculateLineFromOffset 120) with 3. lia.
Defined.

Lemma lookup_set_property (key key' : string) (value : json) (fields : list (string * json)) :
  Json.lookup key (set_property key' value fields)
  = if String.eqb key' key then Some value else Json.lookup key fields.
Proof.
  induction fields as [|[k v] t IH]; simpl.
  - by destruct (String.eqb key' key).
  - destruct (String.eqb_spec k key') as [->|Hk]; simpl.
    + by destruct (String.eqb key' key).
    + rewrite IH. destruct (String.eqb_spec k key) as [->|Hk'].
      * destruct (String.eqb_spec key' key) as [->|]; done.
      * done.
Qed.

(** X18. What [enhanceTypeWizData] returns.  The metadata keeps every
    property of the metadata it was given, apart from [javascript] and
    [typescript], which hold the estimated position and the mapped one.
    For a file without a source map the tuple starts with the file name
    and, in the place of the offset, the estimated line
    [offset / 50 + 1]: two offsets give the same first two components
    exactly when they lie in the same window of 50. *)
Theorem enhanced_record (sourceMaps : gmap string consumer) (filename : string) (offset : Z)
    (types : json) (metadata : option json) (log : list string) :
  let '((source, position, types', enhanced), log') :=
    enhanceTypeWizData sourceMaps filename offset types metadata log in
  types' = types
  /\ (exists fields,
        enhanced = JObj fields
        /\ Json.lookup "javascript" fields
           = Some (JObj [ ("filename", JStr filename);
                          ("line", JNum (calculateLineFromOffset offset));
                          ("column", JNum (calculateColumnFromOffset offset)) ])
        /\ is_Some (Json.lookup "typescript" fields)
        /\ forall key, key <> "javascript" -> key <> "typescript" ->
                       Json.lookup key fields = Json.lookup key (spread metadata))
  /\ (sourceMaps !! filename = None ->
      source = filename /\ position = Some (offset / 50 + 1) /\ log' = log
      /\ forall offset',
           (enhanceTypeWizData sourceMaps filename offset' types metadata log).1.1.1
           = (source, position)
           <-> offset' / 50 = offset / 50).
Proof.
  unfold enhanceTypeWizData.
  destruct (mapToOriginalPosition sourceMaps filename (calculateLineFromOffset offset)
              (calculateColumnFromOffset offset) log) as [originalPos log'] eqn:Hmap.
  split; [done|]. split.
  - eexists. split; [reflexivity|]. split_and!.
    + by rewrite !lookup_set_property.
    + rewrite lookup_set_property. by eexists.
    + intros key Hj Ht. rewrite !lookup_set_property.
      destruct (String.eqb_spec "typescript" key) as [<-|_]; [done|].
      destruct (String.eqb_spec "javascript" key) as [<-|_]; done.
  - intros Hnone. unfold mapToOriginalPosition, consumer in *. rewrite Hnone in Hmap.
    injection Hmap as <- <-. cbn [mp_source mp_line]. split_and!; try done.
    intros offset'. rewrite Hnone. cbn [fst mp_source mp_line].
    unfold calculateLineFromOffset. split; [intros [= ?]; lia|intros ->; done].
Qed.

Lemma enhanced_record_witness :
  (enhanceTypeWizData ∅ "a.js" 120 (JArr []) None []).1.1.1 = ("a.js", Some 3)
  /\ (enhanceTypeWizData ∅ "a.js" 149 (JArr []) None []).1.1.1 = ("a.js", Some 3).
Proof.
  pose proof (enhanced_record ∅ "a.js" 120 (JArr []) None []) as Hrecord.
  destruct (enhanceTypeWizData ∅ "a.js" 120 (JArr []) None [])
    as [[[[source position] types'] enhanced] log'] eqn:Hdata.
  destruct Hrecord as (_ & _ & Hmapped).
  destruct (Hmapped (lookup_empty "a.js")) as (-> & -> & _ & Hwindow).
  split; [reflexivity|]. by apply Hwindow.
Defined.

End SourcePositions.

(** ** When the instrumenter gives up *)

Section Fallback.
Import Instrumenter Records.

(** The options [instrumentCodeWithAST] parses a file with. *)
Definition options_for (filename : string) : parser_options :=
  mkParserOptions "module"
    (if Js.ends_with filename ".ts" || Js.ends_with filename ".tsx"
     then base_plugins ++ ["typescript"; "decorators-legacy"]
     else base_plugins).

Definition is_typescript (filename : string) : bool :=
  Js.ends_with filename ".ts" || Js.ends_with filename ".tsx".

(** [({ 1() {} })] and [function g() { }]. *)
Definition numbered_method : list node :=
  [ ExpressionStatement
      (ObjectExpression [ObjectMethod (at_ 3 1 3) (NumericLiteral 1) [] (BlockStatement [])]);
    function_g ].

(** X19. A file is instrumented whenever it parses and the name the
    visitor computes for each function declaration and each method in it
    is a string (the identifier, a string key, or [anonymous]): the
    traversal goes through, the result is the code generated for the
    prelude followed by the traversed program, and nothing is written to
    the console. *)
Theorem named_functions_are_instrumented
    (parse : parser_options -> string -> option (list node)) (generate : list node -> string)
    (source filename : string) (log : console) (ast runtimeAST : list node) :
  parse (options_for filename) source = Some ast ->
  parse (mkParserOptions "script" []) (createTypeWizRuntime (is_typescript filename))
  = Some runtimeAST ->
  forallb instrumentable (flat_map visited ast) = true ->
  exists ast' st,
    traverse_list (traverse filename) ast ∅ = Some (ast', st)
    /\ instrumentCodeWithAST parse generate source filename log
       = (let code := generate (runtimeAST ++ ast') in
          if is_typescript filename
          then Js.replace_all "try {$_$twiz(" (ts_comment +:+ "      try {$_$twiz(") code
          else code,
          log).
Proof.
  intros Hparse Hruntime Hnamed.
  destruct (proj1 (traverse_follows filename ast ∅) Hnamed) as [[ast' st] Htraverse].
  exists ast', st. split; [done|].
  unfold instrumentCodeWithAST, options_for, is_typescript in *. cbv zeta.
  rewrite Hparse. cbn [mbind option_bind]. rewrite Htraverse. cbn [mbind option_bind].
  by rewrite Hruntime.
Qed.

Lemma named_functions_are_instrumented_witness :
  instrumentCodeWithAST (fun options source => if String.eqb source "function g() { }"
                                               then Some [function_g] else Some [])
                        (fun _ => "instrumented") "function g() { }" "t.js" []
  = ("instrumented", []).
Proof.
  destruct (named_functions_are_instrumented
              (fun options source => if String.eqb source "function g() { }"
                                     then Some [function_g] else Some [])
              (fun _ => "instrumented") "function g() { }" "t.js" [] [function_g] [])
    as (ast' & st & _ & Hcode); [reflexivity|reflexivity|reflexivity|].
  rewrite Hcode. reflexivity.
Defined.

(** X20. One function the instrumenter cannot name costs the whole file:
    when the program holds a function whose computed name is not a string
    (an object method whose key is a non-zero number or [true]) and no two
    functions share a key of [instrumentedFunctions], the traversal throws
    and [instrumentCodeWithAST] returns the source as it was given, with a
    warning on the console; no function of the file is instrumented. *)
Theorem unnamed_function_disables_file
    (parse : parser_options -> string -> option (list node)) (generate : list node -> string)
    (source filename : string) (log : console) (ast : list node) :
  parse (options_for filename) source = Some ast ->
  NoDup (visitor_keys (flat_map visited ast)) ->
  forallb instrumentable (flat_map visited ast) = false ->
  traverse_list (traverse filename) ast ∅ = None
  /\ instrumentCodeWithAST parse generate source filename log
     = (source, log ++ ["[TypeWiz AST] Failed to instrument " +:+ filename +:+ ":"]).
Proof.
  intros Hparse Hnodup Hunnamed.
  pose proof (proj2 (traverse_follows filename ast ∅) Hnodup) as Hout.
  assert (Htraverse : traverse_list (traverse filename) ast ∅ = None).
  { unfold visit_outcome in Hout. destruct (traverse_list _ _ _) as [[ast' st]|]; [|done].
    destruct Hout as [Hnamed _]; [intros k _; apply not_elem_of_empty|congruence]. }
  split; [done|].
  unfold instrumentCodeWithAST, options_for in *. cbv zeta.
  rewrite Hparse. cbn [mbind option_bind]. by rewrite Htraverse.
Qed.

Lemma unnamed_function_disables_file_witness :
  instrumentCodeWithAST (fun _ _ => Some numbered_method) (fun _ => "instrumented")
                        "({ 1() {} }); function g() { }" "t.js" []
  = ("({ 1() {} }); function g() { }", ["[TypeWiz AST] Failed to instrument t.js:"]).
Proof.
  apply (unnamed_function_disables_file (fun _ _ => Some numbered_method) (fun _ => "instrumented")
           "({ 1() {} }); function g() { }" "t.js" [] numbered_method eq_refl).
  - vm_compute. repeat constructor; intros Hin;
      repeat (apply elem_of_cons in Hin as [Hin|Hin]; [done|]); by apply elem_of_nil in Hin.
  - reflexivity.
Defined.

End Fallback.

(** ** Values whose hashes collide *)

Section HashCollisions.
Import Collector Rows.

Lemma upsert_after_hit {R : Type} (hit : R -> bool) (bump : R -> R) (fresh fresh1 fresh2 : R)
    (tbl : list R) :
  (forall r, hit (bump r) = hit r) ->
  hit fresh = true ->
  upsert hit bump fresh1 (upsert hit bump fresh tbl)
  = upsert hit bump fresh2 (upsert hit bump fresh tbl).
Proof.
  intros Hbump Hfresh. induction tbl as [|r t IH]; simpl.
  - by rewrite Hfresh.
  - destruct (hit r) eqn:Hr; simpl.
    + by rewrite Hbump, Hr.
    + by rewrite Hr, IH.
Qed.

Lemma observe_value eid fn ctx ln cn now tbl (value : json) loc :
  value <> JNull ->
  observe eid fn ctx ln cn now tbl (Some value, loc)
  = upsertValueObservation eid (getValueType value)
      (serializeLiteralValue value (getValueType value))
      (hashValue (serializeLiteralValue value (getValueType value)))
      (enhancedContext fn ctx) (sourceLocationStr loc ln cn) now tbl.
Proof. intros Hvalue. by destruct value. Qed.

(** Two numbers whose literals have the same first eight hexadecimal
    digits of MD5. *)
Definition colliding_batch : list entry :=
  [ mkEntry (Some "a.js") 10 (Some [(Some (JNum 25302), None); (Some (JNum 82945), None)]) None ].

(** X21. Two values of a record whose literals have the same
    eight-character hash are one value observation: what the table
    [value_observations] holds after the batch is what it would hold had
    the first value been seen twice, so the type and the literal of the
    second value are not stored. *)
Theorem colliding_values_share_a_row (now : timestamp) (e : entry) (s : store)
    (v1 v2 : json) (loc1 loc2 : option (string * Z)) :
  v1 <> JNull ->
  v2 <> JNull ->
  hashValue (serializeLiteralValue v1 (getValueType v1))
  = hashValue (serializeLiteralValue v2 (getValueType v2)) ->
  types e = Some [(Some v1, loc1); (Some v2, loc2)] ->
  value_observations (store_of (processTypeData now [e] s))
  = value_observations
      (store_of (processTypeData now
                   [mkEntry (filename e) (offset e) (Some [(Some v1, loc1); (Some v1, loc1)])
                            (entry_metadata e)] s)).
Proof.
  intros Hv1 Hv2 Hhash Htypes. rewrite !processTypeData_commits. cbn [store_of ingest fold_left].
  rewrite !step_vo.
  assert (Hhof : hof_throws (mkEntry (filename e) (offset e)
                               (Some [(Some v1, loc1); (Some v1, loc1)]) (entry_metadata e))
                 = hof_throws e) by done.
  unfold values_of. rewrite Hhof.
  unfold eid_of, fn_of, context_of, line_of, column_of, md_of, entity_id_of.
  cbn [filename offset types entry_metadata]. rewrite Htypes.
  destruct (str_or_null (filename e)) as [file|]; [|done].
  destruct (hof_throws e); [done|].
  cbn [fold_left]. rewrite !observe_value by done. rewrite <- Hhash.
  unfold upsertValueObservation. apply upsert_after_hit.
  - intros r. by unfold vo_hit, vo_bump.
  - rewrite vo_hit_key. by apply bool_decide_eq_true.
Qed.

Lemma colliding_values_share_a_row_witness :
  (fun r => (vo_value_type r, vo_literal_value r, vo_observation_count r))
    <$> value_observations (store_of (processTypeData 100 colliding_batch empty_store))
  = [("number", "25302", 2)].
Proof.
  unfold colliding_batch.
  rewrite (colliding_values_share_a_row 100 _ empty_store (JNum 25302) (JNum 82945) None None);
    [vm_compute; reflexivity|done|done|vm_compute; reflexivity|reflexivity].
Defined.

End HashCollisions.
